(** * Retrieval core of the document question-answering bot

    A shallow embedding of [server.py]: the chunker of
    [DocumentProcessor.process_pdf], the vector store [FAISSIndex]
    (a thin wrapper around [faiss.IndexFlatL2] plus a parallel list of
    chunks), its persistence, and the orchestrating [RAGModel].

    Conventions.
    - A Python [str] is a list of Unicode code points ([list N]).
      Text is taken to hold no UTF-16 surrogate pair as two code
      points of their own; what [json] does to such a pair is stated
      apart ([Json], [FAISSIndexM.save_with]).
    - The vector store is modelled twice.  [FlatL2] is the index over
      any float32 values, with the distance that the library computes
      and the comparisons of the machine as parameters; what is said
      about the order and the number of the results of [search] is
      proved there, and evaluated on IEEE 754 single precision
      ([Binary32]).  [Faiss] is the same index over integers ([Z])
      with exact arithmetic, which is what float32 computes as long as
      no intermediate value reaches 2^24; the orchestrator is stated
      over it, for properties that do not depend on the values of the
      distances.
    - A method is a function from the state before the call to the
      state after it and an outcome, [OK v] or [Raise e]; the state is
      returned in both cases because Python keeps the mutations made
      before an exception.
    - The file system is a finite map from paths to file contents.
      Directories are not part of it: [FAISSIndexM.save] and
      [RAGModelM.init] are the methods on a disk where the locations
      under [data/] open for writing, [FAISSIndexM.save_with] is
      [save] on any disk. *)

From Stdlib Require Import ZArith NArith Ascii String List Lia Sorted.
From Stdlib Require SpecFloat.
From stdpp Require Import gmap strings list fin_maps.

Local Open Scope Z_scope.

(** ** Python strings *)

Module Py.

Definition str := list N.

(** A literal: the code points of an ASCII string. *)
Definition lit (s : string) : str :=
  List.map N_of_ascii (list_ascii_of_string s).

Definition NL : N := 10%N.
Definition SP : N := 32%N.

(** [str.isspace] on one code point (the Unicode white-space set of
    CPython's [Py_UNICODE_ISSPACE]). *)
Definition isspace (c : N) : bool :=
  ((9 <=? c) && (c <=? 13) || (28 <=? c) && (c <=? 32)
   || (c =? 133) || (c =? 160) || (c =? 5760)
   || (8192 <=? c) && (c <=? 8202)
   || (c =? 8232) || (c =? 8233) || (c =? 8239) || (c =? 8287)
   || (c =? 12288))%N.

(** [s.lstrip()], [s.rstrip()], [s.strip()]. *)
Fixpoint lstrip (s : str) : str :=
  match s with
  | c :: r => if isspace c then lstrip r else s
  | [] => []
  end.

Definition rstrip (s : str) : str := rev (lstrip (rev s)).

Definition strip (s : str) : str := rstrip (lstrip s).

(** [s.split('\n\n')]: left-to-right, non-overlapping occurrences of
    the separator; [cur] is the piece being read, reversed. *)
Fixpoint split_nn_from (cur : str) (s : str) : list str :=
  match s with
  | [] => [rev cur]
  | c :: r =>
      match r with
      | c' :: r' =>
          if ((c =? NL) && (c' =? NL))%N
          then rev cur :: split_nn_from [] r'
          else split_nn_from (c :: cur) r
      | [] => split_nn_from (c :: cur) r
      end
  end.

Definition split_nn (s : str) : list str := split_nn_from [] s.

(** [s.split()]: the maximal runs of non-space characters. *)
Fixpoint split_ws_from (cur : str) (s : str) : list str :=
  match s with
  | [] => match cur with [] => [] | _ => [rev cur] end
  | c :: r =>
      if isspace c
      then match cur with
           | [] => split_ws_from [] r
           | _ => rev cur :: split_ws_from [] r
           end
      else split_ws_from (c :: cur) r
  end.

Definition split_ws (s : str) : list str := split_ws_from [] s.

(** [' '.join(ws)]. *)
Fixpoint join_sp (ws : list str) : str :=
  match ws with
  | [] => []
  | [w] => w
  | w :: r => w ++ SP :: join_sp r
  end.

(** Truth value of a string: non-empty. *)
Definition truthy (s : str) : bool :=
  match s with [] => false | _ => true end.

(** [range(0, stop, step)] for a positive [step]. *)
Definition range0 (stop step : nat) : list nat :=
  List.map (fun j => (j * step)%nat) (seq 0 ((stop + step - 1) / step)%nat).

(** [l[i:j]] for [0 <= i <= j]. *)
Definition slice {A} (l : list A) (i j : nat) : list A :=
  firstn (j - i) (skipn i l).

End Py.

(** ** The chunker: [DocumentProcessor.process_pdf]

    [PyPDF2] is an external collaborator: a PDF is represented by the
    texts that [page.extract_text()] returns, one per page. *)

Module DocumentProcessor.
Import Py.

Definition MAX_PARAGRAPH_LEN : nat := 512.
Definition WORDS_PER_CHUNK : nat := 100.

(** The body of [for i in range(0, len(words), 100)]. *)
Definition emit_group (words : list str) (chunks : list str) (i : nat)
  : list str :=
  let chunk := join_sp (slice words i (i + WORDS_PER_CHUNK)) in
  if truthy chunk then chunks ++ [chunk] else chunks.

(** The body of [for paragraph in paragraphs]. *)
Definition emit_paragraph (chunks : list str) (paragraph : str) : list str :=
  if (MAX_PARAGRAPH_LEN <? length paragraph)%nat then
    let words := split_ws paragraph in
    fold_left (emit_group words) (range0 (length words) WORDS_PER_CHUNK) chunks
  else chunks ++ [paragraph].

(** [[p.strip() for p in text.split('\n\n') if p.strip()]]. *)
Definition paragraphs_of (text : str) : list str :=
  List.map strip (List.filter (fun p => truthy (strip p)) (split_nn text)).

(** The body of [for page in pdf_reader.pages]. *)
Definition emit_page (chunks : list str) (text : str) : list str :=
  fold_left emit_paragraph (paragraphs_of text) chunks.

Definition process_pdf (pages : list str) : list str :=
  fold_left emit_page pages [].

(** *** The chunker as the specification words it

    Units are the pieces between blank-line boundaries, trimmed, the
    empty ones dropped; a unit of at most 512 characters is one chunk;
    a longer one is cut into groups of 100 words, each joined by single
    spaces. *)

Fixpoint groups_fuel {A} (fuel n : nat) (l : list A) : list (list A) :=
  match fuel with
  | O => []
  | S fuel' =>
      match l with
      | [] => []
      | _ => firstn n l :: groups_fuel fuel' n (skipn n l)
      end
  end.

Definition word_groups {A} (n : nat) (l : list A) : list (list A) :=
  groups_fuel (length l) n l.

Definition units (text : str) : list str :=
  List.filter truthy (List.map strip (split_nn text)).

Definition chunk_unit (u : str) : list str :=
  if (length u <=? MAX_PARAGRAPH_LEN)%nat then [u]
  else List.map join_sp (word_groups WORDS_PER_CHUNK (split_ws u)).

Definition chunker (text : str) : list str :=
  flat_map chunk_unit (units text).

(** The input of the specification's example:
    ["A short line.\n\n" + ("word " * 150)]. *)
Definition example_text : str :=
  lit "A short line." ++ [NL; NL] ++ concat (repeat (lit "word ") 150).

End DocumentProcessor.

(** ** Outcomes and methods *)

(** Why a [RuntimeError] of faiss was raised. *)
Inductive faiss_failure := CouldNotOpen | NotAnIndex.

(** The Python exceptions that the modelled code can raise.
    [ValueError] stands for its subclasses too ([JSONDecodeError],
    [UnicodeDecodeError]); [ApiError] is whatever the generation
    service raises. *)
Inductive exn :=
| AssertionError
| ValueError
| IndexError
| FileNotFoundError
| RuntimeError (why : faiss_failure)
| ApiError.

Inductive outcome (A : Type) :=
| OK (v : A)
| Raise (e : exn).
Arguments OK {A} v.
Arguments Raise {A} e.

(** A method over a mutable state [S]. *)
Definition M (S A : Type) : Type := S -> S * outcome A.

Definition ret {S A} (v : A) : M S A := fun s => (s, OK v).
Definition raise {S A} (e : exn) : M S A := fun s => (s, Raise e).
Definition bind {S A B} (c : M S A) (k : A -> M S B) : M S B :=
  fun s => match c s with
           | (s', OK v) => k v s'
           | (s', Raise e) => (s', Raise e)
           end.
Definition get {S} : M S S := fun s => (s, OK s).
Definition modify {S} (f : S -> S) : M S unit := fun s => (f s, OK tt).
Definition lift {S A} (o : outcome A) : M S A := fun s => (s, o).
Definition py_assert {S} (b : bool) : M S unit :=
  if b then ret tt else raise AssertionError.

Notation "'do' x <- c ; k" := (bind c (fun x => k))
  (at level 10, x pattern, c at level 100, k at level 200).
Notation "'do_' c ; k" := (bind c (fun _ => k))
  (at level 10, c at level 100, k at level 200).

(** [l[i]] for a Python or numpy integer [i]: a negative index counts
    from the end; out of range raises [IndexError]. *)
Definition getitem {A} (l : list A) (i : Z) : outcome A :=
  let j := if i <? 0 then i + Z.of_nat (length l) else i in
  if (0 <=? j) && (j <? Z.of_nat (length l))
  then match nth_error l (Z.to_nat j) with
       | Some x => OK x
       | None => Raise IndexError
       end
  else Raise IndexError.

(** ** numpy arrays *)

(** A one-dimensional array of shape [(len data,)] or a two-dimensional
    one of shape [(len rows, d)], whose rows all have width [d]. *)
Inductive ndarray :=
| Arr1 (data : list Z)
| Arr2 (d : nat) (rows : list (list Z)).

(** [len(x)]. *)
Definition ndarray_len (x : ndarray) : nat :=
  match x with
  | Arr1 data => length data
  | Arr2 _ rows => length rows
  end.

(** The elements of [x[0]], flattened: a row of a matrix, a scalar of a
    vector. *)
Definition ndarray_first (x : ndarray) : outcome (list Z) :=
  match x with
  | Arr1 (a :: _) => OK [a]
  | Arr2 _ (r :: _) => OK r
  | _ => Raise IndexError
  end.

(** ** faiss: the flat L2 index

    [faiss] is an external library; this is the behaviour of
    [IndexFlatL2] through its Python wrapper that the code relies on:
    - [add(x)] unpacks [n, d = x.shape], asserts [d == self.d] and
      appends the [n] rows;
    - [search(x, k)] asserts [d == self.d] and [k > 0], and for each
      query row scans the stored vectors in order, keeping the [k]
      best (distance, label) pairs in a max-heap that starts with [k]
      pairs [(FLT_MAX, -1)]; the output rows are the heap in ascending
      order, so slots for which there was no vector keep label [-1];
    - [write_index] and [read_index] store and restore the index.
    The heap is represented by the list of its entries in ascending
    [cmp2] order, which is the order of the output.

    Here the components are integers and the arithmetic is exact, and
    the two result arrays of [k] slots are always granted; [FlatL2]
    below has neither restriction. *)

Module Faiss.

Record IndexFlat := { d : nat; xb : list (list Z) }.

Definition IndexFlatL2 (dim : nat) : IndexFlat := {| d := dim; xb := [] |}.

Definition ntotal (ix : IndexFlat) : nat := length (xb ix).

Definition add (x : ndarray) : M IndexFlat unit :=
  match x with
  | Arr1 _ => raise ValueError
  | Arr2 xd rows =>
      do ix <- get;
      do_ py_assert (xd =? d ix)%nat;
      modify (fun ix => {| d := d ix; xb := xb ix ++ rows |})
  end.

(** The largest finite float32, [3.4028235e+38]. *)
Definition FLT_MAX : Z := 340282346638528859811704183484516925440.

(** [fvec_L2sqr]: the squared Euclidean distance. *)
Fixpoint fvec_L2sqr (x y : list Z) : Z :=
  match x, y with
  | a :: x', b :: y' => (a - b) * (a - b) + fvec_L2sqr x' y'
  | _, _ => 0
  end.

(** A heap entry: distance and label. *)
Definition entry : Type := Z * Z.

Definition neutral : entry := (FLT_MAX, -1).

(** [CMax::cmp] and [CMax::cmp2]. *)
Definition cmp (a b : Z) : bool := b <? a.
Definition cmp2 (a b : entry) : bool :=
  (fst b <? fst a) || ((fst a =? fst b) && (snd b <? snd a)).

Definition heap_heapify (k : nat) : list entry := repeat neutral k.

Definition heap_top (h : list entry) : entry := List.last h neutral.

Fixpoint heap_insert (e : entry) (h : list entry) : list entry :=
  match h with
  | [] => [e]
  | x :: r => if cmp2 x e then e :: h else x :: heap_insert e r
  end.

Definition heap_replace_top (h : list entry) (e : entry) : list entry :=
  heap_insert e (removelast h).

Definition add_result (h : list entry) (e : entry) : list entry :=
  if cmp (fst (heap_top h)) (fst e) then heap_replace_top h e else h.

(** The stored vectors with their labels, in scan order. *)
Definition labelled (q : list Z) (vs : list (list Z)) : list entry :=
  List.map (fun p => (fvec_L2sqr q (snd p), Z.of_nat (fst p)))
           (combine (seq 0 (length vs)) vs).

Definition knn_L2sqr (q : list Z) (vs : list (list Z)) (k : nat)
  : list entry :=
  fold_left add_result (labelled q vs) (heap_heapify k).

(** [search] for one query row [q]: the rows [D[0]] and [I[0]]. *)
Definition search (ix : IndexFlat) (q : list Z) (k : Z)
  : outcome (list entry) :=
  if negb (length q =? d ix)%nat then Raise AssertionError
  else if negb (0 <? k) then Raise AssertionError
  else OK (knn_L2sqr q (xb ix) (Z.to_nat k)).

End Faiss.

(** ** faiss over float32 values

    The scan of [IndexFlatL2] never looks inside a distance, it only
    compares distances with [<] and [==].  [FlatL2] is the index of
    [Faiss] over any type [F] of float32 values, given
    - [fvec_L2sqr], the distance as the library computes it, with the
      rounding and the order of summation of its build;
    - [flt] and [feq], the comparisons [<] and [==] of the machine,
      which are both false when an argument is NaN;
    - [FLT_MAX], the largest finite value;
    - [np_empty k], what the creation of a result array of [k] slots
      does in the Python wrapper ([np.empty((n, k))], after the two
      assertions): it raises for a [k] that the machine cannot hold.
    [FAISSIndex] and [FAISSIndex_search] are the class of [server.py]
    and its method [search] over such an index.  [Faiss] is [FlatL2]
    over the integers with every array granted. *)

Module FlatL2.

Section Float32.

Variable F : Type.
Variable fvec_L2sqr : list F -> list F -> F.
Variables flt feq : F -> F -> bool.
Variable FLT_MAX : F.
Variable np_empty : Z -> outcome unit.

Record IndexFlat := { d : nat; xb : list (list F) }.

Definition ntotal (ix : IndexFlat) : nat := length (xb ix).

Definition entry : Type := F * Z.

Definition neutral : entry := (FLT_MAX, -1).

(** [CMax::cmp] is [a > b]; [CMax::cmp2] is
    [(a1 > b1) || ((a1 == b1) && (a2 > b2))]. *)
Definition cmp (a b : F) : bool := flt b a.
Definition cmp2 (a b : entry) : bool :=
  flt (fst b) (fst a) || (feq (fst a) (fst b) && (snd b <? snd a)).

Definition heap_heapify (k : nat) : list entry := repeat neutral k.

Definition heap_top (h : list entry) : entry := List.last h neutral.

Fixpoint heap_insert (e : entry) (h : list entry) : list entry :=
  match h with
  | [] => [e]
  | x :: r => if cmp2 x e then e :: h else x :: heap_insert e r
  end.

Definition heap_replace_top (h : list entry) (e : entry) : list entry :=
  heap_insert e (removelast h).

Definition add_result (h : list entry) (e : entry) : list entry :=
  if cmp (fst (heap_top h)) (fst e) then heap_replace_top h e else h.

Definition labelled (q : list F) (vs : list (list F)) : list entry :=
  List.map (fun p => (fvec_L2sqr q (snd p), Z.of_nat (fst p)))
           (combine (seq 0 (length vs)) vs).

Definition knn_L2sqr (q : list F) (vs : list (list F)) (k : nat)
  : list entry :=
  fold_left add_result (labelled q vs) (heap_heapify k).

Definition search (ix : IndexFlat) (q : list F) (k : Z)
  : outcome (list entry) :=
  if negb (length q =? d ix)%nat then Raise AssertionError
  else if negb (0 <? k) then Raise AssertionError
  else match np_empty k with
       | Raise e => Raise e
       | OK _ => OK (knn_L2sqr q (xb ix) (Z.to_nat k))
       end.

Record FAISSIndex := {
  dimension : nat;
  index : IndexFlat;
  chunks : list Py.str
}.

(** [FAISSIndex.search]: the arrays of distances and of labels that
    faiss returns, one row each. *)
Definition FAISSIndex_search (query_vector : list F) (k : Z)
  : M FAISSIndex (list (list F) * list (list Z)) :=
  do self <- get;
  do r <- lift (search (index self) query_vector k);
  ret ([List.map fst r], [List.map snd r]).

End Float32.

Arguments d {F} _.
Arguments xb {F} _.
Arguments ntotal {F} _.
Arguments neutral {F} _.
Arguments cmp {F} _ _ _.
Arguments cmp2 {F} _ _ _ _.
Arguments heap_heapify {F} _ _.
Arguments heap_top {F} _ _.
Arguments heap_insert {F} _ _ _ _.
Arguments heap_replace_top {F} _ _ _ _.
Arguments add_result {F} _ _ _ _ _.
Arguments labelled {F} _ _ _.
Arguments knn_L2sqr {F} _ _ _ _ _ _ _.
Arguments search {F} _ _ _ _ _ _ _ _.
Arguments dimension {F} _.
Arguments index {F} _.
Arguments chunks {F} _.
Arguments FAISSIndex_search {F} _ _ _ _ _ _ _.

End FlatL2.

(** ** [json]

    [json.dump] writes every code point outside printable ASCII as an
    escape [\uXXXX], and a code point above [0xFFFF] as the escapes of
    its two UTF-16 surrogates.  [json.load] reads the escape of a high
    surrogate that is followed by the escape of a low surrogate as the
    one code point that they encode.  So a string comes back as it was
    unless it holds a high surrogate followed by a low surrogate as
    two code points of their own: [reread s] is what [json.load] reads
    from what [json.dump] wrote for [s]. *)

Module Json.

Definition is_high (c : N) : bool := ((55296 <=? c) && (c <=? 56319))%N.
Definition is_low (c : N) : bool := ((56320 <=? c) && (c <=? 57343))%N.

(** [0x10000 + (((h - 0xd800) << 10) | (l - 0xdc00))]. *)
Definition join (h l : N) : N :=
  (65536 + N.lor (N.shiftl (h - 55296) 10) (l - 56320))%N.

Fixpoint reread (s : Py.str) : Py.str :=
  match s with
  | [] => []
  | h :: t =>
      match t with
      | l :: r => if is_high h && is_low l then join h l :: reread r
                  else h :: reread t
      | [] => [h]
      end
  end.

(** No high surrogate stands right before a low one. *)
Fixpoint no_pair (s : Py.str) : bool :=
  match s with
  | [] => true
  | h :: t =>
      match t with
      | l :: _ => negb (is_high h && is_low l) && no_pair t
      | [] => true
      end
  end.

End Json.

(** ** The file system *)

(** What a file holds: a faiss index as written by [write_index], or a
    JSON list of strings, given by the list that [json.load] reads
    from it. *)
Inductive file :=
| IndexFile (ix : Faiss.IndexFlat)
| ChunksFile (chunks : list Py.str).

(** ** [FAISSIndex] *)

Record FAISSIndex := {
  dimension : nat;
  index : Faiss.IndexFlat;
  chunks : list Py.str
}.

(** The state that the methods act on: the object and the disk. *)
Record world := {
  self_index : FAISSIndex;
  fs : gmap string file
}.

(** The tuple returned by [search]: the arrays of distances and of
    labels, one row each. *)
Definition search_result : Type := list (list Z) * list (list Z).

Module FAISSIndexM.

Definition init (dim : nat) : FAISSIndex :=
  {| dimension := dim; index := Faiss.IndexFlatL2 dim; chunks := [] |}.

Definition set_index (ix : Faiss.IndexFlat) (w : world) : world :=
  {| self_index := {| dimension := dimension (self_index w);
                      index := ix;
                      chunks := chunks (self_index w) |};
     fs := fs w |}.

Definition set_chunks (cs : list Py.str) (w : world) : world :=
  {| self_index := {| dimension := dimension (self_index w);
                      index := index (self_index w);
                      chunks := cs |};
     fs := fs w |}.

Definition write_file (path : string) (f : file) (w : world) : world :=
  {| self_index := self_index w; fs := <[path := f]> (fs w) |}.

(** [self.index.add(vectors)]: faiss acting on the field. *)
Definition index_add (vectors : ndarray) : M world unit :=
  fun w => match Faiss.add vectors (index (self_index w)) with
           | (ix, o) => (set_index ix w, o)
           end.

Definition add_vectors (vectors : ndarray) (cs : list Py.str)
  : M world unit :=
  do_ index_add vectors;
  modify (fun w => set_chunks (chunks (self_index w) ++ cs) w).

(** [query_vector.reshape(1, -1)] is the one row of all the elements
    of [query_vector], which is how the argument is given here. *)
Definition search (query_vector : list Z) (k : Z) : M world search_result :=
  do w <- get;
  do r <- lift (Faiss.search (index (self_index w)) query_vector k);
  ret ([List.map fst r], [List.map snd r]).

Definition save (index_file chunks_file : string) : M world unit :=
  do_ modify (fun w => write_file index_file (IndexFile (index (self_index w))) w);
  modify (fun w => write_file chunks_file (ChunksFile (chunks (self_index w))) w).

(** [save] on any disk and for any chunks.  [open_w path] is what
    opening [path] for writing does: it raises when the directory is
    missing or protected, and faiss reports its own failure to open as
    a [RuntimeError].  The chunks file is what [json.dump] writes, so
    it is read as the chunks passed through [Json.reread].  [save]
    above is [save_with] where both locations open and no chunk holds
    a surrogate pair, as for the locations under [data/] that
    [RAGModel] creates. *)
Definition save_with (open_w : string -> outcome unit)
    (index_file chunks_file : string) : M world unit :=
  do_ (match open_w index_file with
       | OK _ =>
           modify (fun w =>
                     write_file index_file (IndexFile (index (self_index w))) w)
       | Raise _ => raise (RuntimeError CouldNotOpen)
       end);
  do_ lift (open_w chunks_file);
  modify (fun w =>
            write_file chunks_file
              (ChunksFile (List.map Json.reread (chunks (self_index w)))) w).

Definition read_index (path : string) : M world Faiss.IndexFlat :=
  do w <- get;
  match fs w !! path with
  | None => raise (RuntimeError CouldNotOpen)
  | Some (IndexFile ix) => ret ix
  | Some (ChunksFile _) => raise (RuntimeError NotAnIndex)
  end.

Definition json_load (path : string) : M world (list Py.str) :=
  do w <- get;
  match fs w !! path with
  | None => raise FileNotFoundError
  | Some (ChunksFile cs) => ret cs
  | Some (IndexFile _) => raise ValueError
  end.

Definition load (index_file chunks_file : string) : M world unit :=
  do ix <- read_index index_file;
  do_ modify (set_index ix);
  do cs <- json_load chunks_file;
  modify (set_chunks cs).

End FAISSIndexM.

(** ** [RAGModel] *)

Record query_result := {
  answer : Py.str;
  contexts : list Py.str;
  distances : list Z
}.

Module RAGModelM.
Import Py.

Definition DEFAULT_DIMENSION : nat := 384.
Definition index_file : string := "data/faiss.index".
Definition chunks_file : string := "data/chunks.json".

(** [os.path.exists] and [os.remove]. *)
Definition path_exists (path : string) : M world bool :=
  do w <- get;
  ret (match fs w !! path with Some _ => true | None => false end).

Definition remove (path : string) : M world unit :=
  do w <- get;
  match fs w !! path with
  | Some _ => modify (fun w => {| self_index := self_index w;
                                  fs := delete path (fs w) |})
  | None => raise FileNotFoundError
  end.

(** A list comprehension whose element expression may raise. *)
Fixpoint for_each {S A B} (f : A -> M S B) (l : list A) : M S (list B) :=
  match l with
  | [] => ret []
  | x :: r => do y <- f x; do ys <- for_each f r; ret (y :: ys)
  end.

(** The f-string of [query]. *)
Definition prompt_of (contexts : list str) (question : str) : str :=
  lit "Based on the following contexts, answer the question." ++ [NL]
  ++ lit "        " ++ [NL]
  ++ lit "Contexts:" ++ [NL]
  ++ join_sp contexts ++ [NL; NL]
  ++ lit "Question: " ++ question ++ [NL; NL]
  ++ lit "Answer:".

Section Collaborators.

(** The external collaborators: [encode texts] is
    [SentenceTransformer.encode(texts)] as a numpy array, and
    [generate prompt] is the text of the first generation of
    [co.generate(prompt=prompt, ...)], or the exception it raises. *)
Variable encode : list str -> ndarray.
Variable generate : str -> outcome str.

Definition create_embeddings (chunks : list str) : ndarray := encode chunks.

(** [RAGModel.__init__] on a given disk. *)
Definition init (disk : gmap string file) : world * outcome unit :=
  (do b1 <- path_exists index_file;
   do b2 <- path_exists chunks_file;
   if b1 && b2 then FAISSIndexM.load index_file chunks_file else ret tt)
    {| self_index := FAISSIndexM.init DEFAULT_DIMENSION; fs := disk |}.

(** [RAGModel.__init__] from its first line.  [setup] is what is done
    before the files are looked for: the clients and the encoder are
    created and [os.makedirs('data', exist_ok=True)] creates the
    directory, or one of them raises ([os.makedirs] a
    [FileExistsError] when [data] is a regular file).  [init] is the
    constructor after a set-up without error. *)
Definition init_with (setup : outcome unit) (disk : gmap string file)
  : world * outcome unit :=
  match setup with
  | OK _ => init disk
  | Raise e =>
      ({| self_index := FAISSIndexM.init DEFAULT_DIMENSION; fs := disk |},
       Raise e)
  end.

(** The document is given by its page texts. *)
Definition index_document (pages : list str) : M world nat :=
  let chunks := DocumentProcessor.process_pdf pages in
  let embeddings := create_embeddings chunks in
  do_ FAISSIndexM.add_vectors embeddings chunks;
  do_ FAISSIndexM.save index_file chunks_file;
  ret (length chunks).

Definition query (question : str) (top_k : Z) : M world query_result :=
  do query_embedding <- lift (ndarray_first (encode [question]));
  do r <- FAISSIndexM.search query_embedding top_k;
  do indices0 <- lift (getitem (snd r) 0);
  do contexts <- for_each
                   (fun idx => do w <- get;
                               lift (getitem (chunks (self_index w)) idx))
                   indices0;
  do text <- lift (generate (prompt_of contexts question));
  do distances0 <- lift (getitem (fst r) 0);
  ret {| answer := strip text;
         contexts := contexts;
         distances := distances0 |}.

Definition clear_index : M world unit :=
  do_ modify (fun w => {| self_index := FAISSIndexM.init DEFAULT_DIMENSION;
                          fs := fs w |});
  do b1 <- path_exists index_file;
  do_ (if b1 then remove index_file else ret tt);
  do b2 <- path_exists chunks_file;
  if b2 then remove chunks_file else ret tt.

End Collaborators.

End RAGModelM.

(** ** [RAGModel.query] over float32 values

    [query] only reads the index, so it is given here over the index
    of [FlatL2] alone.  [encode_first question] is
    [self.doc_processor.encoder.encode([question])[0]], with all its
    elements in one row as [search] takes them, or the exception of
    the encoder. *)

Module RAGModel32.

Section Float32.

Variable F : Type.
Variable fvec_L2sqr : list F -> list F -> F.
Variables flt feq : F -> F -> bool.
Variable FLT_MAX : F.
Variable np_empty : Z -> outcome unit.
Variable encode_first : Py.str -> outcome (list F).
Variable generate : Py.str -> outcome Py.str.

Record query_result := {
  answer : Py.str;
  contexts : list Py.str;
  distances : list F
}.

Definition query (question : Py.str) (top_k : Z)
  : M (FlatL2.FAISSIndex F) query_result :=
  do query_embedding <- lift (encode_first question);
  do r <- FlatL2.FAISSIndex_search fvec_L2sqr flt feq FLT_MAX np_empty
            query_embedding top_k;
  do indices0 <- lift (getitem (snd r) 0);
  do contexts <- RAGModelM.for_each
                   (fun idx => do self <- get;
                               lift (getitem (FlatL2.chunks self) idx))
                   indices0;
  do text <- lift (generate (RAGModelM.prompt_of contexts question));
  do distances0 <- lift (getitem (fst r) 0);
  ret {| answer := Py.strip text;
         contexts := contexts;
         distances := distances0 |}.

End Float32.

Arguments answer {F} _.
Arguments contexts {F} _.
Arguments distances {F} _.
Arguments query {F} _ _ _ _ _ _ _ _ _.

End RAGModel32.

(** ** Concrete collaborators and states for evaluation *)

Module Demo.
Import Py.

(** A deterministic stand-in for the embedder: every text is mapped to
    the vector of [DEFAULT_DIMENSION] copies of its length, and a batch
    to the matrix of these rows (an empty batch to an empty
    one-dimensional array, as [np.asarray([])]). *)
Definition encode (texts : list str) : ndarray :=
  match texts with
  | [] => Arr1 []
  | _ => Arr2 RAGModelM.DEFAULT_DIMENSION
           (List.map (fun t => repeat (Z.of_nat (length t))
                                      RAGModelM.DEFAULT_DIMENSION) texts)
  end.

(** A stand-in for the generator: it echoes the prompt. *)
Definition generate (prompt : str) : outcome str := OK prompt.

Definition empty_world : world :=
  {| self_index := FAISSIndexM.init RAGModelM.DEFAULT_DIMENSION; fs := ∅ |}.

(** A one-dimensional store for small examples. *)
Definition world1 (vs : list (list Z)) (cs : list str) : world :=
  {| self_index := {| dimension := 1;
                      index := {| Faiss.d := 1; Faiss.xb := vs |};
                      chunks := cs |};
     fs := ∅ |}.

(** A disk whose index file holds one vector and whose chunks file
    holds no chunk. *)
Definition mismatched_disk : gmap string file :=
  <["c" := ChunksFile []]>
    (<["i" := IndexFile {| Faiss.d := 1; Faiss.xb := [[7]] |}]> ∅).

(** A one-dimensional index built by one [add_vectors] call with one
    vector and its chunk. *)
Definition one_chunk_world : world :=
  fst (FAISSIndexM.add_vectors (Arr2 1 [[5]]) [lit "a"] (world1 [] [])).

(** The state after a first document of one chunk was indexed. *)
Definition after_old_document : world :=
  fst (RAGModelM.index_document encode [lit "old text"] empty_world).

End Demo.

(** ** Specification vocabulary *)

(** A computation that never changes the state. *)
Definition readonly {S A} (c : M S A) : Prop := forall s, fst (c s) = s.

(** What the code needs from the embedder: a matrix with one row of
    width [DEFAULT_DIMENSION] per text; only for an empty batch may the
    array be one-dimensional. *)
Definition encoder_ok (encode : list Py.str -> ndarray) : Prop :=
  forall texts,
    match encode texts with
    | Arr2 d rows => d = RAGModelM.DEFAULT_DIMENSION
                     /\ length rows = length texts
    | Arr1 _ => texts = []
    end.

(** *** The order and the invariant of the flat index scan *)

Module FaissSpec.
Import Faiss.

(** The order of the heap: by distance, then by label. *)
Definition le2 (a b : entry) : Prop :=
  fst a < fst b \/ (fst a = fst b /\ snd a <= snd b).

(** A candidate can enter the heap only below [FLT_MAX]. *)
Definition eligible (e : entry) : bool := fst e <? FLT_MAX.

(** Candidates labelled [j], [j + 1], ... in this order. *)
Fixpoint consecutive (j : Z) (cands : list entry) : Prop :=
  match cands with
  | [] => True
  | c :: r => snd c = j /\ consecutive (j + 1) r
  end.

(** The scan invariant.  After the candidates [seen], labelled below
    [j], have been offered in label order to a heap of [k] slots, the
    heap is [vs ++ repeat neutral m]: [vs] are the kept candidates in
    ascending order and [m] slots have never been filled; a candidate
    that is not kept comes after every entry of the heap. *)
Definition scan_inv (k : nat) (j : Z) (seen vs : list entry) (m : nat) : Prop :=
  0 <= j
  /\ (length vs + m = k)%nat
  /\ StronglySorted le2 vs
  /\ (forall e, In e vs -> In e seen /\ fst e < FLT_MAX)
  /\ (forall c, In c seen -> 0 <= snd c < j)
  /\ (forall c, In c seen ->
        In c vs \/ Forall (fun e => le2 e c) (vs ++ repeat neutral m))
  /\ length vs = Nat.min k (length (List.filter eligible seen)).

(** The candidates of a store whose first label is [s]. *)
Definition labelled_from (s : nat) (q : list Z) (vs : list (list Z))
  : list entry :=
  List.map (fun p => (fvec_L2sqr q (snd p), Z.of_nat (fst p)))
           (combine (seq s (length vs)) vs).

(** An entry that stands for a stored vector: its label is a position
    of the store and its distance is the squared distance from the
    query to the vector at that position. *)
Definition stored (q : list Z) (ix : IndexFlat) (e : entry) : Prop :=
  exists i v, nth_error (xb ix) i = Some v
              /\ e = (fvec_L2sqr q v, Z.of_nat i).

End FaissSpec.

(** ** The alignment of vectors and chunks *)

Module Alignment.
Import Py.

(** The invariant of the data model, for any correspondence [R]
    between a vector and a chunk: the two collections have the same
    length and are related position by position. *)
Definition aligned (R : list Z -> str -> Prop) (ix : FAISSIndex) : Prop :=
  Forall2 R (Faiss.xb (index ix)) (chunks ix).

(** The mutating operations on the index. *)
Inductive op :=
| OpAdd (vectors : ndarray) (cs : list str)
| OpLoad (index_file chunks_file : string)
| OpClear.

Definition run_op (o : op) (w : world) : world :=
  match o with
  | OpAdd vectors cs => fst (FAISSIndexM.add_vectors vectors cs w)
  | OpLoad index_file chunks_file =>
      fst (FAISSIndexM.load index_file chunks_file w)
  | OpClear => fst (RAGModelM.clear_index w)
  end.

(** A sequence of calls; a call that raises does not stop the ones
    after it. *)
Definition run_ops (ops : list op) (w : world) : world :=
  fold_left (fun w o => run_op o w) ops w.

(** What the callers have to provide for the invariant to survive:
    corresponding arguments to [add_vectors], and for [load] a chunks
    file that corresponds to the index file. *)
Definition op_pre (R : list Z -> str -> Prop) (o : op) (w : world) : Prop :=
  match o with
  | OpAdd (Arr2 _ rows) cs => Forall2 R rows cs
  | OpAdd (Arr1 _) _ => True
  | OpLoad index_file chunks_file =>
      match fs w !! index_file with
      | Some (IndexFile ix) =>
          exists cs, fs w !! chunks_file = Some (ChunksFile cs)
                     /\ Forall2 R (Faiss.xb ix) cs
      | _ => True
      end
  | OpClear => True
  end.

Fixpoint ops_pre (R : list Z -> str -> Prop) (ops : list op) (w : world)
  : Prop :=
  match ops with
  | [] => True
  | o :: r => op_pre R o w /\ ops_pre R r (run_op o w)
  end.

End Alignment.

(** *** Words and trimmed strings *)

Module WordSpec.
Import Py.

(** White space only, and none at all. *)
Definition all_space (s : str) : Prop := Forall (fun c => isspace c = true) s.
Definition no_space (s : str) : Prop := Forall (fun c => isspace c = false) s.

(** What [split] returns: non-empty and free of white space. *)
Definition proper_word (w : str) : Prop := w <> [] /\ no_space w.

(** No white space in front. *)
Definition head_ok (s : str) : Prop :=
  match s with
  | [] => True
  | c :: _ => isspace c = false
  end.

(** No white space at either end. *)
Definition trimmed (s : str) : Prop := head_ok s /\ head_ok (rev s).

End WordSpec.

(** *** The stored vectors in the order of the results *)

Module RankSpec.
Import Faiss FaissSpec.

(** Insertion sort in the order of the heap. *)
Definition isort (l : list entry) : list entry :=
  fold_left (fun s e => heap_insert e s) l [].

(** The stored vectors that can be returned, nearest first, equal
    distances by position. *)
Definition ranked (q : list Z) (vs : list (list Z)) : list entry :=
  isort (List.filter eligible (labelled q vs)).

End RankSpec.

(** *** The order of float32 values and the results over them *)

Module FlatSpec.
Import FlatL2.

(** Comparisons of numbered values: a value without a number compares
    false with everything. *)
Definition lt_key (a b : option Z) : bool :=
  match a, b with
  | Some x, Some y => x <? y
  | _, _ => false
  end.

Definition eq_key (a b : option Z) : bool :=
  match a, b with
  | Some x, Some y => x =? y
  | _, _ => false
  end.

Section Float32.

Variable F : Type.
Variable fvec_L2sqr : list F -> list F -> F.
Variables flt feq : F -> F -> bool.
Variable FLT_MAX : F.

(** What the scan needs from the comparisons of the machine, and what
    IEEE 754 gives: the values other than NaN are totally ordered
    ([+0] and [-0] being equal, the infinities at the two ends), and
    NaN compares false with everything.  [key] numbers the values
    other than NaN in that order; [FLT_MAX] is not NaN. *)
Definition ordered_by (key : F -> option Z) : Prop :=
  (forall x y, flt x y = lt_key (key x) (key y))
  /\ (forall x y, feq x y = eq_key (key x) (key y))
  /\ key FLT_MAX <> None.

(** The order of the results: by distance, then by label. *)
Definition le2 (a b : entry F) : Prop :=
  flt (fst a) (fst b) = true
  \/ (feq (fst a) (fst b) = true /\ snd a <= snd b).

(** A candidate can enter the heap only below [FLT_MAX]; a distance
    that is infinite or NaN never does. *)
Definition eligible (e : entry F) : bool := flt (fst e) FLT_MAX.

(** The candidates of a store whose first label is [s]. *)
Definition labelled_from (s : nat) (q : list F) (vs : list (list F))
  : list (entry F) :=
  List.map (fun p => (fvec_L2sqr q (snd p), Z.of_nat (fst p)))
           (combine (seq s (length vs)) vs).

(** An entry that stands for a stored vector: its label is a position
    of the store and its distance is the distance that the library
    computes from the query to the vector at that position. *)
Definition stored (q : list F) (ix : IndexFlat F) (e : entry F) : Prop :=
  exists i v, nth_error (xb ix) i = Some v
              /\ e = (fvec_L2sqr q v, Z.of_nat i).

(** Insertion sort in the order of the heap. *)
Definition isort (l : list (entry F)) : list (entry F) :=
  fold_left (fun s e => heap_insert flt feq e s) l [].

(** The stored vectors that can be returned, nearest first, equal
    distances by position. *)
Definition ranked (q : list F) (vs : list (list F)) : list (entry F) :=
  isort (List.filter eligible (labelled fvec_L2sqr q vs)).

(** How many stored vectors are at a distance below [FLT_MAX]. *)
Definition within_reach (q : list F) (ix : IndexFlat F) : nat :=
  length (List.filter (fun v => flt (fvec_L2sqr q v) FLT_MAX) (xb ix)).

(** The numbering moved so that [FLT_MAX] has the number
    [Faiss.FLT_MAX], which NaN gets too: with it the comparisons that
    the scan makes are those of [Faiss]. *)
Definition zkey (key : F -> option Z) (m : Z) (x : F) : Z :=
  match key x with
  | Some a => a + (Faiss.FLT_MAX - m)
  | None => Faiss.FLT_MAX
  end.

Definition keyed (key : F -> option Z) (m : Z) (e : entry F) : Faiss.entry :=
  (zkey key m (fst e), snd e).

(** An entry that can be in the heap: its distance has a number, not
    above that of [FLT_MAX]. *)
Definition below (key : F -> option Z) (m : Z) (e : entry F) : Prop :=
  exists a, key (fst e) = Some a /\ a <= m.

End Float32.

Arguments ordered_by {F} _ _ _ _.
Arguments le2 {F} _ _ _ _.
Arguments eligible {F} _ _ _.
Arguments labelled_from {F} _ _ _ _.
Arguments stored {F} _ _ _ _.
Arguments isort {F} _ _ _.
Arguments ranked {F} _ _ _ _ _ _.
Arguments within_reach {F} _ _ _ _ _.
Arguments zkey {F} _ _ _.
Arguments keyed {F} _ _ _.
Arguments below {F} _ _ _.

End FlatSpec.

(** The integer store of [FAISSIndex] as an index of [FlatL2]. *)
Definition over_integers (ix : FAISSIndex) : FlatL2.FAISSIndex Z :=
  {| FlatL2.dimension := dimension ix;
     FlatL2.index := {| FlatL2.d := Faiss.d (index ix);
                        FlatL2.xb := Faiss.xb (index ix) |};
     FlatL2.chunks := chunks ix |}.

(** *** Sessions of the orchestrator *)

Module UserSpec.
Import Py.

(** The calls a user of [RAGModel] makes. *)
Inductive user_op :=
| UIndex (pages : list str)
| UQuery (question : str) (top_k : Z)
| UClear.

Section Collaborators.

Variable encode : list str -> ndarray.
Variable generate : str -> outcome str.

Definition run_user_op (o : user_op) (w : world) : world :=
  match o with
  | UIndex pages => fst (RAGModelM.index_document encode pages w)
  | UQuery question top_k =>
      fst (RAGModelM.query encode generate question top_k w)
  | UClear => fst (RAGModelM.clear_index w)
  end.

(** A session: a call that raises does not stop the ones after it. *)
Definition run_user_ops (ops : list user_op) (w : world) : world :=
  fold_left (fun w o => run_user_op o w) ops w.

End Collaborators.


(** The state that [index_document] leaves when it succeeds with the
    embeddings [rows] of the chunks [cs]. *)
Definition indexed (w : world) (rows : list (list Z)) (cs : list str)
  : world :=
  let ix := {| Faiss.d := Faiss.d (index (self_index w));
               Faiss.xb := Faiss.xb (index (self_index w)) ++ rows |} in
  {| self_index := {| dimension := dimension (self_index w);
                      index := ix;
                      chunks := chunks (self_index w) ++ cs |};
     fs := <[RAGModelM.chunks_file := ChunksFile (chunks (self_index w) ++ cs)]>
             (<[RAGModelM.index_file := IndexFile ix]> (fs w)) |}.

End UserSpec.

(** ** The front end: [main] of [QA_bot.py]

    Streamlit runs [main] from the top at every interaction, with the
    widget values of that moment; [st.session_state] is what survives
    from one run to the next.  A run is modelled as a function of the
    widget values and of the state between runs (the session and the
    disk) to the state after it and the messages shown.  The uploaded
    file is given by its page texts: it is staged in a temporary file,
    read by [index_document] and unlinked within the same block, which
    is not represented.  The API key is taken to be configured. *)

Module App.
Import Py.

(** What a run shows. *)
Inductive ui_event :=
| ClearedMsg
| ProcessedMsg (num_chunks : nat)
| ProcessingError (e : exn)
| AnswerShown (answer : str) (shown : list (str * Z))
| AnswerError (e : exn).

(** The widget values of a run: [st.button], [st.file_uploader],
    [st.text_input]. *)
Record widgets := {
  clear_clicked : bool;
  uploaded_file : option (list str);
  question : str
}.

(** What persists between runs: the two keys of [st.session_state]
    ([None] when the key is not there yet) and the disk. *)
Record app_state := {
  rag_model : option FAISSIndex;
  document_processed : option bool;
  disk : gmap string file
}.

(** The state during a run. *)
Record run_state := {
  run_world : world;
  run_processed : bool;
  run_events : list ui_event
}.

Definition on_world {A} (c : M world A) : M run_state A :=
  fun s => match c (run_world s) with
           | (w, o) => ({| run_world := w;
                           run_processed := run_processed s;
                           run_events := run_events s |}, o)
           end.

Definition set_processed (b : bool) : M run_state unit :=
  modify (fun s => {| run_world := run_world s;
                      run_processed := b;
                      run_events := run_events s |}).

Definition emit (ev : ui_event) : M run_state unit :=
  modify (fun s => {| run_world := run_world s;
                      run_processed := run_processed s;
                      run_events := run_events s ++ [ev] |}).

(** [try: body  except Exception as e: handler e]. *)
Definition try_except {S} (body : M S unit) (handler : exn -> M S unit)
  : M S unit :=
  fun s => match body s with
           | (s', OK v) => (s', OK v)
           | (s', Raise e) => handler e s'
           end.

Section Collaborators.

Variable encode : list str -> ndarray.
Variable generate : str -> outcome str.

(** The three blocks of [main] after the session state is set up. *)
Definition main_body (inp : widgets) : M run_state unit :=
  do_ (if clear_clicked inp then
         do_ on_world RAGModelM.clear_index;
         do_ set_processed false;
         emit ClearedMsg
       else ret tt);
  do_ (match uploaded_file inp with
       | Some pages =>
           try_except
             (do num_chunks <- on_world (RAGModelM.index_document encode pages);
              do_ set_processed true;
              emit (ProcessedMsg num_chunks))
             (fun e => emit (ProcessingError e))
       | None => ret tt
       end);
  if truthy (question inp) then
    try_except
      (do response <- on_world (RAGModelM.query encode generate
                                  (question inp) 3);
       emit (AnswerShown (answer response)
                         (combine (contexts response) (distances response))))
      (fun e => emit (AnswerError e))
  else ret tt.

Definition main (inp : widgets) (a : app_state) : app_state * outcome (list ui_event) :=
  match (match rag_model a with
         | Some ix => ({| self_index := ix; fs := disk a |}, OK tt)
         | None => RAGModelM.init (disk a)
         end) with
  | (_, Raise e) => (a, Raise e)
  | (w, OK _) =>
      let processed := match document_processed a with
                       | Some b => b
                       | None => false
                       end in
      match main_body inp {| run_world := w;
                             run_processed := processed;
                             run_events := [] |} with
      | (s, o) =>
          ({| rag_model := Some (self_index (run_world s));
              document_processed := Some (run_processed s);
              disk := fs (run_world s) |},
           match o with
           | OK _ => OK (run_events s)
           | Raise e => Raise e
           end)
      end
  end.

(** [main] from its first line, with the set-up of the constructor
    ([RAGModelM.init_with]): when the model has to be constructed and
    the set-up raises, the run raises and the session is as it was. *)
Definition main_with (setup : outcome unit) (inp : widgets) (a : app_state)
  : app_state * outcome (list ui_event) :=
  match rag_model a, setup with
  | None, Raise e => (a, Raise e)
  | _, _ => main inp a
  end.

End Collaborators.

(** The app before its first run, on a given disk. *)
Definition fresh (d : gmap string file) : app_state :=
  {| rag_model := None; document_processed := None; disk := d |}.

End App.

(** The three blocks of [main] as functions on the state of the run. *)

Module AppSpec.
Import Py App.

Section Collaborators.

Variable encode : list str -> ndarray.
Variable generate : str -> outcome str.

Definition after_clear (inp : widgets) (s : run_state) : run_state :=
  if clear_clicked inp
  then {| run_world := fst (RAGModelM.clear_index (run_world s));
          run_processed := false;
          run_events := run_events s ++ [ClearedMsg] |}
  else s.

Definition after_upload (inp : widgets) (s : run_state) : run_state :=
  match uploaded_file inp with
  | Some pages =>
      match RAGModelM.index_document encode pages (run_world s) with
      | (w, OK n) => {| run_world := w;
                        run_processed := true;
                        run_events := run_events s ++ [ProcessedMsg n] |}
      | (w, Raise e) => {| run_world := w;
                           run_processed := run_processed s;
                           run_events := run_events s ++ [ProcessingError e] |}
      end
  | None => s
  end.

Definition after_question (inp : widgets) (s : run_state) : run_state :=
  if truthy (question inp)
  then match RAGModelM.query encode generate (question inp) 3 (run_world s) with
       | (w, OK res) =>
           {| run_world := w;
              run_processed := run_processed s;
              run_events := run_events s
                            ++ [AnswerShown (answer res)
                                  (combine (contexts res) (distances res))] |}
       | (w, Raise e) => {| run_world := w;
                            run_processed := run_processed s;
                            run_events := run_events s ++ [AnswerError e] |}
       end
  else s.

End Collaborators.

End AppSpec.

(** ** More states and collaborators for evaluation *)

Module Demo1.
Import Py.

(** An embedder for one-dimensional indexes: every text is at [0]. *)
Definition encode (texts : list str) : ndarray :=
  Arr2 1 (List.map (fun _ => [0]) texts).

(** A generator that is out of service. *)
Definition failing (prompt : str) : outcome str := Raise ApiError.

Definition two_chunks : world :=
  Demo.world1 [[5]; [1]] [lit "far"; lit "near"].

(** An app whose model holds one chunk of an earlier document. *)
Definition running : App.app_state :=
  {| App.rag_model := Some (self_index Demo.after_old_document);
     App.document_processed := Some true;
     App.disk := fs Demo.after_old_document |}.

Definition upload (clear : bool) (pages : list str) (q : str) : App.widgets :=
  {| App.clear_clicked := clear;
     App.uploaded_file := Some pages;
     App.question := q |}.

End Demo1.

(** A session of user calls. *)
Definition demo_session : list UserSpec.user_op :=
  [UserSpec.UQuery (Py.lit "q") 3;
   UserSpec.UIndex [Py.lit "a"];
   UserSpec.UClear;
   UserSpec.UIndex [DocumentProcessor.example_text];
   UserSpec.UQuery (Py.lit "q") 2].

(** ** binary32

    The single-precision numbers of IEEE 754, after [SpecFloat] of the
    Standard Library (precision 24, [emax] 128): what [FlatL2] is
    about.  A triple that is not a canonical single-precision number
    stands for no float; it is compared like NaN. *)

Module Binary32.
Import SpecFloat.

Definition prec : Z := 24.
Definition emax : Z := 128.

Definition float32 : Type := spec_float.

(** The float32 nearest to an integer, ties to even. *)
Definition of_Z (n : Z) : float32 := binary_normalize prec emax n 0 false.

(** [3.4028235e+38], that is [(2^24 - 1) * 2^104]. *)
Definition FLT_MAX : float32 := SFmax_float prec emax.

(** The reference kernel of faiss, [fvec_L2sqr_ref]:
    [res = 0; for (i = 0; i < d; i++) { tmp = x[i] - y[i]; res += tmp * tmp; }]. *)
Definition fvec_L2sqr (x y : list float32) : float32 :=
  fold_left (fun res p =>
               let tmp := SFsub prec emax (fst p) (snd p) in
               SFadd prec emax res (SFmul prec emax tmp tmp))
            (combine x y) (S754_zero false).

Definition is_float32 (x : float32) : bool := valid_binary prec emax x.

(** Zero or a finite number, of either sign. *)
Definition finite (x : float32) : bool :=
  match x with
  | S754_zero _ | S754_finite _ _ _ => true
  | _ => false
  end.

(** Not below zero: a zero, a positive number, [+inf], or NaN. *)
Definition nonneg (x : float32) : bool :=
  match x with
  | S754_zero _ | S754_nan => true
  | S754_infinity s | S754_finite s _ _ => negb s
  end.

(** [x < y] and [x == y]. *)
Definition flt (x y : float32) : bool :=
  is_float32 x && is_float32 y && SFltb x y.

Definition feq (x y : float32) : bool :=
  is_float32 x && is_float32 y && SFeqb x y.

(** The numbering of the floats in their order: a finite number
    [m * 2^e] by exponent and then by mantissa (the mantissa of a
    canonical number is below [2^24]), the two zeros at 0, the
    infinities beyond; NaN has no number. *)
Definition key (x : float32) : option Z :=
  if is_float32 x then
    match x with
    | S754_nan => None
    | S754_zero _ => Some 0
    | S754_infinity s => Some (if s then - 2 ^ 40 else 2 ^ 40)
    | S754_finite s m e =>
        let mag := (e - emin prec emax) * 2 ^ 24 + Zpos m in
        Some (if s then - mag else mag)
    end
  else None.

End Binary32.

(** Values for the evaluation of [FlatL2] and of [save_with]. *)
Module Demo32.
Import Binary32.

(** Every array of fewer than [2^31] slots is granted. *)
Definition np_empty (k : Z) : outcome unit :=
  if k <? 2147483648 then OK tt else Raise ValueError.

(** An index over [float32] that holds the given vectors. *)
Definition index_of (dim : nat) (vs : list (list float32))
    (cs : list Py.str) : FlatL2.FAISSIndex float32 :=
  {| FlatL2.dimension := dim;
     FlatL2.index := {| FlatL2.d := dim; FlatL2.xb := vs |};
     FlatL2.chunks := cs |}.

Definition vec (v : list Z) : list float32 := List.map of_Z v.

Definition search (query_vector : list float32) (k : Z)
  : M (FlatL2.FAISSIndex float32) (list (list float32) * list (list Z)) :=
  FlatL2.FAISSIndex_search fvec_L2sqr flt feq FLT_MAX np_empty query_vector k.

(** A chunk of two code points, the surrogates [0xD83D] and [0xDE00]
    side by side. *)
Definition surrogate_pair : Py.str := [55357%N; 56832%N].

(** A disk where only the locations under [data/] open for writing. *)
Definition open_under_data (path : string) : outcome unit :=
  if String.prefix "data/" path then OK tt else Raise FileNotFoundError.

End Demo32.

(** ** Properties of the chunker *)

Module ChunkerFacts.
Import Py DocumentProcessor.

(** A loop that only appends is a [flat_map]. *)
Lemma fold_left_appends {A B} (f : list B -> A -> list B) (g : A -> list B)
    (P : A -> Prop) :
  (forall acc x, P x -> f acc x = acc ++ g x) ->
  forall l acc, Forall P l -> fold_left f l acc = acc ++ flat_map g l.
Proof.
  intros Hf l. induction l as [|x l IH]; intros acc Hl; simpl.
  - now rewrite app_nil_r.
  - inversion Hl; subst. rewrite Hf by assumption.
    rewrite IH by assumption. now rewrite app_assoc.
Qed.

Lemma paragraphs_of_units text : paragraphs_of text = units text.
Proof.
  unfold paragraphs_of, units. induction (split_nn text) as [|p l IH]; simpl.
  - reflexivity.
  - destruct (truthy (strip p)); simpl; now rewrite IH.
Qed.

(** *** Words are never empty *)

Lemma split_ws_from_nonempty cur s :
  Forall (fun w => w <> []) (split_ws_from cur s).
Proof.
  revert cur. induction s as [|c r IH]; intros cur; simpl.
  - destruct cur as [|x cur]; constructor; [|constructor].
    intros H. apply (f_equal (@length _)) in H. simpl in H.
    rewrite length_app in H. simpl in H. lia.
  - destruct (isspace c).
    + destruct cur as [|x cur]; [apply IH|]. constructor; [|apply IH].
      intros H. apply (f_equal (@length _)) in H. simpl in H.
      rewrite length_app in H. simpl in H. lia.
    + apply IH.
Qed.

Lemma split_ws_nonempty s : Forall (fun w => w <> []) (split_ws s).
Proof. apply split_ws_from_nonempty. Qed.

Lemma join_sp_truthy ws :
  ws <> [] -> Forall (fun w => w <> []) ws -> truthy (join_sp ws) = true.
Proof.
  intros Hne Hall. destruct ws as [|w r]; [congruence|].
  inversion Hall; subst. destruct w as [|c w]; [congruence|].
  destruct r; reflexivity.
Qed.

(** *** The index loop against the groups *)

Lemma ceil_div_step len n :
  (0 < n)%nat -> (0 < len)%nat ->
  ((len + n - 1) / n = S ((len - n + n - 1) / n))%nat.
Proof.
  intros Hn Hlen. destruct (le_lt_dec n len) as [Hle|Hlt].
  - replace (len + n - 1)%nat with ((len - n + n - 1) + 1 * n)%nat by lia.
    rewrite Nat.div_add by lia. lia.
  - replace (len - n + n - 1)%nat with (n - 1)%nat by lia.
    rewrite (Nat.div_small (n - 1) n) by lia.
    symmetry. apply (Nat.div_unique _ _ 1%nat (len - 1)%nat); lia.
Qed.

Lemma groups_fuel_slices {A} n (Hn : (0 < n)%nat) fuel :
  forall l : list A, (length l <= fuel)%nat ->
  groups_fuel fuel n l =
  List.map (fun i => slice l i (i + n)) (range0 (length l) n).
Proof.
  unfold range0, slice. induction fuel as [|fuel IH]; intros l Hlen.
  - destruct l; [|simpl in Hlen; lia]. simpl.
    rewrite Nat.div_small by lia. reflexivity.
  - destruct l as [|x l'] eqn:El.
    + simpl. rewrite Nat.div_small by lia. reflexivity.
    + rewrite <- El in *. assert (0 < length l)%nat by (subst; simpl; lia).
      rewrite ceil_div_step by lia.
      rewrite <- cons_seq, <- seq_shift. simpl List.map.
      replace (groups_fuel (S fuel) n l)
        with (firstn n l :: groups_fuel fuel n (skipn n l))
        by (subst l; reflexivity).
      rewrite IH by (rewrite length_skipn; lia).
      rewrite length_skipn. f_equal.
      * now rewrite Nat.sub_0_r.
      * rewrite !List.map_map. apply List.map_ext. intros j.
        replace (j * n + n - j * n)%nat with n by lia.
        replace (S j * n + n - S j * n)%nat with n by lia.
        rewrite skipn_skipn. f_equal. f_equal. lia.
Qed.

Lemma word_groups_slices {A} n (l : list A) :
  (0 < n)%nat ->
  word_groups n l = List.map (fun i => slice l i (i + n)) (range0 (length l) n).
Proof. intros Hn. now apply groups_fuel_slices. Qed.

Lemma length_word_groups {A} n (l : list A) :
  (0 < n)%nat -> length (word_groups n l) = ((length l + n - 1) / n)%nat.
Proof.
  intros Hn. rewrite word_groups_slices by assumption.
  unfold range0. now rewrite !length_map, length_seq.
Qed.

Lemma groups_fuel_shape {A} n (Hn : (0 < n)%nat) fuel :
  forall l : list A, (length l <= fuel)%nat ->
  concat (groups_fuel fuel n l) = l /\
  Forall (fun g => g <> [] /\ (length g <= n)%nat /\ incl g l)
         (groups_fuel fuel n l).
Proof.
  induction fuel as [|fuel IH]; intros l Hlen.
  - destruct l; [|simpl in Hlen; lia]. split; [reflexivity|constructor].
  - destruct l as [|x l'] eqn:El; [split; [reflexivity|constructor]|].
    rewrite <- El in *.
    replace (groups_fuel (S fuel) n l)
      with (firstn n l :: groups_fuel fuel n (skipn n l))
      by (subst l; reflexivity).
    assert (0 < length l)%nat by (subst; simpl; lia).
    destruct (IH (skipn n l)) as [Hc Hall]; [rewrite length_skipn; lia|].
    split.
    + simpl. rewrite Hc. apply firstn_skipn.
    + constructor.
      * split; [|split].
        -- intros E. apply (f_equal (@length _)) in E.
           rewrite length_firstn in E. simpl in E. lia.
        -- rewrite length_firstn. lia.
        -- intros y Hy. rewrite <- (firstn_skipn n l).
           apply in_or_app. now left.
      * eapply List.Forall_impl; [|exact Hall]. intros g (Hg & Hl & Hi).
        split; [assumption|split; [assumption|]].
        intros y Hy. rewrite <- (firstn_skipn n l).
        apply in_or_app. right. now apply Hi.
Qed.

Lemma range0_in_bounds len n i :
  (0 < n)%nat -> In i (range0 len n) -> (i < len)%nat.
Proof.
  unfold range0. intros Hn Hi. apply in_map_iff in Hi.
  destruct Hi as (j & <- & Hj). apply in_seq in Hj.
  pose proof (Nat.div_mod_eq (len + n - 1) n) as E.
  pose proof (Nat.mod_upper_bound (len + n - 1) n) as B.
  nia.
Qed.

Lemma slice_nonempty {A} (l : list A) i n :
  (0 < n)%nat -> (i < length l)%nat -> slice l i (i + n) <> [].
Proof.
  intros Hn Hi E. apply (f_equal (@length _)) in E. unfold slice in E.
  rewrite length_firstn, length_skipn in E. simpl in E. lia.
Qed.

Lemma slice_incl {A} (l : list A) i j : incl (slice l i j) l.
Proof.
  unfold slice. intros x Hx. rewrite <- (firstn_skipn i l).
  apply in_or_app. right. rewrite <- (firstn_skipn (j - i) (skipn i l)).
  apply in_or_app. now left.
Qed.

Lemma flat_map_singleton {A B} (f : A -> B) l :
  flat_map (fun x => [f x]) l = List.map f l.
Proof. induction l; simpl; congruence. Qed.

(** The inner loop appends exactly the joined word groups: the guard
    [if chunk:] never drops a group, because a group is a non-empty
    list of non-empty words. *)
Lemma emit_groups words chunks :
  Forall (fun w => w <> []) words ->
  fold_left (emit_group words) (range0 (length words) WORDS_PER_CHUNK) chunks
  = chunks ++ List.map join_sp (word_groups WORDS_PER_CHUNK words).
Proof.
  intros Hw. assert (Hn : (0 < WORDS_PER_CHUNK)%nat) by (unfold WORDS_PER_CHUNK; lia).
  rewrite word_groups_slices, List.map_map by assumption.
  rewrite <- (flat_map_singleton
                (fun i => join_sp (slice words i (i + WORDS_PER_CHUNK)))).
  apply fold_left_appends with (P := fun i => (i < length words)%nat).
  - intros acc i Hi. unfold emit_group. rewrite join_sp_truthy; [reflexivity| |].
    + now apply slice_nonempty.
    + rewrite List.Forall_forall in *. intros w Hin. apply Hw.
      now apply slice_incl in Hin.
  - apply List.Forall_forall. intros i Hi. now apply range0_in_bounds in Hi.
Qed.

Lemma emit_paragraph_unit chunks p :
  emit_paragraph chunks p = chunks ++ chunk_unit p.
Proof.
  unfold emit_paragraph, chunk_unit.
  destruct (Nat.ltb_spec MAX_PARAGRAPH_LEN (length p)) as [Hlt|Hge];
    destruct (Nat.leb_spec (length p) MAX_PARAGRAPH_LEN); try lia.
  - apply emit_groups, split_ws_nonempty.
  - reflexivity.
Qed.

Lemma emit_page_chunker chunks text :
  emit_page chunks text = chunks ++ chunker text.
Proof.
  unfold emit_page, chunker. rewrite paragraphs_of_units.
  apply fold_left_appends with (P := fun _ => True).
  - intros acc p _. apply emit_paragraph_unit.
  - apply List.Forall_forall. trivial.
Qed.

Lemma process_pdf_chunker pages :
  process_pdf pages = flat_map chunker pages.
Proof.
  unfold process_pdf.
  rewrite (fold_left_appends emit_page chunker (fun _ => True)).
  - reflexivity.
  - intros acc t _. apply emit_page_chunker.
  - apply List.Forall_forall. trivial.
Qed.

(** *** Text made of white space only *)

Lemma lstrip_all_space s : Forall (fun c => isspace c = true) s -> lstrip s = [].
Proof.
  induction 1 as [|c r Hc _ IH]; simpl; [reflexivity|]. now rewrite Hc.
Qed.

Lemma strip_all_space s : Forall (fun c => isspace c = true) s -> strip s = [].
Proof. intros H. unfold strip, rstrip. now rewrite (lstrip_all_space s H). Qed.

Lemma rev_all_space cur :
  Forall (fun c => isspace c = true) cur ->
  Forall (fun c => isspace c = true) (rev cur).
Proof.
  rewrite !List.Forall_forall. intros H x Hx. apply in_rev in Hx. now apply H.
Qed.

Lemma split_nn_from_all_space s :
  Forall (fun c => isspace c = true) s ->
  forall cur, Forall (fun c => isspace c = true) cur ->
  Forall (Forall (fun c => isspace c = true)) (split_nn_from cur s).
Proof.
  remember (length s) as n eqn:En. revert s En.
  induction n as [n IHn] using lt_wf_ind. intros s En Hs cur Hcur.
  destruct s as [|a s1]; simpl.
  - constructor; [now apply rev_all_space|constructor].
  - inversion Hs as [|? ? Ha Hs1]; subst.
    assert (Hacur : Forall (fun c => isspace c = true) (a :: cur))
      by now constructor.
    destruct s1 as [|b s2].
    + simpl. constructor; [|constructor]. now apply (rev_all_space (a :: cur)).
    + destruct ((a =? NL) && (b =? NL))%N.
      * constructor; [now apply rev_all_space|].
        inversion Hs1; subst.
        apply (IHn (length s2)); simpl; auto; lia.
      * apply (IHn (length (b :: s2))); simpl; auto; lia.
Qed.

Lemma units_all_space text :
  Forall (fun c => isspace c = true) text -> units text = [].
Proof.
  intros H. unfold units, split_nn.
  pose proof (split_nn_from_all_space text H [] (List.Forall_nil _)) as Hp.
  induction Hp as [|p l Hp _ IH]; simpl; [reflexivity|].
  now rewrite (strip_all_space p Hp).
Qed.

Lemma chunker_all_space text :
  Forall (fun c => isspace c = true) text -> chunker text = [].
Proof. intros H. unfold chunker. now rewrite units_all_space. Qed.

(** *** No chunk is empty *)

Lemma units_nonempty text : Forall (fun u => u <> []) (units text).
Proof.
  unfold units. apply List.Forall_forall. intros u Hu.
  apply filter_In in Hu. destruct Hu as [_ Hu]. now destruct u.
Qed.

Lemma chunk_unit_nonempty u :
  u <> [] -> Forall (fun c => c <> []) (chunk_unit u).
Proof.
  intros Hu. unfold chunk_unit.
  destruct (length u <=? MAX_PARAGRAPH_LEN)%nat; [now repeat constructor|].
  apply List.Forall_forall. intros c Hc. apply in_map_iff in Hc.
  destruct Hc as (g & <- & Hg).
  assert (Hn : (0 < WORDS_PER_CHUNK)%nat) by (unfold WORDS_PER_CHUNK; lia).
  destruct (groups_fuel_shape WORDS_PER_CHUNK Hn (length (split_ws u))
              (split_ws u) (le_n _)) as [_ Hall].
  rewrite List.Forall_forall in Hall. destruct (Hall g Hg) as (Hne & _ & Hincl).
  intros E. assert (T : truthy (join_sp g) = true).
  { apply join_sp_truthy; [assumption|]. apply List.Forall_forall.
    intros w Hw. pose proof (split_ws_nonempty u) as Hs.
    rewrite List.Forall_forall in Hs. now apply Hs, Hincl. }
  rewrite E in T. discriminate.
Qed.

Lemma chunker_nonempty text : Forall (fun c => c <> []) (chunker text).
Proof.
  unfold chunker. apply List.Forall_forall. intros c Hc.
  apply in_flat_map in Hc. destruct Hc as (u & Hu & Hc).
  pose proof (units_nonempty text) as Hun. rewrite List.Forall_forall in Hun.
  pose proof (chunk_unit_nonempty u (Hun u Hu)) as Hcu.
  rewrite List.Forall_forall in Hcu. now apply Hcu.
Qed.

End ChunkerFacts.

(** ** Properties of the flat index search *)

Module FaissFacts.
Import Faiss FaissSpec.


Lemma cmp2_false a b : cmp2 a b = false -> le2 a b.
Proof.
  unfold cmp2, le2. intros H. apply orb_false_iff in H. destruct H as [H1 H2].
  apply Z.ltb_ge in H1. apply andb_false_iff in H2.
  destruct H2 as [H2|H2]; [apply Z.eqb_neq in H2|apply Z.ltb_ge in H2]; lia.
Qed.

Lemma cmp2_true a b : cmp2 a b = true -> le2 b a.
Proof.
  unfold cmp2, le2. intros H. apply orb_true_iff in H.
  destruct H as [H|H]; [apply Z.ltb_lt in H; lia|].
  apply andb_true_iff in H. destruct H as [H1 H2].
  apply Z.eqb_eq in H1. apply Z.ltb_lt in H2. lia.
Qed.

Lemma le2_refl a : le2 a a.
Proof. unfold le2. lia. Qed.

Lemma le2_trans a b c : le2 a b -> le2 b c -> le2 a c.
Proof. unfold le2. lia. Qed.

Lemma le2_neutral e : fst e < FLT_MAX -> le2 e neutral.
Proof. unfold le2, neutral. simpl. lia. Qed.

Lemma cmp2_neutral e : fst e < FLT_MAX -> cmp2 neutral e = true.
Proof.
  intros H. unfold cmp2, neutral. simpl.
  apply orb_true_iff. left. now apply Z.ltb_lt.
Qed.

(** *** Ordered insertion *)

Lemma heap_insert_In e h x : In x (heap_insert e h) <-> x = e \/ In x h.
Proof.
  induction h as [|y r IH]; simpl.
  - intuition auto.
  - destruct (cmp2 y e); simpl; [intuition auto|]. rewrite IH. intuition auto.
Qed.

Lemma length_heap_insert e h : length (heap_insert e h) = S (length h).
Proof.
  induction h as [|y r IH]; simpl; [reflexivity|].
  destruct (cmp2 y e); simpl; [reflexivity|]. now rewrite IH.
Qed.

Lemma heap_insert_sorted e h :
  StronglySorted le2 h -> StronglySorted le2 (heap_insert e h).
Proof.
  induction 1 as [|y r Hr IH Hy]; simpl.
  - repeat constructor.
  - destruct (cmp2 y e) eqn:E.
    + apply cmp2_true in E. constructor; [now constructor|].
      constructor; [assumption|].
      rewrite List.Forall_forall in *. intros z Hz.
      eapply le2_trans; [exact E|]. now apply Hy.
    + apply cmp2_false in E. constructor; [assumption|].
      apply List.Forall_forall. intros z Hz. apply heap_insert_In in Hz.
      destruct Hz as [->|Hz]; [assumption|].
      rewrite List.Forall_forall in Hy. now apply Hy.
Qed.

Lemma heap_insert_before_neutral e vs m :
  fst e < FLT_MAX ->
  heap_insert e (vs ++ repeat neutral m) = heap_insert e vs ++ repeat neutral m.
Proof.
  intros He. induction vs as [|y r IH]; simpl.
  - destruct m; simpl; [reflexivity|]. now rewrite cmp2_neutral.
  - destruct (cmp2 y e); simpl; [reflexivity|]. now rewrite IH.
Qed.

(** *** The last slot *)

Lemma repeat_snoc {A} (x : A) m : repeat x (S m) = repeat x m ++ [x].
Proof. induction m as [|m IH]; simpl in *; [reflexivity|]. now rewrite <- IH. Qed.

Lemma heap_top_padded vs m : heap_top (vs ++ repeat neutral (S m)) = neutral.
Proof.
  unfold heap_top. rewrite repeat_snoc, app_assoc. apply last_last.
Qed.

Lemma removelast_padded vs m :
  removelast (vs ++ repeat neutral (S m)) = vs ++ repeat neutral m.
Proof. rewrite repeat_snoc, app_assoc. apply removelast_last. Qed.

Lemma sorted_le_top h :
  StronglySorted le2 h -> Forall (fun e => le2 e (heap_top h)) h.
Proof.
  unfold heap_top. induction 1 as [|y r Hr IH Hy]; [constructor|].
  destruct r as [|z r'].
  - constructor; [apply le2_refl|constructor].
  - change (List.last (y :: z :: r') neutral) with (List.last (z :: r') neutral).
    constructor; [|exact IH].
    rewrite List.Forall_forall in Hy, IH.
    eapply le2_trans; [apply (Hy z); now left|]. apply IH. now left.
Qed.

Lemma sorted_removelast h :
  StronglySorted le2 h -> StronglySorted le2 (removelast h).
Proof.
  induction 1 as [|y r Hr IH Hy]; [constructor|].
  destruct r as [|z r']; [constructor|].
  change (removelast (y :: z :: r')) with (y :: removelast (z :: r')).
  constructor; [exact IH|].
  rewrite List.Forall_forall in *. intros x Hx. apply Hy.
  assert (Hne : z :: r' <> []) by discriminate.
  rewrite (app_removelast_last neutral Hne). apply in_or_app. now left.
Qed.


Section Scan.

Variable k : nat.
Hypothesis k_positive : (0 < k)%nat.


Lemma scan_inv_start : scan_inv k 0 [] [] k.
Proof.
  unfold scan_inv. simpl. repeat split; try constructor; try contradiction; lia.
Qed.

Lemma filter_snoc {A} (f : A -> bool) l x :
  List.filter f (l ++ [x]) = List.filter f l ++ (if f x then [x] else []).
Proof. rewrite List.filter_app. reflexivity. Qed.

Lemma Forall_le2_padded vs m c :
  (forall e, In e vs -> le2 e c) -> le2 neutral c ->
  Forall (fun e => le2 e c) (vs ++ repeat neutral m).
Proof.
  intros Hvs Hn. apply List.Forall_forall. intros e He.
  apply in_app_or in He. destruct He as [He|He]; [now apply Hvs|].
  apply repeat_spec in He. now subst.
Qed.

Lemma labels_snoc j (seen : list entry) (c : entry) :
  0 <= j -> (forall x, In x seen -> 0 <= snd x < j) -> snd c = j ->
  forall x, In x (seen ++ [c]) -> 0 <= snd x < j + 1.
Proof.
  intros Hj Hlab Hc x Hx. apply in_app_or in Hx.
  destruct Hx as [Hx|[<-|[]]]; [|lia]. specialize (Hlab x Hx). lia.
Qed.

(** A free slot takes an eligible candidate. *)
Lemma scan_step_fill j seen vs m c :
  scan_inv k j seen vs (S m) -> snd c = j -> fst c < FLT_MAX ->
  add_result (vs ++ repeat neutral (S m)) c
    = heap_insert c vs ++ repeat neutral m
  /\ scan_inv k (j + 1) (seen ++ [c]) (heap_insert c vs) m.
Proof.
  intros (Hj & Hlen & Hsort & Hin & Hlab & Hopt & Hcnt) Hc He.
  split.
  - unfold add_result, heap_replace_top, cmp.
    rewrite heap_top_padded. change (fst neutral) with FLT_MAX.
    apply Z.ltb_lt in He. rewrite He. apply Z.ltb_lt in He.
    rewrite removelast_padded. now apply heap_insert_before_neutral.
  - unfold scan_inv. split; [lia|]. split; [rewrite length_heap_insert; lia|].
    split; [now apply heap_insert_sorted|].
    split; [|split; [now apply labels_snoc|split]].
    + intros e H. apply heap_insert_In in H. destruct H as [->|H].
      * split; [apply in_or_app; right; now left|assumption].
      * destruct (Hin e H). split; [apply in_or_app; now left|assumption].
    + intros x Hx. apply in_app_or in Hx. destruct Hx as [Hx|[<-|[]]].
      * destruct (Hopt x Hx) as [Hv|Hall].
        -- left. apply heap_insert_In. now right.
        -- right. rewrite List.Forall_forall in Hall.
           assert (Hn : le2 neutral x).
           { apply Hall. apply in_or_app. right. now left. }
           apply Forall_le2_padded; [|assumption].
           intros e Hin'. apply heap_insert_In in Hin'.
           destruct Hin' as [->|Hin'].
           ++ eapply le2_trans; [now apply le2_neutral|exact Hn].
           ++ apply Hall. apply in_or_app. now left.
      * left. apply heap_insert_In. now left.
    + rewrite length_heap_insert, filter_snoc, length_app.
      unfold eligible at 2. apply Z.ltb_lt in He. rewrite He. simpl. lia.
Qed.

(** A candidate that is not below [FLT_MAX] never enters a heap that
    still has a free slot. *)
Lemma scan_step_overflow j seen vs m c :
  scan_inv k j seen vs (S m) -> snd c = j -> FLT_MAX <= fst c ->
  add_result (vs ++ repeat neutral (S m)) c = vs ++ repeat neutral (S m)
  /\ scan_inv k (j + 1) (seen ++ [c]) vs (S m).
Proof.
  intros (Hj & Hlen & Hsort & Hin & Hlab & Hopt & Hcnt) Hc He.
  split.
  - unfold add_result, cmp. rewrite heap_top_padded.
    change (fst neutral) with FLT_MAX.
    apply Z.ltb_ge in He. now rewrite He.
  - unfold scan_inv. split; [lia|]. split; [exact Hlen|].
    split; [exact Hsort|].
    split; [|split; [now apply labels_snoc|split]].
    + intros e H. destruct (Hin e H).
      split; [apply in_or_app; now left|assumption].
    + intros x Hx. apply in_app_or in Hx. destruct Hx as [Hx|[<-|[]]].
      * apply (Hopt x Hx).
      * right. apply Forall_le2_padded.
        -- intros e Hin'. left. destruct (Hin e Hin'). lia.
        -- unfold le2, neutral. simpl. lia.
    + rewrite filter_snoc. unfold eligible at 2.
      apply Z.ltb_ge in He. rewrite He. now rewrite app_nil_r.
Qed.

Lemma full_heap_split vs :
  (length vs = k)%nat -> vs = removelast vs ++ [heap_top vs] /\ In (heap_top vs) vs.
Proof.
  intros Hlen. assert (Hne : vs <> []) by (destruct vs; simpl in *; [lia|discriminate]).
  pose proof (app_removelast_last neutral Hne) as E. split; [exact E|].
  rewrite E at 2. apply in_or_app. right. now left.
Qed.

(** A full heap gives up its top for a strictly closer candidate. *)
Lemma scan_step_replace j seen vs c :
  scan_inv k j seen vs 0 -> snd c = j -> fst c < fst (heap_top vs) ->
  add_result (vs ++ repeat neutral 0) c
    = heap_insert c (removelast vs) ++ repeat neutral 0
  /\ scan_inv k (j + 1) (seen ++ [c]) (heap_insert c (removelast vs)) 0.
Proof.
  intros (Hj & Hlen & Hsort & Hin & Hlab & Hopt & Hcnt) Hc He.
  simpl repeat. rewrite !app_nil_r. rewrite Nat.add_0_r in Hlen.
  destruct (full_heap_split vs Hlen) as [Esplit Htop].
  pose proof (sorted_le_top vs Hsort) as Hmax. rewrite List.Forall_forall in Hmax.
  assert (Hsub : forall e, In e (removelast vs) -> In e vs).
  { intros e H. rewrite Esplit. apply in_or_app. now left. }
  assert (Hlr : length (removelast vs) = (k - 1)%nat).
  { apply (f_equal (@length _)) in Esplit. rewrite length_app in Esplit.
    simpl in Esplit. lia. }
  split.
  - unfold add_result, heap_replace_top, cmp.
    apply Z.ltb_lt in He. now rewrite He.
  - unfold scan_inv. split; [lia|]. split; [rewrite length_heap_insert; lia|].
    split; [now apply heap_insert_sorted, sorted_removelast|].
    split; [|split; [|split]].
    + intros e H. apply heap_insert_In in H. destruct H as [->|H].
      * split; [apply in_or_app; right; now left|].
        destruct (Hin _ Htop). lia.
      * destruct (Hin e (Hsub e H)). split; [apply in_or_app; now left|assumption].
    + now apply labels_snoc.
    + intros x Hx. rewrite app_nil_r.
      apply in_app_or in Hx. destruct Hx as [Hx|[<-|[]]];
        [|left; apply heap_insert_In; now left].
      assert (Hbelow : (forall e, In e vs -> le2 e x) ->
                Forall (fun e => le2 e x) (heap_insert c (removelast vs))).
      { intros Hall. apply List.Forall_forall. intros e H.
        apply heap_insert_In in H. destruct H as [->|H]; [|now apply Hall, Hsub].
        specialize (Hall _ Htop). unfold le2 in *. lia. }
      destruct (Hopt x Hx) as [Hv|Hall].
      * rewrite Esplit in Hv. apply in_app_or in Hv.
        destruct Hv as [Hv|[<-|[]]].
        -- left. apply heap_insert_In. now right.
        -- right. apply Hbelow. exact Hmax.
      * right. apply Hbelow. rewrite app_nil_r in Hall.
        now rewrite List.Forall_forall in Hall.
    + rewrite length_heap_insert, filter_snoc, length_app.
      destruct (eligible c); simpl; lia.
Qed.

(** A full heap ignores a candidate that is not strictly closer than
    its top: on equal distances the earlier label stays. *)
Lemma scan_step_keep j seen vs c :
  scan_inv k j seen vs 0 -> snd c = j -> fst (heap_top vs) <= fst c ->
  add_result (vs ++ repeat neutral 0) c = vs ++ repeat neutral 0
  /\ scan_inv k (j + 1) (seen ++ [c]) vs 0.
Proof.
  intros (Hj & Hlen & Hsort & Hin & Hlab & Hopt & Hcnt) Hc He.
  simpl repeat. rewrite !app_nil_r. rewrite Nat.add_0_r in Hlen.
  destruct (full_heap_split vs Hlen) as [Esplit Htop].
  pose proof (sorted_le_top vs Hsort) as Hmax. rewrite List.Forall_forall in Hmax.
  split.
  - unfold add_result, cmp. apply Z.ltb_ge in He. now rewrite He.
  - unfold scan_inv. split; [lia|]. split; [lia|]. split; [assumption|].
    split; [|split; [|split]].
    + intros e H. destruct (Hin e H). split; [apply in_or_app; now left|assumption].
    + now apply labels_snoc.
    + intros x Hx. apply in_app_or in Hx. destruct Hx as [Hx|[<-|[]]].
      * apply (Hopt x Hx).
      * right. rewrite app_nil_r. apply List.Forall_forall. intros e H.
        apply (le2_trans _ (heap_top vs)); [now apply Hmax|].
        destruct (Hin _ Htop) as [Hseen _]. specialize (Hlab _ Hseen).
        unfold le2. lia.
    + rewrite filter_snoc, length_app. destruct (eligible c); simpl; lia.
Qed.

(** One step of the scan, whatever the case. *)
Lemma scan_step j seen vs m c :
  scan_inv k j seen vs m -> snd c = j ->
  exists vs' m',
    add_result (vs ++ repeat neutral m) c = vs' ++ repeat neutral m'
    /\ scan_inv k (j + 1) (seen ++ [c]) vs' m'.
Proof.
  intros Hinv Hc. destruct m as [|m].
  - destruct (Z_lt_le_dec (fst c) (fst (heap_top vs))) as [Hlt|Hle].
    + eexists _, _. now apply scan_step_replace.
    + eexists _, _. now apply scan_step_keep.
  - destruct (Z_lt_le_dec (fst c) FLT_MAX) as [Hlt|Hle].
    + eexists _, _. now apply scan_step_fill.
    + eexists _, _. now apply scan_step_overflow.
Qed.

Lemma scan_fold cands :
  forall j seen vs m,
    scan_inv k j seen vs m -> consecutive j cands ->
    exists vs' m',
      fold_left add_result cands (vs ++ repeat neutral m)
        = vs' ++ repeat neutral m'
      /\ scan_inv k (j + Z.of_nat (length cands)) (seen ++ cands) vs' m'.
Proof.
  induction cands as [|c r IH]; intros j seen vs m Hinv Hcons.
  - exists vs, m. simpl. rewrite app_nil_r, Z.add_0_r. auto.
  - destruct Hcons as [Hc Hr].
    destruct (scan_step j seen vs m c Hinv Hc) as (vs1 & m1 & E1 & Hinv1).
    destruct (IH _ _ _ _ Hinv1 Hr) as (vs2 & m2 & E2 & Hinv2).
    exists vs2, m2. split.
    + simpl. now rewrite E1.
    + replace (j + Z.of_nat (length (c :: r)))
        with (j + 1 + Z.of_nat (length r)) by (simpl length; lia).
      now rewrite (app_assoc seen [c] r : seen ++ c :: r = (seen ++ [c]) ++ r).
Qed.

End Scan.

(** *** The scan of a store *)


Lemma labelled_from_consecutive q vs :
  forall s, consecutive (Z.of_nat s) (labelled_from s q vs).
Proof.
  induction vs as [|v r IH]; intros s; simpl; [exact I|].
  split; [reflexivity|]. replace (Z.of_nat s + 1) with (Z.of_nat (S s)) by lia.
  apply IH.
Qed.

Lemma labelled_from_In q vs e :
  forall s, In e (labelled_from s q vs) ->
  exists i v, nth_error vs i = Some v
              /\ e = (fvec_L2sqr q v, Z.of_nat (s + i)).
Proof.
  induction vs as [|v r IH]; intros s H; simpl in H; [contradiction|].
  destruct H as [<-|H].
  - exists 0%nat, v. split; [reflexivity|]. now rewrite Nat.add_0_r.
  - destruct (IH (S s) H) as (i & v' & Hn & ->).
    exists (S i), v'. split; [exact Hn|]. f_equal. f_equal. lia.
Qed.

Lemma In_labelled_from q vs i v :
  forall s, nth_error vs i = Some v ->
  In (fvec_L2sqr q v, Z.of_nat (s + i)) (labelled_from s q vs).
Proof.
  revert i. induction vs as [|v0 r IH]; intros i s H.
  - destruct i; discriminate.
  - destruct i as [|i]; simpl in H.
    + injection H as ->. left. simpl. now rewrite Nat.add_0_r.
    + right. replace (s + S i)%nat with (S s + i)%nat by lia.
      now apply (IH i (S s)).
Qed.

Lemma length_labelled q vs : length (labelled q vs) = length vs.
Proof.
  unfold labelled. rewrite length_map, length_combine, length_seq. lia.
Qed.

(** The shape of every result: the kept candidates in ascending order,
    then the slots that were never filled. *)
Lemma knn_scan q vs k :
  (0 < k)%nat ->
  exists kept m,
    knn_L2sqr q vs k = kept ++ repeat neutral m
    /\ scan_inv k (Z.of_nat (length vs)) (labelled q vs) kept m.
Proof.
  intros Hk.
  destruct (scan_fold k Hk (labelled q vs) 0 [] [] k (scan_inv_start k Hk))
    as (kept & m & E & Hinv).
  - apply (labelled_from_consecutive q vs 0).
  - exists kept, m. split; [exact E|].
    now rewrite length_labelled in Hinv.
Qed.

Lemma eligible_all q vs :
  Forall (fun v => fvec_L2sqr q v < FLT_MAX) vs ->
  List.filter eligible (labelled q vs) = labelled q vs.
Proof.
  intros Hall. apply forallb_filter_id. apply forallb_forall. intros e He.
  destruct (labelled_from_In q vs e 0 He) as (i & v & Hn & ->).
  unfold eligible. simpl. apply Z.ltb_lt.
  rewrite List.Forall_forall in Hall. apply Hall. eapply nth_error_In, Hn.
Qed.

Lemma sorted_padded kept m :
  StronglySorted le2 kept -> (forall e, In e kept -> fst e < FLT_MAX) ->
  StronglySorted le2 (kept ++ repeat neutral m).
Proof.
  intros Hs Hlt. induction Hs as [|y r Hr IH Hy]; simpl.
  - induction m as [|m IHm]; simpl; constructor; [exact IHm|].
    apply List.Forall_forall. intros e He. apply repeat_spec in He. subst.
    apply le2_refl.
  - constructor.
    + apply IH. intros e He. apply Hlt. now right.
    + apply List.Forall_forall. intros e He. apply in_app_or in He.
      destruct He as [He|He].
      * rewrite List.Forall_forall in Hy. now apply Hy.
      * apply repeat_spec in He. subst. apply le2_neutral, Hlt. now left.
Qed.

Lemma le2_distances r :
  StronglySorted le2 r -> StronglySorted Z.le (List.map fst r).
Proof.
  induction 1 as [|y r Hr IH Hy]; simpl; constructor; [exact IH|].
  apply List.Forall_forall. intros z Hz. apply in_map_iff in Hz.
  destruct Hz as (e & <- & He). rewrite List.Forall_forall in Hy.
  specialize (Hy e He). unfold le2 in Hy. lia.
Qed.

End FaissFacts.


Module WorldFacts.
Import Py.

Lemma bind_ok {S A B} (c : M S A) (k : A -> M S B) s s' v :
  c s = (s', OK v) -> bind c k s = k v s'.
Proof. unfold bind. now intros ->. Qed.

Lemma bind_raise {S A B} (c : M S A) (k : A -> M S B) s s' e :
  c s = (s', Raise e) -> bind c k s = (s', Raise e).
Proof. unfold bind. now intros ->. Qed.

Lemma set_index_same w : FAISSIndexM.set_index (index (self_index w)) w = w.
Proof. now destruct w as [[? ? ?] ?]. Qed.

(** [add_vectors] in closed form. *)
Lemma add_vectors_matrix w xd rows cs :
  FAISSIndexM.add_vectors (Arr2 xd rows) cs w =
  if (xd =? Faiss.d (index (self_index w)))%nat
  then ({| self_index :=
             {| dimension := dimension (self_index w);
                index := {| Faiss.d := Faiss.d (index (self_index w));
                            Faiss.xb := Faiss.xb (index (self_index w)) ++ rows |};
                chunks := chunks (self_index w) ++ cs |};
           fs := fs w |}, OK tt)
  else (w, Raise AssertionError).
Proof.
  unfold FAISSIndexM.add_vectors, FAISSIndexM.index_add, Faiss.add, bind, get,
    py_assert, modify, ret, raise.
  destruct (xd =? Faiss.d (index (self_index w)))%nat; simpl.
  - reflexivity.
  - now rewrite set_index_same.
Qed.

Lemma add_vectors_vector w data cs :
  FAISSIndexM.add_vectors (Arr1 data) cs w = (w, Raise ValueError).
Proof.
  unfold FAISSIndexM.add_vectors, FAISSIndexM.index_add, Faiss.add, bind,
    raise. simpl. now rewrite set_index_same.
Qed.

(** [load] in closed form. *)
Lemma load_cases index_file chunks_file w :
  FAISSIndexM.load index_file chunks_file w =
  match fs w !! index_file with
  | None => (w, Raise (RuntimeError CouldNotOpen))
  | Some (ChunksFile _) => (w, Raise (RuntimeError NotAnIndex))
  | Some (IndexFile ix) =>
      match fs w !! chunks_file with
      | None => (FAISSIndexM.set_index ix w, Raise FileNotFoundError)
      | Some (IndexFile _) => (FAISSIndexM.set_index ix w, Raise ValueError)
      | Some (ChunksFile cs) =>
          ({| self_index := {| dimension := dimension (self_index w);
                               index := ix; chunks := cs |};
              fs := fs w |}, OK tt)
      end
  end.
Proof.
  unfold FAISSIndexM.load, FAISSIndexM.read_index, FAISSIndexM.json_load,
    bind, get, modify, ret, raise.
  destruct (fs w !! index_file) as [[ix|cs]|]; simpl; try reflexivity.
  destruct (fs w !! chunks_file) as [[ix'|cs]|]; reflexivity.
Qed.

(** [clear_index] in closed form. *)
Lemma clear_index_eq w :
  RAGModelM.clear_index w =
  ({| self_index := FAISSIndexM.init RAGModelM.DEFAULT_DIMENSION;
      fs := delete RAGModelM.chunks_file
              (delete RAGModelM.index_file (fs w)) |}, OK tt).
Proof.
  unfold RAGModelM.clear_index, RAGModelM.path_exists, RAGModelM.remove,
    bind, get, modify, ret, raise. simpl.
  destruct (fs w !! RAGModelM.index_file) as [f1|] eqn:E1; simpl.
  - rewrite E1. simpl.
    destruct (delete RAGModelM.index_file (fs w) !! RAGModelM.chunks_file)
      as [f2|] eqn:E2; simpl.
    + now rewrite E2.
    + now rewrite (delete_id _ _ E2).
  - rewrite (delete_id _ _ E1).
    destruct (fs w !! RAGModelM.chunks_file) as [f2|] eqn:E2; simpl.
    + now rewrite E2.
    + now rewrite (delete_id _ _ E2).
Qed.

End WorldFacts.

(** ** The invariant and the mutating operations *)

Section AlignmentTheorems.
Import Py Alignment WorldFacts.

Variable R : list Z -> str -> Prop.

Lemma run_op_aligned o w :
  aligned R (self_index w) -> op_pre R o w ->
  aligned R (self_index (run_op o w)).
Proof.
  unfold aligned. intros Hal Hpre.
  destruct o as [[data|xd rows] cs|p1 p2|]; unfold run_op.
  - now rewrite add_vectors_vector.
  - rewrite add_vectors_matrix.
    destruct (xd =? Faiss.d (index (self_index w)))%nat; simpl; [|exact Hal].
    now apply List.Forall2_app.
  - rewrite load_cases. simpl in Hpre.
    destruct (fs w !! p1) as [[ix|cs0]|]; simpl; try exact Hal.
    destruct Hpre as (cs & -> & Hcs). exact Hcs.
  - rewrite clear_index_eq. simpl. constructor.
Qed.

(** C1 (as amended).  The alignment of vectors and chunks, position by
    position and hence in length, is kept by every sequence of
    [add_vectors], [load] and [clear_index] calls in which every
    [add_vectors] receives corresponding vectors and chunks and every
    [load] reads an index file together with a chunks file that
    corresponds to it.  The code itself checks neither. *)
Theorem alignment_kept_by_matching_calls (ops : list Alignment.op) (w : world) :
  aligned R (self_index w) -> ops_pre R ops w ->
  aligned R (self_index (run_ops ops w)).
Proof.
  revert w. induction ops as [|o r IH]; intros w Hal Hpre; simpl.
  - exact Hal.
  - destruct Hpre as [Ho Hr]. apply IH; [|exact Hr].
    now apply run_op_aligned.
Qed.

End AlignmentTheorems.

Lemma alignment_kept_witness :
  Alignment.aligned (fun v c => length v = length c)
    (self_index
       (Alignment.run_ops
          [Alignment.OpAdd (Arr2 1 [[7]; [1]]) [Py.lit "a"; Py.lit "b"];
           Alignment.OpClear;
           Alignment.OpAdd (Arr2 384 []) []]
          (Demo.world1 [[3]] [Py.lit "c"]))).
Proof.
  apply (alignment_kept_by_matching_calls (fun v c => length v = length c)).
  - unfold Alignment.aligned. simpl. repeat constructor.
  - simpl. repeat constructor.
Defined.

(** C1 (as stated) fails: [add_vectors] with one vector and no chunk,
    and [load] of an index file of one vector with a chunks file of no
    chunk, both succeed and leave one vector and no chunk. *)
Lemma alignment_broken_by_unchecked_calls :
  (Faiss.ntotal (index (self_index
     (Alignment.run_ops [Alignment.OpAdd (Arr2 1 [[7]]) []]
        (Demo.world1 [] [])))) = 1%nat
   /\ length (chunks (self_index
        (Alignment.run_ops [Alignment.OpAdd (Arr2 1 [[7]]) []]
           (Demo.world1 [] [])))) = 0%nat)
  /\ (Faiss.ntotal (index (self_index
        (Alignment.run_ops [Alignment.OpLoad "i" "c"]
           {| self_index := FAISSIndexM.init 1;
              fs := Demo.mismatched_disk |}))) = 1%nat
      /\ length (chunks (self_index
           (Alignment.run_ops [Alignment.OpLoad "i" "c"]
              {| self_index := FAISSIndexM.init 1;
                 fs := Demo.mismatched_disk |}))) = 0%nat).
Proof. vm_compute. auto. Qed.

(** ** [add_vectors] *)

Lemma combine_app_same {A B} (l1 l2 : list A) (r1 r2 : list B) :
  length l1 = length r1 ->
  combine (l1 ++ l2) (r1 ++ r2) = combine l1 r1 ++ combine l2 r2.
Proof.
  revert r1. induction l1 as [|a l1 IH]; intros [|b r1] H; simpl in *;
    try discriminate; [reflexivity|].
  f_equal. apply IH. lia.
Qed.

(** C2 (as amended).  [add_vectors] fails, with the assertion of faiss
    and without any change, exactly when the width of the array differs
    from the dimension of the index.  It never compares the number of
    vectors with the number of chunks: when the width agrees it
    succeeds and appends all the vectors and all the chunks at the end
    of their collections, in lock-step when there are as many of
    each. *)
Theorem add_vectors_checks_width_only (w : world) (xd : nat)
    (rows : list (list Z)) (cs : list Py.str) :
  (xd <> Faiss.d (index (self_index w)) ->
   FAISSIndexM.add_vectors (Arr2 xd rows) cs w = (w, Raise AssertionError))
  /\ (xd = Faiss.d (index (self_index w)) ->
      exists w',
        FAISSIndexM.add_vectors (Arr2 xd rows) cs w = (w', OK tt)
        /\ Faiss.xb (index (self_index w'))
           = Faiss.xb (index (self_index w)) ++ rows
        /\ chunks (self_index w') = chunks (self_index w) ++ cs
        /\ Faiss.d (index (self_index w')) = Faiss.d (index (self_index w))
        /\ fs w' = fs w
        /\ (Faiss.ntotal (index (self_index w)) = length (chunks (self_index w)) ->
            length rows = length cs ->
            combine (Faiss.xb (index (self_index w'))) (chunks (self_index w'))
            = combine (Faiss.xb (index (self_index w))) (chunks (self_index w))
              ++ combine rows cs)).
Proof.
  rewrite WorldFacts.add_vectors_matrix. split; intros Hd.
  - apply Nat.eqb_neq in Hd. now rewrite Hd.
  - apply Nat.eqb_eq in Hd. rewrite Hd. eexists. split; [reflexivity|].
    simpl. repeat split. intros Hal _. now apply combine_app_same.
Qed.

Lemma add_vectors_checks_width_only_witness :
  FAISSIndexM.add_vectors (Arr2 2 [[1; 2]]) [Py.lit "a"] (Demo.world1 [] [])
    = (Demo.world1 [] [], Raise AssertionError)
  /\ exists w',
       FAISSIndexM.add_vectors (Arr2 1 [[4]; [9]]) [Py.lit "b"; Py.lit "c"]
         (Demo.world1 [[7]] [Py.lit "a"]) = (w', OK tt)
       /\ combine (Faiss.xb (index (self_index w'))) (chunks (self_index w'))
          = [([7], Py.lit "a"); ([4], Py.lit "b"); ([9], Py.lit "c")].
Proof.
  split.
  - apply (add_vectors_checks_width_only (Demo.world1 [] []) 2 [[1; 2]]
             [Py.lit "a"]). simpl. lia.
  - destruct (add_vectors_checks_width_only (Demo.world1 [[7]] [Py.lit "a"]) 1
                [[4]; [9]] [Py.lit "b"; Py.lit "c"]) as [_ H].
    destruct (H eq_refl) as (w' & E & _ & _ & _ & _ & Hc).
    exists w'. split; [exact E|]. apply Hc; reflexivity.
Defined.

(** C2 (as stated) fails: two vectors with one chunk are accepted. *)
Lemma add_vectors_accepts_length_mismatch :
  snd (FAISSIndexM.add_vectors (Arr2 1 [[1]; [2]]) [Py.lit "a"]
         (Demo.world1 [] [])) = OK tt
  /\ ndarray_len (Arr2 1 [[1]; [2]]) <> length [Py.lit "a"].
Proof. split; [reflexivity|discriminate]. Qed.

(** ** Persistence *)

Lemma save_eq index_file chunks_file w :
  FAISSIndexM.save index_file chunks_file w =
  ({| self_index := self_index w;
      fs := <[chunks_file := ChunksFile (chunks (self_index w))]>
              (<[index_file := IndexFile (index (self_index w))]> (fs w)) |},
   OK tt).
Proof. reflexivity. Qed.

Module JsonFacts.
Import Json.

Lemma reread_no_pair s : no_pair s = true -> reread s = s.
Proof.
  induction s as [|h t IH]; [reflexivity|]. destruct t as [|l r]; [reflexivity|].
  change (no_pair (h :: l :: r))
    with (negb (is_high h && is_low l) && no_pair (l :: r)).
  change (reread (h :: l :: r))
    with (if is_high h && is_low l then join h l :: reread r
          else h :: reread (l :: r)).
  intros H. apply andb_true_iff in H. destruct H as [H1 H2].
  apply negb_true_iff in H1. rewrite H1. f_equal. now apply IH.
Qed.

Lemma map_reread_no_pair cs :
  Forall (fun c => no_pair c = true) cs -> List.map reread cs = cs.
Proof.
  induction 1 as [|c cs Hc _ IH]; cbn [List.map]; [reflexivity|].
  now rewrite reread_no_pair, IH.
Qed.

(** Reading back joins a pair, so the string gets shorter. *)
Lemma reread_pair h l r :
  is_high h = true -> is_low l = true ->
  reread (h :: l :: r) = join h l :: reread r.
Proof.
  intros Hh Hl.
  change (reread (h :: l :: r))
    with (if is_high h && is_low l then join h l :: reread r
          else h :: reread (l :: r)).
  now rewrite Hh, Hl.
Qed.

End JsonFacts.

(** [save_with] in closed form. *)
Lemma save_with_cases open_w index_file chunks_file w :
  FAISSIndexM.save_with open_w index_file chunks_file w =
  match open_w index_file with
  | Raise _ => (w, Raise (RuntimeError CouldNotOpen))
  | OK _ =>
      let w1 := FAISSIndexM.write_file index_file
                  (IndexFile (index (self_index w))) w in
      match open_w chunks_file with
      | Raise e => (w1, Raise e)
      | OK _ =>
          (FAISSIndexM.write_file chunks_file
             (ChunksFile (List.map Json.reread (chunks (self_index w)))) w1,
           OK tt)
      end
  end.
Proof.
  unfold FAISSIndexM.save_with, bind, lift, modify, raise.
  destruct (open_w index_file); [|reflexivity].
  destruct (open_w chunks_file); reflexivity.
Qed.

(** [save] is [save_with] where both locations open and no chunk holds
    a surrogate pair. *)
Lemma save_with_granted index_file chunks_file w :
  Forall (fun c => Json.no_pair c = true) (chunks (self_index w)) ->
  FAISSIndexM.save_with (fun _ => OK tt) index_file chunks_file w
  = FAISSIndexM.save index_file chunks_file w.
Proof.
  intros H. rewrite save_with_cases, save_eq. cbn zeta.
  unfold FAISSIndexM.write_file. cbn [self_index fs].
  now rewrite JsonFacts.map_reread_no_pair.
Qed.

(** C5 (as amended).  [save] returns normally exactly when both
    locations open for writing.  When it does, for two distinct
    locations, loading them into a fresh index succeeds and gives back
    the same vectors, in the same order and exactly (so within any
    tolerance), and the chunks as [json] reads them back: each chunk
    is the one saved, except that a high surrogate followed by a low
    surrogate in it has become the one code point that they encode.
    The chunks are the same when no chunk holds such a pair. *)
Theorem save_load_roundtrip (open_w : string -> outcome unit) (w : world)
    (index_file chunks_file : string) (dim : nat) :
  index_file <> chunks_file ->
  ((exists w1,
       FAISSIndexM.save_with open_w index_file chunks_file w = (w1, OK tt))
   <-> open_w index_file = OK tt /\ open_w chunks_file = OK tt)
  /\ (forall w1,
        FAISSIndexM.save_with open_w index_file chunks_file w = (w1, OK tt) ->
        self_index w1 = self_index w
        /\ exists w2,
             FAISSIndexM.load index_file chunks_file
               {| self_index := FAISSIndexM.init dim; fs := fs w1 |}
             = (w2, OK tt)
             /\ index (self_index w2) = index (self_index w)
             /\ chunks (self_index w2)
                = List.map Json.reread (chunks (self_index w))
             /\ (Forall (fun c => Json.no_pair c = true)
                        (chunks (self_index w)) ->
                 chunks (self_index w2) = chunks (self_index w))).
Proof.
  intros Hne. rewrite save_with_cases.
  destruct (open_w index_file) as [[]|e1], (open_w chunks_file) as [[]|e2];
    cbn zeta; (split; [split|]).
  all: try (intros [w1 H]; discriminate).
  all: try (intros [H1 H2]; discriminate).
  all: try (intros w1 H; discriminate).
  - intros _. now split.
  - intros _. eexists. reflexivity.
  - intros w1 H. injection H as <-. split; [reflexivity|].
    rewrite WorldFacts.load_cases. cbn [fs FAISSIndexM.write_file].
    rewrite lookup_insert_ne by congruence. rewrite lookup_insert_eq.
    rewrite lookup_insert_eq. eexists. split; [reflexivity|].
    cbn [self_index FAISSIndexM.set_chunks FAISSIndexM.set_index index chunks].
    split; [reflexivity|]. split; [reflexivity|].
    apply JsonFacts.map_reread_no_pair.
Qed.

Lemma save_load_roundtrip_witness :
  exists w2,
    FAISSIndexM.load "data/faiss.index" "data/chunks.json"
      {| self_index := FAISSIndexM.init 384;
         fs := fs (fst (FAISSIndexM.save_with Demo32.open_under_data
                          "data/faiss.index" "data/chunks.json"
                          (Demo.world1 [[7]; [1]] [Py.lit "a"; Py.lit "b"]))) |}
    = (w2, OK tt)
    /\ index (self_index w2) = {| Faiss.d := 1; Faiss.xb := [[7]; [1]] |}
    /\ chunks (self_index w2) = [Py.lit "a"; Py.lit "b"].
Proof.
  destruct (save_load_roundtrip Demo32.open_under_data
              (Demo.world1 [[7]; [1]] [Py.lit "a"; Py.lit "b"])
              "data/faiss.index" "data/chunks.json" 384 ltac:(discriminate))
    as [_ H].
  destruct (H _ eq_refl) as (_ & w2 & E & Hi & _ & Hc).
  exists w2. split; [exact E|]. split; [exact Hi|].
  apply Hc. repeat constructor.
Defined.

(** C5 (as stated) fails: a chunk that holds the two surrogates
    [0xD83D] and [0xDE00] is saved without error and loaded as the one
    code point [0x1F600]. *)
Lemma roundtrip_joins_surrogates :
  let w := Demo.world1 [[7]] [Demo32.surrogate_pair] in
  let saved := FAISSIndexM.save_with Demo32.open_under_data
                 "data/faiss.index" "data/chunks.json" w in
  let loaded := FAISSIndexM.load "data/faiss.index" "data/chunks.json"
                  {| self_index := FAISSIndexM.init 1; fs := fs (fst saved) |} in
  snd saved = OK tt
  /\ snd loaded = OK tt
  /\ chunks (self_index w) = [[55357%N; 56832%N]]
  /\ chunks (self_index (fst loaded)) = [[128512%N]]
  /\ chunks (self_index (fst loaded)) <> chunks (self_index w).
Proof. vm_compute. repeat split. discriminate. Qed.

(** On a disk without the directory of the index file [save] raises
    the [RuntimeError] of faiss and writes nothing. *)
Lemma save_needs_the_directory :
  FAISSIndexM.save_with Demo32.open_under_data "nodir/i" "c"
    (Demo.world1 [[7]] [Py.lit "a"])
  = (Demo.world1 [[7]] [Py.lit "a"], Raise (RuntimeError CouldNotOpen)).
Proof. reflexivity. Qed.


(** C6 (as amended).  [load] fails when the index file is missing (the
    [RuntimeError] of faiss for a file it cannot open, nothing
    changed) and when the index file is there but the chunks file is
    missing ([FileNotFoundError]).  When both are there it succeeds and
    installs their contents, whatever the two counts are. *)
Theorem load_outcomes (w : world) (index_file chunks_file : string) :
  (fs w !! index_file = None ->
   FAISSIndexM.load index_file chunks_file w
   = (w, Raise (RuntimeError CouldNotOpen)))
  /\ (forall ix, fs w !! index_file = Some (IndexFile ix) ->
        fs w !! chunks_file = None ->
        snd (FAISSIndexM.load index_file chunks_file w)
        = Raise FileNotFoundError)
  /\ (forall ix cs, fs w !! index_file = Some (IndexFile ix) ->
        fs w !! chunks_file = Some (ChunksFile cs) ->
        exists w',
          FAISSIndexM.load index_file chunks_file w = (w', OK tt)
          /\ index (self_index w') = ix
          /\ chunks (self_index w') = cs
          /\ fs w' = fs w).
Proof.
  rewrite WorldFacts.load_cases. repeat split.
  - intros ->. reflexivity.
  - intros ix -> ->. reflexivity.
  - intros ix cs -> ->. eexists. repeat split.
Qed.


Lemma load_outcomes_witness :
  FAISSIndexM.load "i" "c" Demo.empty_world
    = (Demo.empty_world, Raise (RuntimeError CouldNotOpen))
  /\ snd (FAISSIndexM.load "i" "missing"
            {| self_index := FAISSIndexM.init 1; fs := Demo.mismatched_disk |})
     = Raise FileNotFoundError
  /\ exists w',
       FAISSIndexM.load "i" "c"
         {| self_index := FAISSIndexM.init 1; fs := Demo.mismatched_disk |}
       = (w', OK tt)
       /\ index (self_index w') = {| Faiss.d := 1; Faiss.xb := [[7]] |}
       /\ chunks (self_index w') = []
       /\ fs w' = Demo.mismatched_disk.
Proof.
  split; [|split].
  - apply (load_outcomes Demo.empty_world "i" "c"). reflexivity.
  - apply (load_outcomes
             {| self_index := FAISSIndexM.init 1; fs := Demo.mismatched_disk |}
             "i" "missing") with (ix := {| Faiss.d := 1; Faiss.xb := [[7]] |});
      reflexivity.
  - apply (load_outcomes
             {| self_index := FAISSIndexM.init 1; fs := Demo.mismatched_disk |}
             "i" "c"); reflexivity.
Defined.

(** C6 (as stated) fails: an index file of one vector and a chunks file
    of no chunk are loaded without any error. *)
Lemma load_accepts_count_mismatch :
  exists w',
    FAISSIndexM.load "i" "c"
      {| self_index := FAISSIndexM.init 1; fs := Demo.mismatched_disk |}
    = (w', OK tt)
    /\ Faiss.ntotal (index (self_index w')) = 1%nat
    /\ length (chunks (self_index w')) = 0%nat.
Proof. eexists. vm_compute. repeat split. Qed.

(** ** The life cycle of the orchestrator *)


Lemma demo_encoder_ok : encoder_ok Demo.encode.
Proof.
  intros [|t r]; simpl; [reflexivity|]. split; [reflexivity|].
  now rewrite length_map.
Qed.

Lemma index_document_on_empty encode pages w :
  encoder_ok encode ->
  self_index w = FAISSIndexM.init RAGModelM.DEFAULT_DIMENSION ->
  let cs := DocumentProcessor.process_pdf pages in
  let w2 := fst (RAGModelM.index_document encode pages w) in
  chunks (self_index w2) = cs
  /\ Faiss.ntotal (index (self_index w2)) = length cs
  /\ (cs <> [] ->
      snd (RAGModelM.index_document encode pages w) = OK (length cs)
      /\ fs w2 !! RAGModelM.index_file = Some (IndexFile (index (self_index w2)))
      /\ fs w2 !! RAGModelM.chunks_file = Some (ChunksFile cs)).
Proof.
  intros Henc Hw. unfold RAGModelM.index_document, RAGModelM.create_embeddings.
  specialize (Henc (DocumentProcessor.process_pdf pages)).
  set (cs := DocumentProcessor.process_pdf pages) in *. simpl.
  destruct (encode cs) as [data|xd rows].
  - rewrite (WorldFacts.bind_raise _ _ _ _ _
               (WorldFacts.add_vectors_vector w data cs)).
    simpl. rewrite Hw, Henc. simpl.
    split; [reflexivity|]. split; [reflexivity|]. congruence.
  - destruct Henc as [-> Hlen].
    pose proof (WorldFacts.add_vectors_matrix w RAGModelM.DEFAULT_DIMENSION
                  rows cs) as E.
    rewrite Hw in E. simpl in E.
    rewrite (WorldFacts.bind_ok _ _ _ _ _ E).
    rewrite (WorldFacts.bind_ok _ _ _ _ _ (save_eq _ _ _)).
    unfold ret, Faiss.ntotal. simpl.
    split; [reflexivity|]. split; [exact Hlen|]. intros _.
    split; [reflexivity|]. split; [|apply lookup_insert_eq].
    rewrite lookup_insert_ne by discriminate. apply lookup_insert_eq.
Qed.

(** C9.  [clear_index] succeeds, leaves an empty index and neither of
    the two files (other files are untouched); a second [clear_index]
    succeeds and changes nothing; a [load] of the two locations then
    fails because the index file cannot be opened; and an
    [index_document] right after it leaves exactly the chunks of the
    new document, with as many vectors. *)
Theorem clear_index_lifecycle (encode : list Py.str -> ndarray) (w : world)
    (pages : list Py.str) :
  encoder_ok encode ->
  let w1 := fst (RAGModelM.clear_index w) in
  let w2 := fst (RAGModelM.index_document encode pages w1) in
  let cs := DocumentProcessor.process_pdf pages in
  snd (RAGModelM.clear_index w) = OK tt
  /\ self_index w1 = FAISSIndexM.init RAGModelM.DEFAULT_DIMENSION
  /\ Faiss.ntotal (index (self_index w1)) = 0%nat
  /\ chunks (self_index w1) = []
  /\ fs w1 !! RAGModelM.index_file = None
  /\ fs w1 !! RAGModelM.chunks_file = None
  /\ (forall path, path <> RAGModelM.index_file ->
        path <> RAGModelM.chunks_file -> fs w1 !! path = fs w !! path)
  /\ RAGModelM.clear_index w1 = (w1, OK tt)
  /\ FAISSIndexM.load RAGModelM.index_file RAGModelM.chunks_file w1
     = (w1, Raise (RuntimeError CouldNotOpen))
  /\ chunks (self_index w2) = cs
  /\ Faiss.ntotal (index (self_index w2)) = length cs
  /\ (cs <> [] ->
      snd (RAGModelM.index_document encode pages w1) = OK (length cs)).
Proof.
  intros Henc w1 w2 cs.
  assert (E1 : fs w1 !! RAGModelM.index_file = None).
  { subst w1. rewrite WorldFacts.clear_index_eq. simpl.
    rewrite lookup_delete_ne by discriminate. apply lookup_delete_eq. }
  assert (E2 : fs w1 !! RAGModelM.chunks_file = None).
  { subst w1. rewrite WorldFacts.clear_index_eq. simpl. apply lookup_delete_eq. }
  assert (E0 : self_index w1 = FAISSIndexM.init RAGModelM.DEFAULT_DIMENSION).
  { subst w1. now rewrite WorldFacts.clear_index_eq. }
  split; [now rewrite WorldFacts.clear_index_eq|].
  split; [exact E0|]. split; [now rewrite E0|]. split; [now rewrite E0|].
  split; [exact E1|]. split; [exact E2|]. split.
  { intros path H1 H2. subst w1. rewrite WorldFacts.clear_index_eq. simpl.
    rewrite lookup_delete_ne by congruence. now rewrite lookup_delete_ne by congruence. }
  split.
  { rewrite (WorldFacts.clear_index_eq w1). rewrite <- E0.
    rewrite (delete_id _ _ E1), (delete_id _ _ E2). now destruct w1. }
  split.
  { rewrite WorldFacts.load_cases. now rewrite E1. }
  destruct (index_document_on_empty encode pages w1 Henc E0) as (H1 & H2 & H3).
  split; [exact H1|]. split; [exact H2|]. intros Hne. now apply H3.
Qed.

Lemma clear_index_lifecycle_witness :
  Faiss.ntotal (index (self_index Demo.after_old_document)) = 1%nat
  /\ fs (fst (RAGModelM.clear_index Demo.after_old_document))
       !! RAGModelM.index_file = None
  /\ Faiss.ntotal
       (index (self_index
          (fst (RAGModelM.index_document Demo.encode
                  [DocumentProcessor.example_text]
                  (fst (RAGModelM.clear_index Demo.after_old_document))))))
     = 3%nat
  /\ length
       (chunks (self_index
          (fst (RAGModelM.index_document Demo.encode
                  [DocumentProcessor.example_text]
                  (fst (RAGModelM.clear_index Demo.after_old_document))))))
     = 3%nat.
Proof.
  destruct (clear_index_lifecycle Demo.encode Demo.after_old_document
              [DocumentProcessor.example_text] demo_encoder_ok)
    as (_ & _ & _ & _ & E1 & _ & _ & _ & _ & Hc & Hn & _).
  split; [reflexivity|]. split; [exact E1|]. split.
  - rewrite Hn. vm_compute. reflexivity.
  - rewrite Hc. vm_compute. reflexivity.
Defined.

(** ** Reading operations *)


Lemma readonly_ret {S A} (v : A) : readonly (@ret S A v).
Proof. intros s. reflexivity. Qed.

Lemma readonly_lift {S A} (o : outcome A) : readonly (@lift S A o).
Proof. intros s. reflexivity. Qed.

Lemma readonly_get {S} : readonly (@get S).
Proof. intros s. reflexivity. Qed.

Lemma readonly_bind {S A B} (c : M S A) (k : A -> M S B) :
  readonly c -> (forall v, readonly (k v)) -> readonly (bind c k).
Proof.
  intros Hc Hk s. unfold bind. specialize (Hc s).
  destruct (c s) as [s' [v|e]]; simpl in Hc; subst s'; [apply Hk|reflexivity].
Qed.

Lemma readonly_for_each {S A B} (f : A -> M S B) l :
  (forall x, readonly (f x)) -> readonly (RAGModelM.for_each f l).
Proof.
  intros Hf. induction l as [|x r IH]; simpl; [apply readonly_ret|].
  apply readonly_bind; [apply Hf|]. intros y.
  apply readonly_bind; [exact IH|]. intros ys. apply readonly_ret.
Qed.

Lemma readonly_search q k : readonly (FAISSIndexM.search q k).
Proof.
  unfold FAISSIndexM.search. apply readonly_bind; [apply readonly_get|].
  intros w. apply readonly_bind; [apply readonly_lift|].
  intros r. apply readonly_ret.
Qed.

Lemma readonly_query encode generate question top_k :
  readonly (RAGModelM.query encode generate question top_k).
Proof.
  unfold RAGModelM.query.
  apply readonly_bind; [apply readonly_lift|]. intros qe.
  apply readonly_bind; [apply readonly_search|]. intros r.
  apply readonly_bind; [apply readonly_lift|]. intros i0.
  apply readonly_bind.
  { apply readonly_for_each. intros idx.
    apply readonly_bind; [apply readonly_get|]. intros w. apply readonly_lift. }
  intros cs. apply readonly_bind; [apply readonly_lift|]. intros text.
  apply readonly_bind; [apply readonly_lift|]. intros d0. apply readonly_ret.
Qed.

(** C10.  [search] and [query] leave the whole state as it was, the
    stored vectors and the chunks in particular, whatever their outcome;
    [save] writes files but leaves the index as it was. *)
Theorem search_and_query_leave_index (encode : list Py.str -> ndarray)
    (generate : Py.str -> outcome Py.str) (w : world) (q : list Z) (k : Z)
    (question : Py.str) (top_k : Z) (index_file chunks_file : string) :
  fst (FAISSIndexM.search q k w) = w
  /\ fst (RAGModelM.query encode generate question top_k w) = w
  /\ self_index (fst (FAISSIndexM.save index_file chunks_file w)) = self_index w.
Proof.
  split; [apply readonly_search|]. split; [apply readonly_query|].
  now rewrite save_eq.
Qed.

(** ** [query] on an empty index *)

Lemma search_empty_store w q k :
  Faiss.xb (index (self_index w)) = [] ->
  length q = Faiss.d (index (self_index w)) -> 0 < k ->
  FAISSIndexM.search q k w
  = (w, OK ([repeat Faiss.FLT_MAX (Z.to_nat k)], [repeat (-1) (Z.to_nat k)])).
Proof.
  intros Hxb Hq Hk. unfold FAISSIndexM.search, Faiss.search, bind, get, lift, ret.
  apply Nat.eqb_eq in Hq. rewrite Hq. apply Z.ltb_lt in Hk. rewrite Hk. simpl.
  rewrite Hxb. unfold Faiss.knn_L2sqr, Faiss.heap_heapify. simpl.
  do 3 f_equal; f_equal; induction (Z.to_nat k) as [|n IH]; simpl; congruence.
Qed.

(** C8 (the code departs from it).  On an empty index [query] never
    returns: whatever the question, [top_k] and the collaborators, it
    raises.  With a well-shaped embedding and [top_k >= 1] the
    exception is the [IndexError] of [chunks[-1]] on the empty list,
    the label [-1] being what [search] puts in the slots it could not
    fill. *)
Theorem query_on_empty_index_raises (encode : list Py.str -> ndarray)
    (generate : Py.str -> outcome Py.str) (question : Py.str) (top_k : Z)
    (w : world) :
  Faiss.xb (index (self_index w)) = [] ->
  chunks (self_index w) = [] ->
  (exists e, RAGModelM.query encode generate question top_k w = (w, Raise e))
  /\ (forall qe, ndarray_first (encode [question]) = OK qe ->
        length qe = Faiss.d (index (self_index w)) -> 0 < top_k ->
        RAGModelM.query encode generate question top_k w
        = (w, Raise IndexError)).
Proof.
  intros Hxb Hcs.
  assert (Hgood : forall qe, ndarray_first (encode [question]) = OK qe ->
            length qe = Faiss.d (index (self_index w)) -> 0 < top_k ->
            RAGModelM.query encode generate question top_k w
            = (w, Raise IndexError)).
  { intros qe Eq Hq Hk. unfold RAGModelM.query. rewrite Eq.
    rewrite (WorldFacts.bind_ok _ _ w w qe eq_refl).
    rewrite (WorldFacts.bind_ok _ _ _ _ _ (search_empty_store w qe top_k Hxb Hq Hk)).
    simpl snd. simpl fst.
    rewrite (WorldFacts.bind_ok _ _ w w (repeat (-1) (Z.to_nat top_k)) eq_refl).
    destruct (Z.to_nat top_k) as [|n] eqn:En; [lia|]. simpl repeat.
    apply WorldFacts.bind_raise. simpl RAGModelM.for_each.
    apply WorldFacts.bind_raise. unfold bind, get, lift. now rewrite Hcs. }
  split; [|exact Hgood].
  destruct (ndarray_first (encode [question])) as [qe|e] eqn:Eq.
  - destruct (Nat.eq_dec (length qe) (Faiss.d (index (self_index w)))) as [Hq|Hq].
    + destruct (Z_lt_le_dec 0 top_k) as [Hk|Hk].
      * exists IndexError. now apply (Hgood qe).
      * exists AssertionError. unfold RAGModelM.query. rewrite Eq.
        rewrite (WorldFacts.bind_ok _ _ w w qe eq_refl).
        apply WorldFacts.bind_raise.
        unfold FAISSIndexM.search, Faiss.search, bind, get, lift.
        apply Nat.eqb_eq in Hq. rewrite Hq. apply Z.ltb_ge in Hk. now rewrite Hk.
    + exists AssertionError. unfold RAGModelM.query. rewrite Eq.
      rewrite (WorldFacts.bind_ok _ _ w w qe eq_refl).
      apply WorldFacts.bind_raise.
      unfold FAISSIndexM.search, Faiss.search, bind, get, lift.
      apply Nat.eqb_neq in Hq. now rewrite Hq.
  - exists e. unfold RAGModelM.query. rewrite Eq. now apply WorldFacts.bind_raise.
Qed.

Lemma query_on_empty_index_raises_witness :
  RAGModelM.query Demo.encode Demo.generate
    (Py.lit "What is Paris known for?") 3 Demo.empty_world
  = (Demo.empty_world, Raise IndexError).
Proof.
  destruct (query_on_empty_index_raises Demo.encode Demo.generate
              (Py.lit "What is Paris known for?") 3 Demo.empty_world
              eq_refl eq_refl) as [_ H].
  apply (H (repeat 24 384)); [reflexivity|reflexivity|reflexivity].
Defined.

(** ** [search] on small integers

    On small integers the arithmetic of float32 is exact, so that an
    evaluation of the integer store is an evaluation of the code.
    What [search] returns in general is proved over float32 values
    further down. *)

Section SearchTheorems.
Import Faiss FaissSpec FaissFacts.


Lemma search_ok w q k :
  length q = d (index (self_index w)) -> 0 < k ->
  FAISSIndexM.search q k w
  = (w, OK ([List.map fst (knn_L2sqr q (xb (index (self_index w))) (Z.to_nat k))],
            [List.map snd (knn_L2sqr q (xb (index (self_index w))) (Z.to_nat k))])).
Proof.
  intros Hq Hk. unfold FAISSIndexM.search, Faiss.search, bind, get, lift, ret.
  apply Nat.eqb_eq in Hq. rewrite Hq. apply Z.ltb_lt in Hk. now rewrite Hk.
Qed.

Lemma search_bad_k w q k :
  length q = d (index (self_index w)) -> k <= 0 ->
  FAISSIndexM.search q k w = (w, Raise AssertionError).
Proof.
  intros Hq Hk. unfold FAISSIndexM.search, Faiss.search, bind, get, lift, ret.
  apply Nat.eqb_eq in Hq. rewrite Hq. apply Z.ltb_ge in Hk. now rewrite Hk.
Qed.

Lemma map_fst_padded kept m :
  List.map fst (kept ++ repeat neutral m) = List.map fst kept ++ repeat FLT_MAX m.
Proof. now rewrite List.map_app, map_repeat. Qed.

Lemma map_snd_padded kept m :
  List.map snd (kept ++ repeat neutral m) = List.map snd kept ++ repeat (-1) m.
Proof. now rewrite List.map_app, map_repeat. Qed.

Lemma labelled_stored q ix e : In e (labelled q (xb ix)) <-> stored q ix e.
Proof.
  split.
  - intros H. destruct (labelled_from_In q (xb ix) e 0 H) as (i & v & Hn & ->).
    now exists i, v.
  - intros (i & v & Hn & ->). apply (In_labelled_from q (xb ix) i v 0 Hn).
Qed.

Lemma getitem_position {A} (l : list A) i x :
  nth_error l i = Some x -> getitem l (Z.of_nat i) = OK x.
Proof.
  intros H. assert (Hi : (i < length l)%nat) by (apply nth_error_Some; congruence).
  unfold getitem.
  destruct (Z.ltb_spec (Z.of_nat i) 0) as [?|_]; [lia|].
  destruct (Z.leb_spec 0 (Z.of_nat i)) as [_|?]; [|lia].
  destruct (Z.ltb_spec (Z.of_nat i) (Z.of_nat (length l))) as [_|?]; [|lia].
  simpl. now rewrite Nat2Z.id, H.
Qed.

End SearchTheorems.

(** ** The chunker *)

Section ChunkerTheorems.
Import Py DocumentProcessor ChunkerFacts.

(** C7.  [process_pdf] is the chunker of the specification applied to
    every page in order: the text is cut at blank-line boundaries, the
    pieces are trimmed and the empty ones dropped, a unit of at most
    512 characters is one chunk and a longer one gives its groups of
    100 words, each joined by single spaces.  No chunk is empty.  The
    groups of a word list are consecutive, cover it in order, have
    between 1 and 100 words and number [ceil (len / 100)].  On the
    example of the specification the result is the short line followed
    by the two groups of 100 and 50 words, and a text of line breaks
    only gives no chunk. *)
Theorem chunker_splits_as_specified :
  (forall pages, process_pdf pages = flat_map chunker pages)
  /\ (forall text, Forall (fun c => c <> []) (chunker text))
  /\ (forall words : list str,
        concat (word_groups WORDS_PER_CHUNK words) = words
        /\ length (word_groups WORDS_PER_CHUNK words)
           = ((length words + 99) / 100)%nat
        /\ Forall (fun g => g <> [] /\ (length g <= 100)%nat)
                  (word_groups WORDS_PER_CHUNK words))
  /\ process_pdf [example_text]
     = [lit "A short line.";
        join_sp (repeat (lit "word") 100);
        join_sp (repeat (lit "word") 50)]
  /\ (forall n, process_pdf [repeat NL n] = []).
Proof.
  assert (Hn : (0 < WORDS_PER_CHUNK)%nat) by (unfold WORDS_PER_CHUNK; lia).
  split; [exact process_pdf_chunker|]. split; [exact chunker_nonempty|].
  split; [|split].
  - intros words.
    destruct (groups_fuel_shape WORDS_PER_CHUNK Hn (length words) words (le_n _))
      as [Hc Hall].
    split; [exact Hc|]. split.
    + rewrite length_word_groups by exact Hn. unfold WORDS_PER_CHUNK.
      f_equal. lia.
    + eapply List.Forall_impl; [|exact Hall]. intros g (H1 & H2 & _). now split.
  - vm_compute. reflexivity.
  - intros n. rewrite process_pdf_chunker. simpl. rewrite app_nil_r.
    apply chunker_all_space. apply List.Forall_forall. intros c Hc.
    apply repeat_spec in Hc. now subst.
Qed.

End ChunkerTheorems.

(** ** The words of the chunks *)

Module WordFacts.
Import Py DocumentProcessor ChunkerFacts WordSpec.


(** A white-space character ends the word being read. *)
Lemma split_ws_from_break cur s1 c s2 :
  isspace c = true ->
  split_ws_from cur (s1 ++ c :: s2)
  = split_ws_from cur s1 ++ split_ws_from [] s2.
Proof.
  intros Hc. revert cur. induction s1 as [|a s1 IH]; intros cur; simpl.
  - rewrite Hc. now destruct cur.
  - destruct (isspace a).
    + destruct cur; simpl; now rewrite IH.
    + apply IH.
Qed.

Lemma split_ws_from_all_space s : all_space s -> split_ws_from [] s = [].
Proof. induction 1 as [|c r Hc _ IH]; simpl; [reflexivity|]. now rewrite Hc. Qed.

Lemma split_ws_from_trailing cur s t :
  all_space t -> split_ws_from cur (s ++ t) = split_ws_from cur s.
Proof.
  intros Ht. destruct Ht as [|c t' Hc Ht'].
  - now rewrite app_nil_r.
  - rewrite split_ws_from_break by exact Hc.
    rewrite (split_ws_from_all_space t' Ht'). apply app_nil_r.
Qed.

Lemma split_ws_leading t s : all_space t -> split_ws (t ++ s) = split_ws s.
Proof.
  unfold split_ws. induction 1 as [|c r Hc _ IH]; simpl; [reflexivity|].
  now rewrite Hc.
Qed.

Lemma lstrip_split s : exists t, all_space t /\ s = t ++ lstrip s.
Proof.
  induction s as [|c r IH]; simpl.
  - exists []. split; [constructor|reflexivity].
  - destruct (isspace c) eqn:Ec.
    + destruct IH as (t & Ht & E). exists (c :: t). split; [now constructor|].
      simpl. now rewrite <- E.
    + exists []. split; [constructor|reflexivity].
Qed.

Lemma rstrip_split s : exists t, all_space t /\ s = rstrip s ++ t.
Proof.
  unfold rstrip. destruct (lstrip_split (rev s)) as (t & Ht & E).
  exists (rev t). split.
  - now apply rev_all_space.
  - rewrite <- rev_app_distr, <- E. now rewrite rev_involutive.
Qed.

(** Trimming removes no word. *)
Lemma split_ws_strip s : split_ws (strip s) = split_ws s.
Proof.
  unfold strip. destruct (lstrip_split s) as (t1 & Ht1 & E1).
  destruct (rstrip_split (lstrip s)) as (t2 & Ht2 & E2).
  rewrite E1 at 2. rewrite split_ws_leading by exact Ht1.
  rewrite E2 at 2. unfold split_ws. now rewrite split_ws_from_trailing.
Qed.

(** Cutting at blank lines removes no word. *)
Lemma split_nn_from_words s :
  forall cur, flat_map split_ws (split_nn_from cur s) = split_ws (rev cur ++ s).
Proof.
  remember (length s) as n eqn:En. revert s En.
  induction n as [n IHn] using lt_wf_ind. intros s En cur.
  destruct s as [|a s1]; simpl.
  - now rewrite !app_nil_r.
  - destruct s1 as [|b s2].
    + simpl. now rewrite !app_nil_r.
    + destruct ((a =? NL) && (b =? NL))%N eqn:E.
      * apply andb_true_iff in E. destruct E as [Ea Eb].
        apply N.eqb_eq in Ea. apply N.eqb_eq in Eb. subst a b.
        simpl flat_map. rewrite (IHn (length s2)) by (subst n; simpl; lia).
        simpl rev. simpl app at 2. unfold split_ws at 3.
        rewrite split_ws_from_break by reflexivity. reflexivity.
      * rewrite (IHn (length (b :: s2))) by (subst n; simpl; lia).
        simpl rev. now rewrite <- app_assoc.
Qed.

Lemma units_words text : flat_map split_ws (units text) = split_ws text.
Proof.
  change (split_ws text) with (split_ws (rev [] ++ text)).
  rewrite <- (split_nn_from_words text []). unfold units, split_nn.
  induction (split_nn_from [] text) as [|p l IH]; simpl; [reflexivity|].
  rewrite <- (split_ws_strip p). destruct (strip p) as [|c r] eqn:E; simpl.
  - exact IH.
  - now rewrite IH.
Qed.

(** *** Words and their joins *)


Lemma split_ws_from_no_space w :
  no_space w -> forall cur, rev cur ++ w <> [] ->
  split_ws_from cur w = [rev cur ++ w].
Proof.
  induction 1 as [|a w' Ha _ IH]; intros cur Hne; simpl.
  - rewrite app_nil_r in *. destruct cur; [now contradiction Hne|reflexivity].
  - rewrite Ha. rewrite IH.
    + simpl. now rewrite <- app_assoc.
    + simpl. rewrite <- app_assoc. simpl. now destruct (rev cur).
Qed.

Lemma split_ws_word w : proper_word w -> split_ws w = [w].
Proof. intros [Hne Hns]. now apply (split_ws_from_no_space w Hns []). Qed.

Lemma split_ws_from_proper s :
  forall cur, no_space cur -> Forall proper_word (split_ws_from cur s).
Proof.
  assert (Hrev : forall cur, no_space cur -> cur <> [] -> proper_word (rev cur)).
  { intros cur Hcur Hne. split.
    - intros E. apply (f_equal (@rev _)) in E. rewrite rev_involutive in E.
      now apply Hne.
    - apply List.Forall_forall. intros c Hc. apply in_rev in Hc.
      unfold no_space in Hcur. rewrite List.Forall_forall in Hcur. auto. }
  induction s as [|c r IH]; intros cur Hcur; simpl.
  - destruct cur as [|x cur']; repeat constructor; try (apply Hrev; [assumption|discriminate]).
  - destruct (isspace c) eqn:Ec.
    + destruct cur as [|x cur']; [apply IH; constructor|].
      constructor; [apply Hrev; [assumption|discriminate]|apply IH; constructor].
    + apply IH. now constructor.
Qed.

Lemma split_ws_proper s : Forall proper_word (split_ws s).
Proof. apply split_ws_from_proper. constructor. Qed.

(** Joining words by single spaces and splitting again gives the words
    back. *)
Lemma split_ws_join_sp g : Forall proper_word g -> split_ws (join_sp g) = g.
Proof.
  induction 1 as [|w r Hw Hr IH]; [reflexivity|].
  destruct r as [|w2 r'].
  - simpl. now apply split_ws_word.
  - change (join_sp (w :: w2 :: r')) with (w ++ SP :: join_sp (w2 :: r')).
    unfold split_ws. rewrite split_ws_from_break by reflexivity.
    fold (split_ws w). fold (split_ws (join_sp (w2 :: r'))).
    rewrite IH, (split_ws_word w Hw). reflexivity.
Qed.

Lemma groups_proper u :
  Forall (Forall proper_word) (word_groups WORDS_PER_CHUNK (split_ws u)).
Proof.
  assert (Hn : (0 < WORDS_PER_CHUNK)%nat) by (unfold WORDS_PER_CHUNK; lia).
  destruct (groups_fuel_shape WORDS_PER_CHUNK Hn (length (split_ws u))
              (split_ws u) (le_n _)) as [_ Hall].
  eapply List.Forall_impl; [|exact Hall]. intros g (_ & _ & Hincl).
  apply List.Forall_forall. intros w Hw.
  pose proof (split_ws_proper u) as Hp. rewrite List.Forall_forall in Hp.
  now apply Hp, Hincl.
Qed.

Lemma flat_map_split_join gs :
  Forall (Forall proper_word) gs ->
  flat_map split_ws (List.map join_sp gs) = concat gs.
Proof.
  induction 1 as [|g r Hg _ IH]; simpl; [reflexivity|].
  now rewrite IH, split_ws_join_sp.
Qed.

Lemma chunk_unit_words u : flat_map split_ws (chunk_unit u) = split_ws u.
Proof.
  unfold chunk_unit. destruct (length u <=? MAX_PARAGRAPH_LEN)%nat.
  - simpl. apply app_nil_r.
  - rewrite flat_map_split_join by apply groups_proper.
    assert (Hn : (0 < WORDS_PER_CHUNK)%nat) by (unfold WORDS_PER_CHUNK; lia).
    apply (groups_fuel_shape WORDS_PER_CHUNK Hn (length (split_ws u))
             (split_ws u) (le_n _)).
Qed.

Lemma flat_map_flat_map {A B C} (f : A -> list B) (g : B -> list C) l :
  flat_map g (flat_map f l) = flat_map (fun x => flat_map g (f x)) l.
Proof.
  induction l as [|x l IH]; simpl; [reflexivity|].
  now rewrite List.flat_map_app, IH.
Qed.

Lemma chunker_words text : flat_map split_ws (chunker text) = split_ws text.
Proof.
  unfold chunker. rewrite flat_map_flat_map.
  rewrite (List.flat_map_ext _ split_ws) by (intros u; apply chunk_unit_words).
  apply units_words.
Qed.

(** *** Trimmed strings *)


Lemma lstrip_head_ok s : head_ok (lstrip s).
Proof.
  induction s as [|c r IH]; simpl; [exact I|].
  destruct (isspace c) eqn:E; [exact IH|exact E].
Qed.

Lemma head_ok_lstrip s : head_ok s -> lstrip s = s.
Proof. destruct s as [|c r]; simpl; [reflexivity|]. now intros ->. Qed.

Lemma head_ok_prefix s t : head_ok (s ++ t) -> head_ok s.
Proof. now destruct s. Qed.

Lemma strip_trimmed s : trimmed (strip s).
Proof.
  unfold trimmed, strip. split.
  - destruct (rstrip_split (lstrip s)) as (t & _ & E).
    apply (head_ok_prefix _ t). rewrite <- E. apply lstrip_head_ok.
  - unfold rstrip. rewrite rev_involutive. apply lstrip_head_ok.
Qed.

Lemma trimmed_strip s : trimmed s -> strip s = s.
Proof.
  intros [H1 H2]. unfold strip, rstrip.
  rewrite (head_ok_lstrip s H1), (head_ok_lstrip _ H2). apply rev_involutive.
Qed.

Lemma proper_word_trimmed w : proper_word w -> trimmed w.
Proof.
  intros [Hne Hns]. unfold no_space in Hns. rewrite List.Forall_forall in Hns.
  split.
  - destruct w as [|c r]; [exact I|]. apply Hns. now left.
  - destruct (rev w) as [|c r] eqn:E; [exact I|]. apply Hns.
    apply in_rev. rewrite E. now left.
Qed.

Lemma join_sp_trimmed g : Forall proper_word g -> trimmed (join_sp g).
Proof.
  induction 1 as [|w r Hw Hr IH]; [split; exact I|].
  destruct r as [|w2 r'].
  - now apply proper_word_trimmed.
  - change (join_sp (w :: w2 :: r')) with (w ++ SP :: join_sp (w2 :: r')).
    split.
    + destruct Hw as [Hne Hns]. destruct w as [|c w']; [congruence|].
      inversion Hns; subst. assumption.
    + destruct IH as [_ IH2].
      assert (Hj : join_sp (w2 :: r') <> []).
      { intros E. assert (T : truthy (join_sp (w2 :: r')) = true).
        { apply join_sp_truthy; [discriminate|].
          eapply List.Forall_impl; [|exact Hr]. now intros ? []. }
        rewrite E in T. discriminate. }
      remember (join_sp (w2 :: r')) as j eqn:Ej. clear Ej.
      rewrite rev_app_distr.
      change (rev (SP :: j)) with (rev j ++ [SP]). rewrite <- app_assoc.
      destruct (rev j) as [|c x] eqn:E.
      * apply (f_equal (@rev _)) in E. rewrite rev_involutive in E.
        now contradiction Hj.
      * exact IH2.
Qed.

(** *** No word means no chunk *)

Lemma split_ws_from_nil s :
  forall cur, split_ws_from cur s = [] -> cur = [] /\ all_space s.
Proof.
  induction s as [|c r IH]; intros cur H; simpl in H.
  - destruct cur; [split; [reflexivity|constructor]|discriminate].
  - destruct (isspace c) eqn:Ec.
    + destruct cur; [|discriminate]. destruct (IH [] H) as [_ Hr].
      split; [reflexivity|now constructor].
    + destruct (IH _ H) as [Hbad _]. discriminate.
Qed.

Lemma split_ws_nil_iff s : split_ws s = [] <-> all_space s.
Proof.
  split.
  - intros H. now apply (split_ws_from_nil s []).
  - apply split_ws_from_all_space.
Qed.

Lemma process_pdf_words pages :
  flat_map split_ws (process_pdf pages) = flat_map split_ws pages.
Proof.
  rewrite process_pdf_chunker, flat_map_flat_map.
  apply List.flat_map_ext. intros text. apply chunker_words.
Qed.

Lemma process_pdf_blank pages :
  Forall all_space pages -> process_pdf pages = [].
Proof.
  intros H. rewrite process_pdf_chunker.
  induction H as [|t r Ht _ IH]; simpl; [reflexivity|].
  now rewrite (chunker_all_space t Ht), IH.
Qed.

Lemma process_pdf_pages pages1 pages2 :
  process_pdf (pages1 ++ pages2) = process_pdf pages1 ++ process_pdf pages2.
Proof. rewrite !process_pdf_chunker. apply List.flat_map_app. Qed.

End WordFacts.

(** ** More on the chunker *)

Section ChunkerExtras.
Import Py DocumentProcessor ChunkerFacts WordSpec WordFacts.

(** X1.  The chunker neither loses nor invents nor reorders a word: the
    words of the chunks, read in order, are the words of the pages. *)
Theorem process_pdf_keeps_words (pages : list str) :
  flat_map split_ws (process_pdf pages) = flat_map split_ws pages.
Proof. apply process_pdf_words. Qed.

(** X2.  Pages are chunked independently and in order: the chunks of
    two page sequences put together are the chunks of the first
    followed by the chunks of the second. *)
Theorem process_pdf_app (pages1 pages2 : list str) :
  process_pdf (pages1 ++ pages2) = process_pdf pages1 ++ process_pdf pages2.
Proof. apply process_pdf_pages. Qed.

(** X3.  A document gives no chunk exactly when every page consists of
    white space only (an empty page included). *)
Theorem process_pdf_empty_iff_blank (pages : list str) :
  process_pdf pages = [] <-> Forall all_space pages.
Proof.
  split.
  - intros H. pose proof (process_pdf_words pages) as Hw.
    rewrite H in Hw. simpl in Hw. symmetry in Hw.
    induction pages as [|t r IH]; [constructor|].
    simpl in Hw. apply app_eq_nil in Hw. destruct Hw as [Ht Hr].
    constructor; [now apply split_ws_nil_iff|].
    apply IH; [|exact Hr].
    rewrite process_pdf_chunker in *. simpl in H.
    apply app_eq_nil in H. now destruct H.
  - apply process_pdf_blank.
Qed.

(** X4.  Every chunk is non-empty and has no white space at either
    end; it is either a trimmed piece of a page of at most 512
    characters, or between 1 and 100 words joined by single spaces. *)
Theorem process_pdf_chunk_shape (pages : list str) (c : str) :
  In c (process_pdf pages) ->
  c <> [] /\ strip c = c
  /\ (((length c <= 512)%nat
       /\ exists text p, In text pages /\ In p (split_nn text) /\ c = strip p)
      \/ (c = join_sp (split_ws c)
          /\ (1 <= length (split_ws c) <= 100)%nat)).
Proof.
  rewrite process_pdf_chunker. intros Hc. apply in_flat_map in Hc.
  destruct Hc as (text & Htext & Hc).
  pose proof (chunker_nonempty text) as Hne. rewrite List.Forall_forall in Hne.
  split; [now apply Hne|].
  unfold chunker in Hc. apply in_flat_map in Hc. destruct Hc as (u & Hu & Hc).
  unfold units in Hu. apply filter_In in Hu. destruct Hu as [Hu _].
  apply in_map_iff in Hu. destruct Hu as (p & <- & Hp).
  unfold chunk_unit in Hc.
  destruct (Nat.leb_spec (length (strip p)) MAX_PARAGRAPH_LEN) as [Hle|Hgt].
  - destruct Hc as [<-|[]]. split; [apply trimmed_strip, strip_trimmed|].
    left. split; [exact Hle|]. now exists text, p.
  - apply in_map_iff in Hc. destruct Hc as (g & <- & Hg).
    pose proof (groups_proper (strip p)) as Hpr.
    rewrite List.Forall_forall in Hpr. specialize (Hpr g Hg).
    assert (Hn : (0 < WORDS_PER_CHUNK)%nat) by (unfold WORDS_PER_CHUNK; lia).
    destruct (groups_fuel_shape WORDS_PER_CHUNK Hn (length (split_ws (strip p)))
                (split_ws (strip p)) (le_n _)) as [_ Hall].
    rewrite List.Forall_forall in Hall. destruct (Hall g Hg) as (Hgne & Hlen & _).
    split; [apply trimmed_strip, join_sp_trimmed, Hpr|].
    right. rewrite (split_ws_join_sp g Hpr). split; [reflexivity|].
    unfold WORDS_PER_CHUNK in Hlen. split; [|exact Hlen].
    destruct g; [congruence|]. simpl. apply le_n_S, Nat.le_0_l.
Qed.

Lemma process_pdf_chunk_shape_witness :
  join_sp (repeat (lit "word") 50) <> []
  /\ strip (join_sp (repeat (lit "word") 50))
     = join_sp (repeat (lit "word") 50).
Proof.
  destruct (process_pdf_chunk_shape [example_text]
              (join_sp (repeat (lit "word") 50))) as (Hne & Hs & _).
  - vm_compute. right. right. now left.
  - split; [exact Hne|exact Hs].
Defined.

End ChunkerExtras.

(** ** The search as a sorted prefix *)

Module RankFacts.
Import Faiss FaissSpec FaissFacts RankSpec.

Lemma le2_cmp2 a b : le2 a b -> cmp2 a b = false.
Proof.
  unfold le2, cmp2. intros H. apply orb_false_iff. split.
  - apply Z.ltb_ge. lia.
  - apply andb_false_iff. destruct (Z.eq_dec (fst a) (fst b)) as [E|E].
    + right. apply Z.ltb_ge. lia.
    + left. now apply Z.eqb_neq.
Qed.

(** Inserting below the entry at position [|A|] and cutting after it. *)
Lemma firstn_heap_insert_below A t B c :
  cmp2 t c = true ->
  firstn (S (length A)) (heap_insert c (A ++ t :: B)) = heap_insert c A.
Proof.
  intros Ht. induction A as [|x A IH]; simpl.
  - now rewrite Ht.
  - destruct (cmp2 x c); simpl.
    + f_equal. f_equal. now rewrite firstn_app, Nat.sub_diag, firstn_all, app_nil_r.
    + f_equal. exact IH.
Qed.

(** Inserting above the first [|A|] entries leaves them in place. *)
Lemma firstn_heap_insert_above A B c :
  Forall (fun x => cmp2 x c = false) A ->
  firstn (length A) (heap_insert c (A ++ B)) = A.
Proof.
  induction 1 as [|x A Hx _ IH]; simpl; [reflexivity|].
  rewrite Hx. simpl. now rewrite IH.
Qed.

Lemma heap_insert_perm c s : Permutation (heap_insert c s) (c :: s).
Proof.
  induction s as [|x r IH]; simpl; [reflexivity|].
  destruct (cmp2 x c); [reflexivity|].
  rewrite IH. apply perm_swap.
Qed.

Lemma isort_snoc l c : isort (l ++ [c]) = heap_insert c (isort l).
Proof. unfold isort. now rewrite fold_left_app. Qed.

Lemma isort_sorted l : StronglySorted le2 (isort l).
Proof.
  induction l as [|c l IH] using rev_ind; [constructor|].
  rewrite isort_snoc. now apply heap_insert_sorted.
Qed.

Lemma isort_perm l : Permutation (isort l) l.
Proof.
  induction l as [|c l IH] using rev_ind; [reflexivity|].
  rewrite isort_snoc, heap_insert_perm, IH.
  apply Permutation_cons_append.
Qed.

Lemma isort_In l e : In e (isort l) <-> In e l.
Proof.
  split; apply Permutation_in; [apply isort_perm|symmetry; apply isort_perm].
Qed.

Lemma firstn_repeat_le {A} (x : A) n m :
  (n <= m)%nat -> firstn n (repeat x m) = repeat x n.
Proof.
  revert m. induction n as [|n IH]; intros m H; [reflexivity|].
  destruct m as [|m]; [lia|]. simpl. f_equal. apply IH. lia.
Qed.

Lemma firstn_padded_short (s : list entry) k :
  (length s <= k)%nat ->
  firstn k (s ++ repeat neutral k) = s ++ repeat neutral (k - length s).
Proof.
  intros H. rewrite firstn_app, firstn_all2 by exact H.
  now rewrite firstn_repeat_le by lia.
Qed.

Lemma firstn_padded_long (s : list entry) k :
  (k <= length s)%nat -> firstn k (s ++ repeat neutral k) = firstn k s.
Proof.
  intros H. rewrite firstn_app.
  replace (k - length s)%nat with 0%nat by lia. apply app_nil_r.
Qed.

Lemma sorted_app_l (a b : list entry) :
  StronglySorted le2 (a ++ b) -> StronglySorted le2 a.
Proof.
  induction a as [|x a IH]; intros H; [constructor|].
  simpl in H. inversion H as [|? ? Hs Hx]; subst. constructor; [now apply IH|].
  rewrite List.Forall_forall in *. intros y Hy. apply Hx, in_or_app. now left.
Qed.

Section RankScan.

Variable k : nat.
Hypothesis k_positive : (0 < k)%nat.

(** One step of the scan on the sorted prefix. *)
Lemma rank_step j (seen : list entry) (c : entry) :
  (forall x, In x seen -> 0 <= snd x < j) -> snd c = j ->
  add_result (firstn k (isort (List.filter eligible seen) ++ repeat neutral k)) c
  = firstn k (isort (List.filter eligible (seen ++ [c])) ++ repeat neutral k).
Proof.
  intros Hlab Hc. rewrite filter_snoc.
  set (s := isort (List.filter eligible seen)).
  assert (Hs : StronglySorted le2 s) by apply isort_sorted.
  assert (Hin : forall x, In x s -> fst x < FLT_MAX /\ snd x < j).
  { intros x Hx. apply isort_In, filter_In in Hx. destruct Hx as [Hx He].
    split; [now apply Z.ltb_lt in He|]. now apply Hlab. }
  destruct (le_lt_dec k (length s)) as [Hfull|Hfree].
  - (* every slot holds a stored vector *)
    rewrite firstn_padded_long by exact Hfull.
    set (h := firstn k s).
    assert (Hlen : length h = k) by (unfold h; rewrite length_firstn; lia).
    assert (Hne : h <> []) by (destruct h; simpl in *; [lia|discriminate]).
    pose proof (app_removelast_last neutral Hne) as Eh.
    fold (heap_top h) in Eh.
    assert (Es : s = removelast h ++ heap_top h :: skipn k s).
    { rewrite <- (firstn_skipn k s) at 1. fold h. rewrite Eh at 1.
      now rewrite <- app_assoc. }
    assert (Hla : length (removelast h) = (k - 1)%nat).
    { apply (f_equal (@length _)) in Eh. rewrite length_app in Eh.
      simpl in Eh. lia. }
    assert (Htop : In (heap_top h) s).
    { rewrite Es. apply in_or_app. right. now left. }
    assert (Hsh : StronglySorted le2 h).
    { unfold h. apply (sorted_app_l _ (skipn k s)). now rewrite firstn_skipn. }
    destruct (Hin _ Htop) as [Htd Htl].
    unfold add_result, heap_replace_top, cmp.
    destruct (Z.ltb_spec (fst c) (fst (heap_top h))) as [Hlt|Hge].
    + assert (He : eligible c = true) by (apply Z.ltb_lt; lia).
      rewrite He, isort_snoc. fold s.
      rewrite firstn_padded_long by (rewrite length_heap_insert; lia).
      assert (Hc2 : cmp2 (heap_top h) c = true).
      { unfold cmp2. apply orb_true_iff. left. now apply Z.ltb_lt. }
      rewrite <- (firstn_heap_insert_below (removelast h) (heap_top h)
                    (skipn k s) c Hc2).
      rewrite <- Es. f_equal. lia.
    + assert (Hkeep : firstn k (heap_insert c s) = h).
      { rewrite <- (firstn_skipn k s). fold h. rewrite <- Hlen at 1.
        apply firstn_heap_insert_above. apply List.Forall_forall. intros x Hx.
        apply le2_cmp2. apply (le2_trans _ (heap_top h)).
        - pose proof (sorted_le_top h Hsh) as Hmax.
          rewrite List.Forall_forall in Hmax. now apply Hmax.
        - unfold le2. lia. }
      destruct (eligible c).
      * rewrite isort_snoc. fold s.
        rewrite firstn_padded_long by (rewrite length_heap_insert; lia).
        now rewrite Hkeep.
      * rewrite app_nil_r. fold s. now rewrite firstn_padded_long.
  - (* some slot is still free *)
    rewrite firstn_padded_short by lia.
    destruct (k - length s)%nat as [|m] eqn:Em; [lia|].
    unfold add_result, heap_replace_top, cmp.
    rewrite heap_top_padded. change (fst neutral) with FLT_MAX.
    unfold eligible at 2.
    destruct (Z.ltb_spec (fst c) FLT_MAX) as [Hlt|Hge].
    + rewrite removelast_padded, heap_insert_before_neutral by exact Hlt.
      rewrite isort_snoc. fold s.
      rewrite firstn_padded_short by (rewrite length_heap_insert; lia).
      rewrite length_heap_insert. f_equal. f_equal. lia.
    + rewrite app_nil_r. fold s. rewrite firstn_padded_short by lia.
      now rewrite Em.
Qed.

Lemma rank_fold (cands : list entry) :
  forall j (seen : list entry),
    (forall x, In x seen -> 0 <= snd x < j) -> 0 <= j -> consecutive j cands ->
    fold_left add_result cands
      (firstn k (isort (List.filter eligible seen) ++ repeat neutral k))
    = firstn k (isort (List.filter eligible (seen ++ cands)) ++ repeat neutral k).
Proof.
  induction cands as [|c r IH]; intros j seen Hlab Hj Hcons.
  - now rewrite app_nil_r.
  - destruct Hcons as [Hc Hr]. cbn [fold_left].
    rewrite (rank_step j seen c Hlab Hc).
    rewrite (IH (j + 1) (seen ++ [c]));
      [|now apply (labels_snoc k k_positive)|lia|exact Hr].
    now rewrite <- app_assoc.
Qed.

End RankScan.

(** The result of the scan is the sorted prefix, padded. *)
Lemma knn_ranked q vs k :
  (0 < k)%nat ->
  knn_L2sqr q vs k = firstn k (ranked q vs ++ repeat neutral k).
Proof.
  intros Hk. unfold knn_L2sqr, ranked, heap_heapify.
  pose proof (rank_fold k Hk (labelled q vs) 0 []) as H.
  simpl in H. rewrite firstn_repeat_le in H by lia.
  apply H; [contradiction|lia|].
  apply (labelled_from_consecutive q vs 0).
Qed.

End RankFacts.

(** ** The search of the integer store as a sorted prefix *)

Section RankedSearch.
Import Faiss FaissSpec FaissFacts RankSpec RankFacts.

Lemma ranked_In q ix e :
  In e (ranked q (xb ix)) <-> stored q ix e /\ fst e < FLT_MAX.
Proof.
  unfold ranked. rewrite isort_In, filter_In, labelled_stored.
  unfold eligible. now rewrite Z.ltb_lt.
Qed.

Lemma search_ranked w q k :
  length q = d (index (self_index w)) -> 0 < k ->
  FAISSIndexM.search q k w
  = (w, OK ([List.map fst (firstn (Z.to_nat k)
                             (ranked q (xb (index (self_index w)))
                              ++ repeat neutral (Z.to_nat k)))],
            [List.map snd (firstn (Z.to_nat k)
                             (ranked q (xb (index (self_index w)))
                              ++ repeat neutral (Z.to_nat k)))])).
Proof.
  intros Hq Hk. rewrite (search_ok w q k Hq Hk).
  now rewrite knn_ranked by lia.
Qed.


End RankedSearch.

(** ** The scan over float32 values *)

Module FlatFacts.
Import FlatL2 FlatSpec.

(** *** Lists *)

Lemma map_removelast {A B} (f : A -> B) l :
  List.map f (removelast l) = removelast (List.map f l).
Proof.
  induction l as [|x l _] using rev_ind; [reflexivity|].
  rewrite removelast_last, List.map_app. simpl. now rewrite removelast_last.
Qed.

Lemma map_last {A B} (f : A -> B) l dflt :
  List.last (List.map f l) (f dflt) = f (List.last l dflt).
Proof.
  induction l as [|x l _] using rev_ind; [reflexivity|].
  rewrite List.map_app. simpl. now rewrite !last_last.
Qed.

Lemma In_removelast {A} (l : list A) x : In x (removelast l) -> In x l.
Proof.
  induction l as [|y l _] using rev_ind; [contradiction|].
  rewrite removelast_last. intros H. apply in_or_app. now left.
Qed.

Lemma In_firstn_all {A} n (l : list A) x : In x (firstn n l) -> In x l.
Proof.
  intros H. rewrite <- (firstn_skipn n l). apply in_or_app. now left.
Qed.

Lemma sorted_app_inv {A} (R : A -> A -> Prop) a b :
  StronglySorted R (a ++ b) ->
  StronglySorted R a /\ StronglySorted R b
  /\ (forall x y, In x a -> In y b -> R x y).
Proof.
  induction a as [|u a IH]; simpl; intros H.
  - split; [constructor|]. split; [exact H|]. intros x y [].
  - inversion H as [|? ? Hs Hu]; subst.
    destruct (IH Hs) as (Ha & Hb & Hab). rewrite List.Forall_forall in Hu.
    split; [|split; [exact Hb|]].
    + constructor; [exact Ha|]. apply List.Forall_forall. intros y Hy.
      apply Hu, in_or_app. now left.
    + intros x y [<-|Hx] Hy; [apply Hu, in_or_app; now right|now apply Hab].
Qed.

Lemma sorted_app {A} (R : A -> A -> Prop) a b :
  StronglySorted R a -> StronglySorted R b ->
  (forall x y, In x a -> In y b -> R x y) ->
  StronglySorted R (a ++ b).
Proof.
  induction 1 as [|u a Ha IH Hu]; simpl; intros Hb Hab; [exact Hb|].
  constructor.
  - apply IH; [exact Hb|]. intros x y Hx Hy. apply Hab; [now right|exact Hy].
  - apply List.Forall_forall. intros y Hy. apply in_app_or in Hy.
    destruct Hy as [Hy|Hy].
    + rewrite List.Forall_forall in Hu. now apply Hu.
    + apply Hab; [now left|exact Hy].
Qed.

Lemma sorted_firstn {A} (R : A -> A -> Prop) n (l : list A) :
  StronglySorted R l -> StronglySorted R (firstn n l).
Proof.
  intros H. rewrite <- (firstn_skipn n l) in H.
  now apply sorted_app_inv in H.
Qed.

Lemma sorted_repeat {A} (R : A -> A -> Prop) (x : A) n :
  R x x -> StronglySorted R (repeat x n).
Proof.
  intros Hx. induction n as [|n IH]; simpl; constructor; [exact IH|].
  apply List.Forall_forall. intros y Hy. apply repeat_spec in Hy. now subst.
Qed.

Lemma NoDup_map_filter {A B} (g : A -> B) (f : A -> bool) l :
  List.NoDup (List.map g l) -> List.NoDup (List.map g (List.filter f l)).
Proof.
  induction l as [|a l IH]; simpl; intros H; [constructor|].
  inversion H as [|? ? Hn Hd]; subst. destruct (f a); simpl; [|now apply IH].
  constructor; [|now apply IH]. intros Hin. apply Hn.
  apply in_map_iff in Hin. destruct Hin as (x & E & Hx).
  apply filter_In in Hx. apply in_map_iff. exists x. tauto.
Qed.

Lemma NoDup_firstn {A} n (l : list A) : List.NoDup l -> List.NoDup (firstn n l).
Proof.
  intros H. rewrite <- (firstn_skipn n l) in H.
  now apply List.NoDup_app_remove_r in H.
Qed.

Lemma filter_all {A} (f : A -> bool) l :
  Forall (fun x => f x = true) l -> List.filter f l = l.
Proof.
  induction 1 as [|x l Hx _ IH]; simpl; [reflexivity|]. now rewrite Hx, IH.
Qed.

Lemma filter_none {A} (f : A -> bool) l :
  Forall (fun x => f x = false) l -> List.filter f l = [].
Proof.
  induction 1 as [|x l Hx _ IH]; simpl; [reflexivity|]. now rewrite Hx.
Qed.

Lemma length_filter_le {A} (f : A -> bool) l :
  (length (List.filter f l) <= length l)%nat.
Proof.
  induction l as [|x l IH]; simpl; [lia|]. destruct (f x); simpl; lia.
Qed.

Section Float32.

Variable F : Type.
Variable fvec_L2sqr : list F -> list F -> F.
Variables flt feq : F -> F -> bool.
Variable FLT_MAX : F.

Local Abbreviation gneutral := (neutral FLT_MAX).
Local Abbreviation ginsert := (heap_insert flt feq).
Local Abbreviation gadd := (add_result flt feq FLT_MAX).
Local Abbreviation gle2 := (le2 flt feq).
Local Abbreviation gelig := (eligible flt FLT_MAX).
Local Abbreviation glabelled := (labelled fvec_L2sqr).
Local Abbreviation gfrom := (labelled_from fvec_L2sqr).
Local Abbreviation gsort := (isort flt feq).
Local Abbreviation granked := (ranked fvec_L2sqr flt feq FLT_MAX).
Local Abbreviation gstored := (stored fvec_L2sqr).

(** *** Ordered insertion *)

Lemma flat_heap_insert_In e h x : In x (ginsert e h) <-> x = e \/ In x h.
Proof.
  induction h as [|y r IH]; simpl.
  - intuition auto.
  - destruct (cmp2 flt feq y e); simpl; [intuition auto|].
    rewrite IH. intuition auto.
Qed.

Lemma flat_heap_insert_perm c s : Permutation (ginsert c s) (c :: s).
Proof.
  induction s as [|x r IH]; simpl; [reflexivity|].
  destruct (cmp2 flt feq x c); [reflexivity|].
  rewrite IH. apply perm_swap.
Qed.

Lemma flat_isort_snoc l c : gsort (l ++ [c]) = ginsert c (gsort l).
Proof. unfold isort. now rewrite fold_left_app. Qed.

Lemma flat_isort_perm l : Permutation (gsort l) l.
Proof.
  induction l as [|c l IH] using rev_ind; [reflexivity|].
  rewrite flat_isort_snoc, flat_heap_insert_perm, IH.
  apply Permutation_cons_append.
Qed.

Lemma flat_isort_In l e : In e (gsort l) <-> In e l.
Proof.
  split; apply Permutation_in; [apply flat_isort_perm|symmetry; apply flat_isort_perm].
Qed.

(** *** The candidates of a store *)

Lemma flat_labelled_from_In q vs e :
  forall s, In e (gfrom s q vs) ->
  exists i v, nth_error vs i = Some v
              /\ e = (fvec_L2sqr q v, Z.of_nat (s + i)).
Proof.
  induction vs as [|v r IH]; intros s H; simpl in H; [contradiction|].
  destruct H as [<-|H].
  - exists 0%nat, v. split; [reflexivity|]. now rewrite Nat.add_0_r.
  - destruct (IH (S s) H) as (i & v' & Hn & ->).
    exists (S i), v'. split; [exact Hn|]. f_equal. f_equal. lia.
Qed.

Lemma flat_In_labelled_from q vs i v :
  forall s, nth_error vs i = Some v ->
  In (fvec_L2sqr q v, Z.of_nat (s + i)) (gfrom s q vs).
Proof.
  revert i. induction vs as [|v0 r IH]; intros i s H.
  - destruct i; discriminate.
  - destruct i as [|i]; simpl in H.
    + injection H as ->. left. simpl. now rewrite Nat.add_0_r.
    + right. replace (s + S i)%nat with (S s + i)%nat by lia.
      now apply (IH i (S s)).
Qed.

Lemma flat_labelled_stored q ix e : In e (glabelled q (xb ix)) <-> gstored q ix e.
Proof.
  split.
  - intros H. destruct (flat_labelled_from_In q (xb ix) e 0 H) as (i & v & Hn & ->).
    now exists i, v.
  - intros (i & v & Hn & ->). apply (flat_In_labelled_from q (xb ix) i v 0 Hn).
Qed.

Lemma labelled_label q vs e :
  In e (glabelled q vs) -> 0 <= snd e < Z.of_nat (length vs).
Proof.
  intros H. destruct (flat_labelled_from_In q vs e 0 H) as (i & v & Hn & ->).
  assert (i < length vs)%nat by (apply nth_error_Some; congruence).
  simpl. lia.
Qed.

Lemma labelled_label_inj q vs e1 e2 :
  In e1 (glabelled q vs) -> In e2 (glabelled q vs) ->
  snd e1 = snd e2 -> e1 = e2.
Proof.
  intros H1 H2 E.
  destruct (flat_labelled_from_In q vs e1 0 H1) as (i1 & v1 & Hn1 & ->).
  destruct (flat_labelled_from_In q vs e2 0 H2) as (i2 & v2 & Hn2 & ->).
  simpl in E. assert (i1 = i2) by lia. subst i2.
  rewrite Hn1 in Hn2. now injection Hn2 as ->.
Qed.

Lemma labels_from q vs :
  forall s, List.map snd (gfrom s q vs)
            = List.map Z.of_nat (seq s (length vs)).
Proof.
  induction vs as [|v r IH]; intros s; simpl; [reflexivity|].
  f_equal. apply IH.
Qed.

Lemma NoDup_labels q vs : List.NoDup (List.map snd (glabelled q vs)).
Proof.
  change (glabelled q vs) with (gfrom 0 q vs). rewrite labels_from.
  generalize 0%nat. induction (length vs) as [|n IH]; intros s; simpl;
    constructor; [|apply IH].
  intros H. apply in_map_iff in H. destruct H as (j & E & Hj).
  apply in_seq in Hj. lia.
Qed.

Lemma length_eligible q vs :
  forall s, length (List.filter gelig (gfrom s q vs))
            = length (List.filter (fun v => flt (fvec_L2sqr q v) FLT_MAX) vs).
Proof.
  induction vs as [|v r IH]; intros s; [reflexivity|].
  change (gfrom s q (v :: r))
    with ((fvec_L2sqr q v, Z.of_nat s) :: gfrom (S s) q r).
  cbn [List.filter]. unfold eligible at 1. cbn [fst].
  destruct (flt (fvec_L2sqr q v) FLT_MAX); cbn [length]; now rewrite IH.
Qed.

Lemma ranked_perm q vs :
  Permutation (granked q vs) (List.filter gelig (glabelled q vs)).
Proof. apply flat_isort_perm. Qed.

Lemma flat_ranked_In q ix e :
  In e (granked q (xb ix)) <-> gstored q ix e /\ gelig e = true.
Proof.
  unfold ranked. now rewrite flat_isort_In, filter_In, flat_labelled_stored.
Qed.

Lemma length_ranked q ix :
  length (granked q (xb ix)) = within_reach fvec_L2sqr flt FLT_MAX q ix.
Proof.
  rewrite (Permutation_length (ranked_perm q (xb ix))).
  apply (length_eligible q (xb ix) 0).
Qed.

Lemma NoDup_ranked q vs : List.NoDup (List.map snd (granked q vs)).
Proof.
  apply (Permutation_NoDup
           (Permutation_map snd (Permutation_sym (ranked_perm q vs)))).
  apply NoDup_map_filter, NoDup_labels.
Qed.

Lemma within_reach_le q ix :
  (within_reach fvec_L2sqr flt FLT_MAX q ix <= ntotal ix)%nat.
Proof. apply length_filter_le. Qed.

Lemma within_reach_all q ix :
  Forall (fun v => flt (fvec_L2sqr q v) FLT_MAX = true) (xb ix) ->
  within_reach fvec_L2sqr flt FLT_MAX q ix = ntotal ix.
Proof. intros H. unfold within_reach. now rewrite filter_all. Qed.

(** *** The comparisons through the numbering *)

Variable key : F -> option Z.
Hypothesis order : ordered_by flt feq FLT_MAX key.

Lemma flt_key x y : flt x y = lt_key (key x) (key y).
Proof. apply order. Qed.

Lemma feq_key x y : feq x y = eq_key (key x) (key y).
Proof. apply order. Qed.

Lemma key_max_some : exists m, key FLT_MAX = Some m.
Proof.
  destruct order as (_ & _ & H).
  destruct (key FLT_MAX) as [m|]; [now exists m|contradiction].
Qed.

Lemma le2_not_gt a b : gle2 a b -> flt (fst b) (fst a) = false.
Proof.
  unfold le2. rewrite !flt_key, feq_key.
  destruct (key (fst a)) as [x|], (key (fst b)) as [y|]; cbn;
    intros [H|[H _]]; try discriminate; apply Z.ltb_ge;
    [apply Z.ltb_lt in H|apply Z.eqb_eq in H]; lia.
Qed.

Lemma eligible_neutral : gelig gneutral = false.
Proof.
  unfold eligible. cbn [fst neutral]. rewrite flt_key.
  destruct key_max_some as [m ->]. cbn. apply Z.ltb_irrefl.
Qed.

Lemma flat_le2_neutral e : gelig e = true -> gle2 e gneutral.
Proof. intros H. left. exact H. Qed.

Lemma le2_neutral_refl : gle2 gneutral gneutral.
Proof.
  right. split; [|reflexivity]. cbn [fst neutral]. rewrite feq_key.
  destruct key_max_some as [m ->]. cbn. apply Z.eqb_refl.
Qed.

Lemma le2_refl_eligible e : gelig e = true -> gle2 e e.
Proof.
  unfold eligible. rewrite flt_key. intros H. right. split; [|reflexivity].
  rewrite feq_key. destruct (key (fst e)) as [a|]; [|discriminate].
  cbn. apply Z.eqb_refl.
Qed.

Section Numbered.

Variable m : Z.
Hypothesis key_max : key FLT_MAX = Some m.

Local Abbreviation zk := (zkey key m).
Local Abbreviation kd := (keyed key m).
Local Abbreviation bel := (below key m).

Lemma zkey_max : zk FLT_MAX = Faiss.FLT_MAX.
Proof. unfold zkey. rewrite key_max. lia. Qed.

Lemma keyed_neutral : kd gneutral = Faiss.neutral.
Proof. unfold keyed, neutral, Faiss.neutral. cbn [fst snd]. now rewrite zkey_max. Qed.

Lemma below_neutral : bel gneutral.
Proof. exists m. split; [exact key_max|lia]. Qed.

Lemma eligible_below e :
  gelig e = true -> exists a, key (fst e) = Some a /\ a < m.
Proof.
  unfold eligible. rewrite flt_key, key_max. unfold lt_key.
  destruct (key (fst e)) as [a|]; [|discriminate].
  intros H. apply Z.ltb_lt in H. now exists a.
Qed.

Lemma eligible_bel e : gelig e = true -> bel e.
Proof.
  intros H. destruct (eligible_below e H) as (a & Ha & Hlt).
  exists a. split; [exact Ha|lia].
Qed.

Lemma flt_below (e t : entry F) :
  bel t -> flt (fst e) (fst t) = (zk (fst e) <? zk (fst t)).
Proof.
  intros (a & Ha & Hle). rewrite flt_key. unfold zkey, lt_key. rewrite Ha.
  destruct (key (fst e)) as [b|].
  - destruct (Z.ltb_spec b a),
      (Z.ltb_spec (b + (Faiss.FLT_MAX - m)) (a + (Faiss.FLT_MAX - m)));
      lia || reflexivity.
  - symmetry. apply Z.ltb_ge. lia.
Qed.

Lemma eligible_keyed e : FaissSpec.eligible (kd e) = gelig e.
Proof.
  unfold FaissSpec.eligible, eligible, keyed. cbn [fst].
  rewrite <- zkey_max. symmetry. apply (flt_below e gneutral below_neutral).
Qed.

Lemma cmp2_keyed a b :
  bel a -> bel b -> cmp2 flt feq a b = Faiss.cmp2 (kd a) (kd b).
Proof.
  intros (x & Hx & _) (y & Hy & _). unfold cmp2, Faiss.cmp2, keyed.
  cbn [fst snd]. rewrite flt_key, feq_key. unfold zkey, lt_key, eq_key.
  rewrite Hx, Hy. f_equal; [|f_equal].
  - destruct (Z.ltb_spec y x),
      (Z.ltb_spec (y + (Faiss.FLT_MAX - m)) (x + (Faiss.FLT_MAX - m)));
      lia || reflexivity.
  - destruct (Z.eqb_spec x y),
      (Z.eqb_spec (x + (Faiss.FLT_MAX - m)) (y + (Faiss.FLT_MAX - m)));
      lia || reflexivity.
Qed.

Lemma le2_keyed a b :
  bel a -> bel b -> FaissSpec.le2 (kd a) (kd b) -> gle2 a b.
Proof.
  intros (x & Hx & _) (y & Hy & _). unfold FaissSpec.le2, le2, keyed.
  cbn [fst snd]. rewrite flt_key, feq_key. unfold zkey, lt_key, eq_key.
  rewrite Hx, Hy. intros [H|[H1 H2]].
  - left. apply Z.ltb_lt. lia.
  - right. split; [apply Z.eqb_eq; lia|exact H2].
Qed.

Lemma heap_insert_keyed e h :
  bel e -> Forall bel h ->
  List.map kd (ginsert e h) = Faiss.heap_insert (kd e) (List.map kd h).
Proof.
  intros He Hh. induction Hh as [|x r Hx Hr IH]; simpl; [reflexivity|].
  rewrite <- (cmp2_keyed x e Hx He).
  destruct (cmp2 flt feq x e); simpl; [reflexivity|]. now rewrite IH.
Qed.

Lemma heap_insert_below e h :
  bel e -> Forall bel h -> Forall bel (ginsert e h).
Proof.
  intros He Hh. apply List.Forall_forall. intros x Hx.
  apply flat_heap_insert_In in Hx. destruct Hx as [->|Hx]; [exact He|].
  rewrite List.Forall_forall in Hh. now apply Hh.
Qed.

Lemma heap_top_keyed h :
  Faiss.heap_top (List.map kd h) = kd (heap_top FLT_MAX h).
Proof.
  unfold Faiss.heap_top, heap_top. rewrite <- keyed_neutral. apply map_last.
Qed.

Lemma heap_top_below h : Forall bel h -> bel (heap_top FLT_MAX h).
Proof.
  intros H. unfold heap_top.
  induction h as [|x r _] using rev_ind; [apply below_neutral|].
  rewrite last_last. rewrite List.Forall_forall in H.
  apply H, in_or_app. right. now left.
Qed.

Lemma add_result_keyed h c :
  Forall bel h ->
  List.map kd (gadd h c) = Faiss.add_result (List.map kd h) (kd c)
  /\ Forall bel (gadd h c)
  /\ (forall e, In e (gadd h c) -> In e h \/ (e = c /\ gelig c = true)).
Proof.
  intros Hh. pose proof (heap_top_below h Hh) as Ht.
  unfold add_result, Faiss.add_result, cmp, Faiss.cmp,
    heap_replace_top, Faiss.heap_replace_top.
  rewrite heap_top_keyed.
  change (fst (kd (heap_top FLT_MAX h))) with (zk (fst (heap_top FLT_MAX h))).
  change (fst (kd c)) with (zk (fst c)).
  rewrite <- (flt_below c _ Ht).
  destruct (flt (fst c) (fst (heap_top FLT_MAX h))) eqn:E.
  - assert (Hc : gelig c = true).
    { destruct Ht as (t & Hkt & Hle). unfold eligible.
      rewrite flt_key in E |- *. rewrite Hkt in E. rewrite key_max.
      unfold lt_key in *. destruct (key (fst c)) as [a|]; [|discriminate].
      apply Z.ltb_lt in E. apply Z.ltb_lt. lia. }
    assert (Hr : Forall bel (removelast h)).
    { apply List.Forall_forall. intros x Hx. rewrite List.Forall_forall in Hh.
      apply Hh. now apply In_removelast. }
    split; [|split].
    + rewrite heap_insert_keyed; [|now apply eligible_bel|exact Hr].
      now rewrite map_removelast.
    + apply heap_insert_below; [now apply eligible_bel|exact Hr].
    + intros e He. apply flat_heap_insert_In in He.
      destruct He as [->|He]; [right; now split|left; now apply In_removelast].
  - split; [reflexivity|]. split; [exact Hh|]. intros e He. now left.
Qed.

Lemma fold_keyed cands :
  forall h, Forall bel h ->
    List.map kd (fold_left gadd cands h)
    = fold_left Faiss.add_result (List.map kd cands) (List.map kd h)
    /\ (forall e, In e (fold_left gadd cands h) ->
                  In e h \/ (In e cands /\ gelig e = true)).
Proof.
  induction cands as [|c r IH]; intros h Hh; cbn [fold_left List.map].
  - split; [reflexivity|]. intros e He. now left.
  - destruct (add_result_keyed h c Hh) as (E & Hb & Hin).
    destruct (IH _ Hb) as (E' & Hin'). rewrite E', E. split; [reflexivity|].
    intros e He. destruct (Hin' e He) as [H|[H He']].
    + destruct (Hin e H) as [H'|[-> Hc]]; [now left|].
      right. split; [now left|exact Hc].
    + right. split; [now right|exact He'].
Qed.

Lemma isort_fold_keyed l :
  forall acc, Forall bel acc -> Forall bel l ->
    List.map kd (fold_left (fun s e => ginsert e s) l acc)
    = fold_left (fun s e => Faiss.heap_insert e s)
                (List.map kd l) (List.map kd acc).
Proof.
  induction l as [|c r IH]; intros acc Ha Hl; cbn [fold_left List.map];
    [reflexivity|].
  inversion Hl as [|? ? Hc Hr]; subst.
  rewrite IH; [|now apply heap_insert_below|exact Hr].
  now rewrite heap_insert_keyed.
Qed.

Lemma isort_keyed l :
  Forall bel l -> List.map kd (gsort l) = RankSpec.isort (List.map kd l).
Proof. intros H. apply (isort_fold_keyed l [] (List.Forall_nil _) H). Qed.

Lemma filter_keyed cands :
  List.map kd (List.filter gelig cands)
  = List.filter FaissSpec.eligible (List.map kd cands).
Proof.
  induction cands as [|c r IH]; cbn [List.filter List.map]; [reflexivity|].
  rewrite eligible_keyed. destruct (gelig c); cbn [List.map]; now rewrite IH.
Qed.

Lemma eligible_all_below cands : Forall bel (List.filter gelig cands).
Proof.
  apply List.Forall_forall. intros e He. apply filter_In in He.
  now apply eligible_bel.
Qed.

Lemma flat_labelled_from_consecutive q vs :
  forall s, FaissSpec.consecutive (Z.of_nat s) (List.map kd (gfrom s q vs)).
Proof.
  induction vs as [|v r IH]; intros s; simpl; [exact I|].
  split; [reflexivity|]. replace (Z.of_nat s + 1) with (Z.of_nat (S s)) by lia.
  apply IH.
Qed.

Lemma sorted_keyed l :
  Forall bel l -> StronglySorted FaissSpec.le2 (List.map kd l) ->
  StronglySorted gle2 l.
Proof.
  induction l as [|a l IH]; intros Hb Hs; [constructor|].
  inversion Hb as [|? ? Ha Hl]; subst. cbn [List.map] in Hs.
  inversion Hs as [|? ? Hs' Hall]; subst.
  constructor; [now apply IH|].
  apply List.Forall_forall. intros b Hb'.
  rewrite List.Forall_forall in Hall, Hl.
  apply le2_keyed; [exact Ha|now apply Hl|]. apply Hall. now apply in_map.
Qed.

(** Two lists of candidates and unfilled slots with the same numbers
    are the same list: a label stands for one candidate only. *)
Lemma keyed_inj (cands l1 l2 : list (entry F)) :
  (forall e1 e2, In e1 cands -> In e2 cands -> snd e1 = snd e2 -> e1 = e2) ->
  (forall e, In e cands -> 0 <= snd e) ->
  Forall (fun e => e = gneutral \/ In e cands) l1 ->
  Forall (fun e => e = gneutral \/ In e cands) l2 ->
  List.map kd l1 = List.map kd l2 -> l1 = l2.
Proof.
  intros Hinj Hpos H1. revert l2.
  induction H1 as [|x l1 Hx _ IH]; intros l2 H2 E.
  - destruct l2; [reflexivity|discriminate].
  - destruct H2 as [|y l2 Hy H2]; [discriminate|].
    cbn [List.map] in E. injection E as _ Es El.
    f_equal; [|now apply IH].
    destruct Hx as [->|Hx], Hy as [->|Hy].
    + reflexivity.
    + specialize (Hpos y Hy). cbn [snd neutral] in Es. lia.
    + specialize (Hpos x Hx). cbn [snd neutral] in Es. lia.
    + now apply Hinj.
Qed.

Lemma knn_ranked_at q vs k :
  (0 < k)%nat ->
  knn_L2sqr fvec_L2sqr flt feq FLT_MAX q vs k
  = firstn k (granked q vs ++ repeat gneutral k).
Proof.
  intros Hk. unfold knn_L2sqr, ranked.
  pose proof (flat_labelled_from_consecutive q vs 0) as Hcons.
  pose proof (labelled_label_inj q vs) as Hinj.
  pose proof (labelled_label q vs) as Hlab.
  change (gfrom 0 q vs) with (glabelled q vs) in Hcons.
  remember (glabelled q vs) as cands eqn:Ec. clear Ec.
  assert (Hstart : Forall bel (heap_heapify FLT_MAX k)).
  { apply List.Forall_forall. intros e He. apply repeat_spec in He.
    subst. apply below_neutral. }
  destruct (fold_keyed cands _ Hstart) as (E & Hin).
  apply (keyed_inj cands).
  - exact Hinj.
  - intros e He. now apply Hlab.
  - apply List.Forall_forall. intros e He. destruct (Hin e He) as [H|[H _]].
    + left. now apply repeat_spec in H.
    + now right.
  - apply List.Forall_forall. intros e He. apply In_firstn_all in He.
    apply in_app_or in He. destruct He as [He|He].
    + right. apply flat_isort_In, filter_In in He. tauto.
    + left. now apply repeat_spec in He.
  - rewrite E. unfold heap_heapify.
    rewrite <- List.firstn_map, List.map_app, !map_repeat, keyed_neutral.
    rewrite isort_keyed by apply eligible_all_below. rewrite filter_keyed.
    pose proof (RankFacts.rank_fold k Hk (List.map kd cands) 0 []) as H.
    simpl in H. rewrite RankFacts.firstn_repeat_le in H by lia.
    apply H; [contradiction|lia|exact Hcons].
Qed.

Lemma ranked_sorted_at q vs : StronglySorted gle2 (granked q vs).
Proof.
  unfold ranked. apply sorted_keyed.
  - apply List.Forall_forall. intros e He. apply flat_isort_In, filter_In in He.
    now apply eligible_bel.
  - rewrite isort_keyed by apply eligible_all_below.
    apply RankFacts.isort_sorted.
Qed.

End Numbered.

(** The result of the scan is the sorted prefix, padded. *)
Lemma flat_knn_ranked q vs k :
  (0 < k)%nat ->
  knn_L2sqr fvec_L2sqr flt feq FLT_MAX q vs k
  = firstn k (granked q vs ++ repeat gneutral k).
Proof. destruct key_max_some as [m Hm]. now apply (knn_ranked_at m Hm). Qed.

Lemma ranked_sorted q vs : StronglySorted gle2 (granked q vs).
Proof. destruct key_max_some as [m Hm]. now apply (ranked_sorted_at m Hm). Qed.

Lemma padded_sorted q vs j :
  StronglySorted gle2 (granked q vs ++ repeat gneutral j).
Proof.
  apply sorted_app.
  - apply ranked_sorted.
  - apply sorted_repeat, le2_neutral_refl.
  - intros x y Hx Hy. apply repeat_spec in Hy. subst y. apply flat_le2_neutral.
    apply flat_isort_In, filter_In in Hx. tauto.
Qed.

Lemma sorted_distances r :
  StronglySorted gle2 r ->
  StronglySorted (fun a b => flt b a = false) (List.map fst r).
Proof.
  induction 1 as [|y r Hr IH Hy]; simpl; constructor; [exact IH|].
  apply List.Forall_forall. intros z Hz. apply in_map_iff in Hz.
  destruct Hz as (e & <- & He). rewrite List.Forall_forall in Hy.
  now apply le2_not_gt, Hy.
Qed.

(** The results split into the kept vectors and the unfilled slots. *)
Lemma firstn_padded (R : list (entry F)) k :
  firstn k (R ++ repeat gneutral k)
  = firstn k R ++ repeat gneutral (k - length R).
Proof.
  rewrite firstn_app. f_equal. apply RankFacts.firstn_repeat_le. lia.
Qed.

End Float32.

End FlatFacts.

(** ** The integer store as an instance of [FlatL2] *)

Module IntegerFacts.
Import FlatSpec.

(** The integers are ordered by themselves. *)
Lemma integers_ordered : ordered_by Z.ltb Z.eqb Faiss.FLT_MAX Some.
Proof. split; [|split]; [reflexivity|reflexivity|discriminate]. Qed.

(** The scan of [FlatL2] over the integers is the scan of [Faiss]. *)
Lemma knn_integers q vs k :
  FlatL2.knn_L2sqr Faiss.fvec_L2sqr Z.ltb Z.eqb Faiss.FLT_MAX q vs k
  = Faiss.knn_L2sqr q vs k.
Proof. reflexivity. Qed.

(** [FAISSIndexM.search] is [FlatL2.FAISSIndex_search] over the
    integers, every array granted. *)
Lemma search_integers w q k :
  FAISSIndexM.search q k w
  = (w, snd (FlatL2.FAISSIndex_search Faiss.fvec_L2sqr Z.ltb Z.eqb
               Faiss.FLT_MAX (fun _ => OK tt) q k
               (over_integers (self_index w)))).
Proof.
  unfold FAISSIndexM.search, FlatL2.FAISSIndex_search, Faiss.search,
    FlatL2.search, bind, get, lift, ret, over_integers.
  cbn [FlatL2.index FlatL2.d FlatL2.xb].
  destruct (negb (length q =? Faiss.d (index (self_index w)))%nat);
    [reflexivity|].
  destruct (negb (0 <? k)); reflexivity.
Qed.

End IntegerFacts.

(** ** binary32 is ordered *)

Module Binary32Facts.
Import SpecFloat Binary32 FlatSpec.

Lemma digits2_pos_bound m : Zpos m < 2 ^ Zpos (digits2_pos m).
Proof.
  induction m as [p IH|p IH|]; cbn [digits2_pos].
  - rewrite Pos2Z.inj_succ, Z.pow_succ_r by lia. lia.
  - rewrite Pos2Z.inj_succ, Z.pow_succ_r by lia. lia.
  - reflexivity.
Qed.

(** A canonical number has a mantissa below [2^24] and an exponent
    from [-149] to [104]. *)
Lemma float32_bounds s m e :
  is_float32 (S754_finite s m e) = true ->
  0 < Zpos m < 16777216 /\ -149 <= e <= 104.
Proof.
  unfold is_float32, valid_binary, bounded, canonical_mantissa, fexp, emin,
    prec, emax.
  intros H. apply andb_true_iff in H. destruct H as [H1 H2].
  apply Z.eqb_eq in H1. apply Z.leb_le in H2.
  pose proof (digits2_pos_bound m) as Hd.
  assert (Hle : Zpos (digits2_pos m) <= 24) by lia.
  pose proof (Z.pow_le_mono_r 2 _ 24 ltac:(lia) Hle) as Hp.
  change (2 ^ 24) with 16777216 in Hp. lia.
Qed.

Ltac float32_bounds :=
  repeat match goal with
         | H : is_float32 (S754_finite _ _ _) = true |- _ =>
             apply float32_bounds in H
         | H : is_float32 _ = true |- _ => clear H
         end.

Lemma binary32_flt x y : flt x y = lt_key (key x) (key y).
Proof.
  unfold flt, key.
  destruct (is_float32 x) eqn:Vx; [|reflexivity].
  destruct (is_float32 y) eqn:Vy; [|destruct x; reflexivity].
  cbn [andb]. unfold SFltb, SFcompare, emin, prec, emax.
  change (2 ^ 24) with 16777216. change (2 ^ 40) with 1099511627776.
  destruct x as [sx|sx| |sx mx ex], y as [sy|sy| |sy my ey]; float32_bounds;
    try destruct sx; try destruct sy; cbn [lt_key]; try reflexivity;
    try (symmetry; apply Z.ltb_lt; lia); try (symmetry; apply Z.ltb_ge; lia).
  all: change (Pos.compare_cont Eq mx my) with (Pos.compare mx my).
  all: destruct (Z.compare_spec ex ey), (Pos.compare_spec mx my); cbn;
    try (symmetry; apply Z.ltb_lt; lia); try (symmetry; apply Z.ltb_ge; lia).
Qed.

Lemma binary32_feq x y : feq x y = eq_key (key x) (key y).
Proof.
  unfold feq, key.
  destruct (is_float32 x) eqn:Vx; [|reflexivity].
  destruct (is_float32 y) eqn:Vy; [|destruct x; reflexivity].
  cbn [andb]. unfold SFeqb, SFcompare, emin, prec, emax.
  change (2 ^ 24) with 16777216. change (2 ^ 40) with 1099511627776.
  destruct x as [sx|sx| |sx mx ex], y as [sy|sy| |sy my ey]; float32_bounds;
    try destruct sx; try destruct sy; cbn [eq_key]; try reflexivity;
    try (symmetry; apply Z.eqb_eq; lia); try (symmetry; apply Z.eqb_neq; lia).
  all: change (Pos.compare_cont Eq mx my) with (Pos.compare mx my).
  all: destruct (Z.compare_spec ex ey), (Pos.compare_spec mx my); cbn;
    try (symmetry; apply Z.eqb_eq; lia); try (symmetry; apply Z.eqb_neq; lia).
Qed.

(** The comparisons of binary32 are what [FlatL2] needs. *)
Lemma binary32_ordered : ordered_by flt feq FLT_MAX key.
Proof.
  split; [exact binary32_flt|]. split; [exact binary32_feq|discriminate].
Qed.

(** The reference kernel in binary32 never gives a negative distance,
    and gives 0 for a vector of finite components against itself. *)

Lemma binary_round_aux_nonneg m e l :
  nonneg (binary_round_aux prec emax false m e l) = true.
Proof.
  unfold binary_round_aux.
  destruct (shr_fexp prec emax m e l) as [mrs' e'].
  destruct (shr_fexp prec emax _ e' loc_Exact) as [mrs'' e''].
  destruct (shr_m mrs''); [reflexivity| |reflexivity].
  now destruct (e'' <=? emax - prec).
Qed.

Lemma SFmul_square_nonneg t : nonneg (SFmul prec emax t t) = true.
Proof.
  destruct t as [s|s| |s m e]; cbn [SFmul]; try reflexivity.
  - now destruct s.
  - replace (xorb s s) with false by now destruct s.
    apply binary_round_aux_nonneg.
Qed.

Lemma binary_round_nonneg m e : nonneg (binary_round prec emax false m e) = true.
Proof.
  unfold binary_round. destruct (shl_align m e _) as [mz ez].
  apply binary_round_aux_nonneg.
Qed.

Lemma SFadd_nonneg a b :
  nonneg a = true -> nonneg b = true -> nonneg (SFadd prec emax a b) = true.
Proof.
  destruct a as [sa|sa| |sa ma ea], b as [sb|sb| |sb mb eb];
    cbn [nonneg SFadd]; intros Ha Hb; try reflexivity; try assumption.
  - now destruct sa, sb.
  - apply negb_true_iff in Ha, Hb. subst. reflexivity.
  - apply negb_true_iff in Ha, Hb. subst sa sb. cbn [cond_Zopp].
    destruct (shl_align ma ea (Z.min ea eb)) as [ma' ea'].
    destruct (shl_align mb eb (Z.min ea eb)) as [mb' eb'].
    cbn [fst Z.add binary_normalize]. apply binary_round_nonneg.
Qed.

Lemma fvec_L2sqr_nonneg x y : nonneg (fvec_L2sqr x y) = true.
Proof.
  unfold fvec_L2sqr.
  assert (H : forall l acc, nonneg acc = true ->
            nonneg (fold_left
                      (fun res p =>
                         let tmp := SFsub prec emax (fst p) (snd p) in
                         SFadd prec emax res (SFmul prec emax tmp tmp))
                      l acc) = true).
  { induction l as [|p l IH]; intros acc Hacc; [exact Hacc|].
    cbn [fold_left]. apply IH. cbv zeta.
    apply SFadd_nonneg; [exact Hacc|apply SFmul_square_nonneg]. }
  now apply H.
Qed.

Lemma nonneg_not_negative r z : nonneg r = true -> flt r (S754_zero z) = false.
Proof.
  unfold flt. destruct (is_float32 r); [|reflexivity].
  destruct r as [s|s| |s m e]; cbn; try reflexivity;
    intros H; apply negb_true_iff in H; now subst.
Qed.

Lemma SFsub_self x : finite x = true -> SFsub prec emax x x = S754_zero false.
Proof.
  destruct x as [s|s| |s m e]; try discriminate; intros _; cbn [SFsub].
  - now destruct s.
  - unfold shl_align. rewrite Z.min_id, Z.sub_diag. cbn [fst].
    reflexivity.
Qed.

Lemma fvec_L2sqr_self q :
  Forall (fun x => finite x = true) q -> fvec_L2sqr q q = S754_zero false.
Proof.
  unfold fvec_L2sqr. induction 1 as [|x q Hx _ IH]; [reflexivity|].
  cbn [combine fold_left fst snd]. cbv zeta. rewrite (SFsub_self x Hx).
  exact IH.
Qed.

(** A vector of finite components is nearest to itself. *)
Lemma binary32_self_nearest q :
  Forall (fun x => finite x = true) q ->
  flt (fvec_L2sqr q q) FLT_MAX = true
  /\ forall v, flt (fvec_L2sqr q v) (fvec_L2sqr q q) = false.
Proof.
  intros H. rewrite (fvec_L2sqr_self q H). split; [reflexivity|].
  intros v. apply nonneg_not_negative, fvec_L2sqr_nonneg.
Qed.

End Binary32Facts.

(** ** [search] over float32 values *)

Section FlatSearch.
Import FlatL2 FlatSpec FlatFacts.

Variable F : Type.
Variable fvec_L2sqr : list F -> list F -> F.
Variables flt feq : F -> F -> bool.
Variable FLT_MAX : F.
Variable np_empty : Z -> outcome unit.
Variable key : F -> option Z.
Hypothesis order : ordered_by flt feq FLT_MAX key.

Local Abbreviation fsearch :=
  (FAISSIndex_search fvec_L2sqr flt feq FLT_MAX np_empty).
Local Abbreviation fneutral := (neutral FLT_MAX).
Local Abbreviation fle2 := (le2 flt feq).
Local Abbreviation feligible := (eligible flt FLT_MAX).
Local Abbreviation franked := (ranked fvec_L2sqr flt feq FLT_MAX).
Local Abbreviation fstored := (stored fvec_L2sqr).
Local Abbreviation freach := (within_reach fvec_L2sqr flt FLT_MAX).

Lemma flat_search_bad_k (self : FAISSIndex F) q k :
  length q = d (index self) -> k <= 0 ->
  fsearch q k self = (self, Raise AssertionError).
Proof.
  intros Hq Hk. unfold FAISSIndex_search, search, bind, get, lift, ret.
  apply Nat.eqb_eq in Hq. rewrite Hq. apply Z.ltb_ge in Hk. now rewrite Hk.
Qed.

Lemma flat_search_no_array (self : FAISSIndex F) q k e :
  length q = d (index self) -> 0 < k -> np_empty k = Raise e ->
  fsearch q k self = (self, Raise e).
Proof.
  intros Hq Hk He. unfold FAISSIndex_search, search, bind, get, lift, ret.
  apply Nat.eqb_eq in Hq. rewrite Hq. apply Z.ltb_lt in Hk.
  now rewrite Hk, He.
Qed.

Lemma flat_search_ranked (self : FAISSIndex F) q k :
  length q = d (index self) -> 0 < k -> np_empty k = OK tt ->
  fsearch q k self
  = (self, OK ([List.map fst (firstn (Z.to_nat k)
                                (franked q (xb (index self))
                                 ++ repeat fneutral (Z.to_nat k)))],
               [List.map snd (firstn (Z.to_nat k)
                                (franked q (xb (index self))
                                 ++ repeat fneutral (Z.to_nat k)))])).
Proof.
  intros Hq Hk Ha. unfold FAISSIndex_search, search, bind, get, lift, ret.
  apply Nat.eqb_eq in Hq. rewrite Hq. apply Z.ltb_lt in Hk.
  rewrite Hk, Ha. cbn [negb].
  now rewrite (flat_knn_ranked F fvec_L2sqr flt feq FLT_MAX key order) by lia.
Qed.

Lemma flat_search_split (self : FAISSIndex F) q k :
  length q = d (index self) -> 0 < k -> np_empty k = OK tt ->
  let kept := firstn (Z.to_nat k) (franked q (xb (index self))) in
  let pad := (Z.to_nat k - freach q (index self))%nat in
  fsearch q k self
  = (self, OK ([List.map fst kept ++ repeat FLT_MAX pad],
               [List.map snd kept ++ repeat (-1) pad])).
Proof.
  intros Hq Hk Ha kept pad. rewrite (flat_search_ranked self q k Hq Hk Ha).
  rewrite firstn_padded, length_ranked. fold kept. fold pad.
  now rewrite !List.map_app, !map_repeat.
Qed.

Lemma kept_stored (self : FAISSIndex F) q n :
  Forall (fun e => fstored q (index self) e /\ feligible e = true)
         (firstn n (franked q (xb (index self)))).
Proof.
  apply List.Forall_forall. intros e He. apply In_firstn_all in He.
  now apply flat_ranked_In in He.
Qed.

(** C3 (as amended).  For a query of the dimension of the index,
    [search] rejects [k <= 0]; for [k >= 1] it fails only when the
    result arrays of [k] slots cannot be created, with the error of
    their creation; otherwise it returns exactly [k] distances and [k]
    labels, never fewer.  When [c] of the [n] stored vectors are at a
    distance below [FLT_MAX] (all of them, unless a distance is
    [FLT_MAX], infinite or NaN), the first [min k c] labels are
    distinct positions of the store and the other [k - c] slots hold
    the label [-1] with the distance [FLT_MAX]; on an empty index all
    [k] slots do. *)
Theorem search_fills_k_slots (self : FAISSIndex F) (q : list F) (k : Z) :
  length q = d (index self) ->
  let n := ntotal (index self) in
  let c := freach q (index self) in
  (k <= 0 -> fsearch q k self = (self, Raise AssertionError))
  /\ (forall e, 0 < k -> np_empty k = Raise e ->
                fsearch q k self = (self, Raise e))
  /\ (0 < k -> np_empty k = OK tt ->
      exists kept,
        fsearch q k self
        = (self, OK ([List.map fst kept ++ repeat FLT_MAX (Z.to_nat k - c)],
                     [List.map snd kept ++ repeat (-1) (Z.to_nat k - c)]))
        /\ length kept = Nat.min (Z.to_nat k) c
        /\ (length kept + (Z.to_nat k - c) = Z.to_nat k)%nat
        /\ Forall (fun e => 0 <= snd e < Z.of_nat n) kept
        /\ List.NoDup (List.map snd kept))
  /\ (0 < k -> np_empty k = OK tt -> n = 0%nat ->
      fsearch q k self
      = (self, OK ([repeat FLT_MAX (Z.to_nat k)], [repeat (-1) (Z.to_nat k)])))
  /\ (c <= n)%nat
  /\ (Forall (fun v => flt (fvec_L2sqr q v) FLT_MAX = true) (xb (index self)) ->
      c = n).
Proof.
  intros Hq n c.
  pose proof (within_reach_le F fvec_L2sqr flt FLT_MAX q (index self)) as Hcn.
  fold n in Hcn. fold c in Hcn.
  split; [now apply flat_search_bad_k|].
  split; [intros e Hk He; now apply flat_search_no_array|].
  split; [|split; [|split; [exact Hcn|apply within_reach_all]]].
  - intros Hk Ha. exists (firstn (Z.to_nat k) (franked q (xb (index self)))).
    assert (Hlen : length (firstn (Z.to_nat k) (franked q (xb (index self))))
                   = Nat.min (Z.to_nat k) c).
    { now rewrite length_firstn, length_ranked. }
    split; [now apply flat_search_split|]. split; [exact Hlen|].
    split.
    { replace (length _) with (Nat.min (Z.to_nat k) c)
        by (symmetry; exact Hlen).
      lia. }
    split.
    + eapply List.Forall_impl; [|apply kept_stored].
      intros e [(i & v & Hv & ->) _]. cbn [snd].
      assert (i < n)%nat by (apply nth_error_Some; congruence). lia.
    + rewrite <- List.firstn_map. apply NoDup_firstn, NoDup_ranked.
  - intros Hk Ha Hn. rewrite (flat_search_split self q k Hq Hk Ha).
    fold c. assert (Hc : c = 0%nat) by lia. rewrite Hc, Nat.sub_0_r.
    assert (Hr : franked q (xb (index self)) = []).
    { apply length_zero_iff_nil. rewrite length_ranked. exact Hc. }
    rewrite Hr. now destruct (Z.to_nat k).
Qed.

(** C4 (as amended).  For a query of the dimension of the index and a
    [k >= 1] for which the result arrays can be created, the [k]
    results of [search] are in ascending order of distance (no result
    is at a smaller distance than an earlier one), equal distances in
    ascending order of label; each result is either a stored vector at
    a distance below [FLT_MAX], with its position as label and the
    distance that the library computes as distance, or an unfilled
    slot [(FLT_MAX, -1)]; no stored vector is returned twice; every
    stored vector below [FLT_MAX] that is not among the results comes
    after all of them in that order, so the nearest are the ones
    returned and on equal distances the earlier one wins.  When [k]
    does not exceed the number of stored vectors below [FLT_MAX] there
    is no unfilled slot, and with as many chunks as vectors every
    label then selects the chunk at its position. *)
Theorem search_nearest_first (self : FAISSIndex F) (q : list F) (k : Z) :
  length q = d (index self) -> 0 < k -> np_empty k = OK tt ->
  let ix := index self in
  exists r,
    fsearch q k self = (self, OK ([List.map fst r], [List.map snd r]))
    /\ length r = Z.to_nat k
    /\ StronglySorted fle2 r
    /\ StronglySorted (fun a b => flt b a = false) (List.map fst r)
    /\ Forall (fun e => e = fneutral
                        \/ (fstored q ix e /\ feligible e = true)) r
    /\ List.NoDup (List.map snd (List.filter feligible r))
    /\ (forall e, fstored q ix e -> feligible e = true ->
                  In e r \/ Forall (fun x => fle2 x e) r)
    /\ ((Z.to_nat k <= freach q ix)%nat ->
        Forall (fstored q ix) r
        /\ (ntotal ix = length (chunks self) ->
            Forall (fun e =>
                      exists c,
                        getitem (chunks self) (snd e) = OK c
                        /\ nth_error (chunks self) (Z.to_nat (snd e)) = Some c)
                   r)).
Proof.
  intros Hq Hk Ha ix.
  set (R := franked q (xb ix)).
  set (n := Z.to_nat k).
  exists (firstn n (R ++ repeat fneutral n)).
  pose proof (padded_sorted F fvec_L2sqr flt feq FLT_MAX key order q (xb ix) n)
    as Hpad. fold R in Hpad.
  assert (Hsorted : StronglySorted fle2 (firstn n (R ++ repeat fneutral n)))
    by now apply sorted_firstn.
  assert (Hkept : Forall (fun e => fstored q ix e /\ feligible e = true)
                         (firstn n R)) by apply kept_stored.
  split; [now apply flat_search_ranked|].
  split; [rewrite length_firstn, length_app, repeat_length; lia|].
  split; [exact Hsorted|].
  split; [now apply (sorted_distances F flt feq FLT_MAX key order)|].
  rewrite firstn_padded. split; [|split; [|split]].
  - apply Forall_app. split.
    + eapply List.Forall_impl; [|exact Hkept]. intros e He. now right.
    + apply List.Forall_forall. intros e He. apply repeat_spec in He. now left.
  - rewrite List.filter_app, filter_all, filter_none, app_nil_r.
    + rewrite <- List.firstn_map. apply NoDup_firstn, NoDup_ranked.
    + apply List.Forall_forall. intros e He. apply repeat_spec in He. subst e.
      apply (eligible_neutral F flt feq FLT_MAX key order).
    + eapply List.Forall_impl; [|exact Hkept]. now intros e [_ He].
  - intros e Hst Hel.
    assert (HeR : In e R) by (apply flat_ranked_In; now split).
    rewrite <- (firstn_skipn n R) in HeR. apply in_app_or in HeR.
    destruct HeR as [He|He]; [left; apply in_or_app; now left|right].
    assert (Hlong : (n < length R)%nat).
    { destruct (le_lt_dec (length R) n) as [Hle|Hlt]; [|exact Hlt].
      rewrite skipn_all2 in He by exact Hle. contradiction. }
    replace (n - length R)%nat with 0%nat by lia. cbn [repeat].
    rewrite app_nil_r.
    pose proof (ranked_sorted F fvec_L2sqr flt feq FLT_MAX key order q (xb ix))
      as HsR. fold R in HsR. rewrite <- (firstn_skipn n R) in HsR.
    apply sorted_app_inv in HsR. destruct HsR as (_ & _ & Hab).
    apply List.Forall_forall. intros x Hx. now apply Hab.
  - intros Hkn.
    assert (E0 : (n - length R)%nat = 0%nat).
    { unfold R. rewrite length_ranked. lia. }
    rewrite E0. cbn [repeat]. rewrite app_nil_r.
    assert (Hst : Forall (fstored q ix) (firstn n R)).
    { eapply List.Forall_impl; [|exact Hkept]. now intros e [He _]. }
    split; [exact Hst|]. intros Hal.
    eapply List.Forall_impl; [|exact Hst]. intros e (i & v & Hn & ->).
    cbn [snd].
    assert (Hi : (i < length (chunks self))%nat).
    { rewrite <- Hal. unfold ntotal. apply nth_error_Some. congruence. }
    destruct (nth_error (chunks self) i) as [c|] eqn:Ec.
    + exists c. split; [now apply getitem_position|]. now rewrite Nat2Z.id.
    + apply nth_error_None in Ec. lia.
Qed.

(** X5.  For a query of the dimension of the index and a [k >= 1]
    for which the result arrays can be created, [search] returns the
    first [k] entries of the list of the stored vectors at a distance
    below [FLT_MAX], each once, sorted by the distance that the
    library computes and, at equal distance, by position, followed by
    unfilled slots [(FLT_MAX, -1)] when there are fewer than [k]. *)
Theorem search_is_sorted_prefix (self : FAISSIndex F) (q : list F) (k : Z) :
  length q = d (index self) -> 0 < k -> np_empty k = OK tt ->
  let ix := index self in
  let r := firstn (Z.to_nat k)
             (franked q (xb ix) ++ repeat fneutral (Z.to_nat k)) in
  fsearch q k self = (self, OK ([List.map fst r], [List.map snd r]))
  /\ StronglySorted fle2 (franked q (xb ix))
  /\ Permutation (franked q (xb ix))
                 (List.filter feligible (labelled fvec_L2sqr q (xb ix)))
  /\ (forall e, In e (franked q (xb ix))
                <-> fstored q ix e /\ feligible e = true).
Proof.
  intros Hq Hk Ha ix r. split; [|split; [|split]].
  - now apply flat_search_ranked.
  - apply (ranked_sorted F fvec_L2sqr flt feq FLT_MAX key order).
  - apply ranked_perm.
  - intros e. apply flat_ranked_In.
Qed.

(** X6.  Asking for more results never changes the earlier ones: for
    [1 <= k <= k'], when the result arrays can be created for both,
    the results of [search] for [k] are the first [k] results of
    [search] for [k']. *)
Theorem search_prefix_stable (self : FAISSIndex F) (q : list F) (k k' : Z) :
  length q = d (index self) -> 0 < k -> k <= k' ->
  np_empty k = OK tt -> np_empty k' = OK tt ->
  exists r',
    fsearch q k' self = (self, OK ([List.map fst r'], [List.map snd r']))
    /\ fsearch q k self
       = (self, OK ([List.map fst (firstn (Z.to_nat k) r')],
                    [List.map snd (firstn (Z.to_nat k) r')])).
Proof.
  intros Hq Hk Hkk Ha Ha'.
  pose proof (flat_search_ranked self q k' Hq ltac:(lia) Ha') as E'.
  pose proof (flat_search_ranked self q k Hq Hk Ha) as E.
  eexists. split; [exact E'|]. rewrite E. do 4 f_equal.
  - rewrite firstn_firstn. replace (Nat.min (Z.to_nat k) (Z.to_nat k'))
      with (Z.to_nat k) by lia.
    rewrite !firstn_app. f_equal.
    now rewrite !RankFacts.firstn_repeat_le by lia.
  - rewrite firstn_firstn. replace (Nat.min (Z.to_nat k) (Z.to_nat k'))
      with (Z.to_nat k) by lia.
    rewrite !firstn_app. f_equal.
    now rewrite !RankFacts.firstn_repeat_le by lia.
Qed.

(** X7.  A query that is itself stored at position [i] comes back
    first, if its distance to itself is below [FLT_MAX] and no stored
    vector is at a smaller distance (with IEEE arithmetic the distance
    of a finite vector to itself is 0 and no distance is negative): the
    first result of [search] has a distance equal to that of the query
    to itself and a label that is a position not after [i], which
    holds a vector at that distance. *)
Theorem search_finds_stored_query (self : FAISSIndex F) (q : list F) (k : Z)
    (i : nat) :
  length q = d (index self) -> 0 < k -> np_empty k = OK tt ->
  nth_error (xb (index self)) i = Some q ->
  flt (fvec_L2sqr q q) FLT_MAX = true ->
  (forall v, In v (xb (index self)) ->
             flt (fvec_L2sqr q v) (fvec_L2sqr q q) = false) ->
  exists l ds ls v,
    fsearch q k self = (self, OK ([fvec_L2sqr q v :: ds], [l :: ls]))
    /\ 0 <= l <= Z.of_nat i
    /\ nth_error (xb (index self)) (Z.to_nat l) = Some v
    /\ feq (fvec_L2sqr q v) (fvec_L2sqr q q) = true.
Proof.
  intros Hq Hk Ha Hi Hself Hmin.
  pose proof (flat_search_ranked self q k Hq Hk Ha) as E.
  set (ix := index self) in *.
  pose proof (ranked_sorted F fvec_L2sqr flt feq FLT_MAX key order q (xb ix))
    as Hs.
  pose proof (flat_ranked_In F fvec_L2sqr flt feq FLT_MAX q ix) as Hin.
  assert (Hown : In (fvec_L2sqr q q, Z.of_nat i) (franked q (xb ix))).
  { apply Hin. split; [|exact Hself]. now exists i, q. }
  destruct (franked q (xb ix)) as [|h rest] eqn:Er; [contradiction|].
  assert (Hh : fle2 h (fvec_L2sqr q q, Z.of_nat i)).
  { destruct Hown as [->|Hrest].
    - now apply (le2_refl_eligible F flt feq FLT_MAX key order).
    - inversion Hs as [|? ? _ Hall]; subst. rewrite List.Forall_forall in Hall.
      now apply Hall. }
  assert (Hst : fstored q ix h) by (apply (proj1 (Hin h)); now left).
  destruct Hst as (j & v & Hv & ->).
  destruct Hh as [Hlt|[Heq Hle]].
  { cbn [fst] in Hlt. rewrite (Hmin v) in Hlt by (eapply nth_error_In, Hv).
    discriminate. }
  cbn [fst snd] in Heq, Hle.
  destruct (Z.to_nat k) as [|n] eqn:En; [lia|].
  exists (Z.of_nat j),
    (List.map fst (firstn n (rest ++ repeat fneutral (S n)))),
    (List.map snd (firstn n (rest ++ repeat fneutral (S n)))), v.
  split; [exact E|]. split; [lia|]. split; [now rewrite Nat2Z.id|exact Heq].
Qed.

End FlatSearch.

(** *** Evaluations over binary32 *)

(** C3 (as stated) fails: with [k = 3] an index of one vector returns
    three results, and an empty index returns three results as well. *)
Lemma search_beyond_size_returns_k :
  (FlatL2.ntotal (FlatL2.index (Demo32.index_of 1 [Demo32.vec [5]]
                                  [Py.lit "a"])) = 1%nat
   /\ snd (Demo32.search (Demo32.vec [0]) 3
             (Demo32.index_of 1 [Demo32.vec [5]] [Py.lit "a"]))
      = OK ([[Binary32.of_Z 25; Binary32.FLT_MAX; Binary32.FLT_MAX]],
            [[0; -1; -1]]))
  /\ snd (Demo32.search (Demo32.vec [0]) 3 (Demo32.index_of 1 [] []))
     = OK ([[Binary32.FLT_MAX; Binary32.FLT_MAX; Binary32.FLT_MAX]],
           [[-1; -1; -1]]).
Proof. vm_compute. auto. Qed.

(** C4 (as stated) fails: with [k = 2] an index of one vector returns
    the label [-1], which is the position of no stored chunk, with a
    distance that is the distance of no stored vector. *)
Lemma search_returns_unfilled_label :
  snd (Demo32.search (Demo32.vec [0]) 2
         (Demo32.index_of 1 [Demo32.vec [5]] [Py.lit "a"]))
  = OK ([[Binary32.of_Z 25; Binary32.FLT_MAX]], [[0; -1]])
  /\ ~ Forall (fun l => 0 <= l
                        < Z.of_nat (FlatL2.ntotal
                                      (FlatL2.index
                                         (Demo32.index_of 1 [Demo32.vec [5]]
                                            [Py.lit "a"]))))
              [0; -1]
  /\ ~ FlatSpec.stored Binary32.fvec_L2sqr (Demo32.vec [0])
        (FlatL2.index (Demo32.index_of 1 [Demo32.vec [5]] [Py.lit "a"]))
        (Binary32.FLT_MAX, -1).
Proof.
  split; [reflexivity|]. split.
  - intros H. inversion H as [|? ? _ H']; subst.
    inversion H' as [|? ? Hbad _]; subst. lia.
  - intros (i & v & _ & E). injection E as _ E. lia.
Qed.

Lemma search_fills_k_slots_witness :
  exists kept,
    Demo32.search (Demo32.vec [0]) 4
      (Demo32.index_of 1
         [Demo32.vec [5]; [SpecFloat.S754_nan]; Demo32.vec [2]]
         [Py.lit "a"; Py.lit "b"; Py.lit "c"])
    = (Demo32.index_of 1
         [Demo32.vec [5]; [SpecFloat.S754_nan]; Demo32.vec [2]]
         [Py.lit "a"; Py.lit "b"; Py.lit "c"],
       OK ([List.map fst kept ++ repeat Binary32.FLT_MAX 2],
           [List.map snd kept ++ repeat (-1) 2]))
    /\ length kept = 2%nat
    /\ Forall (fun e => 0 <= snd e < 3) kept.
Proof.
  destruct (search_fills_k_slots Binary32.float32 Binary32.fvec_L2sqr
              Binary32.flt Binary32.feq Binary32.FLT_MAX Demo32.np_empty
              Binary32.key Binary32Facts.binary32_ordered
              (Demo32.index_of 1
                 [Demo32.vec [5]; [SpecFloat.S754_nan]; Demo32.vec [2]]
                 [Py.lit "a"; Py.lit "b"; Py.lit "c"])
              (Demo32.vec [0]) 4 eq_refl)
    as (_ & _ & H & _).
  destruct (H eq_refl eq_refl) as (kept & E & Hl & _ & Hlab & _).
  exists kept. split; [exact E|]. split; [exact Hl|exact Hlab].
Defined.

Lemma search_nearest_first_witness :
  exists r,
    Demo32.search (Demo32.vec [0]) 2
      (Demo32.index_of 1
         [Demo32.vec [5]; [SpecFloat.S754_nan]; Demo32.vec [1]; Demo32.vec [-1]]
         [Py.lit "a"; Py.lit "b"; Py.lit "c"; Py.lit "d"])
    = (Demo32.index_of 1
         [Demo32.vec [5]; [SpecFloat.S754_nan]; Demo32.vec [1]; Demo32.vec [-1]]
         [Py.lit "a"; Py.lit "b"; Py.lit "c"; Py.lit "d"],
       OK ([List.map fst r], [List.map snd r]))
    /\ StronglySorted (FlatSpec.le2 Binary32.flt Binary32.feq) r
    /\ Forall (FlatSpec.stored Binary32.fvec_L2sqr (Demo32.vec [0])
                 {| FlatL2.d := 1;
                    FlatL2.xb := [Demo32.vec [5]; [SpecFloat.S754_nan];
                                  Demo32.vec [1]; Demo32.vec [-1]] |})
              r.
Proof.
  destruct (search_nearest_first Binary32.float32 Binary32.fvec_L2sqr
              Binary32.flt Binary32.feq Binary32.FLT_MAX Demo32.np_empty
              Binary32.key Binary32Facts.binary32_ordered
              (Demo32.index_of 1
                 [Demo32.vec [5]; [SpecFloat.S754_nan];
                  Demo32.vec [1]; Demo32.vec [-1]]
                 [Py.lit "a"; Py.lit "b"; Py.lit "c"; Py.lit "d"])
              (Demo32.vec [0]) 2 eq_refl eq_refl eq_refl)
    as (r & E & _ & Hs & _ & _ & _ & _ & Hfull).
  exists r. split; [exact E|]. split; [exact Hs|].
  apply Hfull. vm_compute. lia.
Defined.

Lemma search_is_sorted_prefix_witness :
  Demo32.search (Demo32.vec [0]) 3
    (Demo32.index_of 1
       [Demo32.vec [5]; [SpecFloat.S754_nan]; Demo32.vec [1]; Demo32.vec [-1]]
       [])
  = (Demo32.index_of 1
       [Demo32.vec [5]; [SpecFloat.S754_nan]; Demo32.vec [1]; Demo32.vec [-1]]
       [],
     OK ([Demo32.vec [1; 1; 25]], [[2; 3; 0]])).
Proof.
  destruct (search_is_sorted_prefix Binary32.float32 Binary32.fvec_L2sqr
              Binary32.flt Binary32.feq Binary32.FLT_MAX Demo32.np_empty
              Binary32.key Binary32Facts.binary32_ordered
              (Demo32.index_of 1
                 [Demo32.vec [5]; [SpecFloat.S754_nan];
                  Demo32.vec [1]; Demo32.vec [-1]] [])
              (Demo32.vec [0]) 3 eq_refl eq_refl eq_refl) as [E _].
  exact E.
Defined.

Lemma search_prefix_stable_witness :
  exists r',
    Demo32.search (Demo32.vec [0]) 3
      (Demo32.index_of 1 [Demo32.vec [5]; Demo32.vec [1]] [])
    = (Demo32.index_of 1 [Demo32.vec [5]; Demo32.vec [1]] [],
       OK ([List.map fst r'], [List.map snd r']))
    /\ Demo32.search (Demo32.vec [0]) 1
         (Demo32.index_of 1 [Demo32.vec [5]; Demo32.vec [1]] [])
       = (Demo32.index_of 1 [Demo32.vec [5]; Demo32.vec [1]] [],
          OK ([List.map fst (firstn 1 r')], [List.map snd (firstn 1 r')])).
Proof.
  apply (search_prefix_stable Binary32.float32 Binary32.fvec_L2sqr
           Binary32.flt Binary32.feq Binary32.FLT_MAX Demo32.np_empty
           Binary32.key Binary32Facts.binary32_ordered
           (Demo32.index_of 1 [Demo32.vec [5]; Demo32.vec [1]] [])
           (Demo32.vec [0]) 1 3);
    [reflexivity|reflexivity|discriminate|reflexivity|reflexivity].
Defined.

Lemma search_finds_stored_query_witness :
  exists l ds ls v,
    Demo32.search (Demo32.vec [2; 3]) 2
      (Demo32.index_of 2
         [Demo32.vec [5; 1]; Demo32.vec [2; 3]; Demo32.vec [2; 3]] [])
    = (Demo32.index_of 2
         [Demo32.vec [5; 1]; Demo32.vec [2; 3]; Demo32.vec [2; 3]] [],
       OK ([Binary32.fvec_L2sqr (Demo32.vec [2; 3]) v :: ds], [l :: ls]))
    /\ 0 <= l <= 2
    /\ nth_error [Demo32.vec [5; 1]; Demo32.vec [2; 3]; Demo32.vec [2; 3]]
         (Z.to_nat l) = Some v
    /\ Binary32.feq (Binary32.fvec_L2sqr (Demo32.vec [2; 3]) v)
         (Binary32.fvec_L2sqr (Demo32.vec [2; 3]) (Demo32.vec [2; 3])) = true.
Proof.
  apply (search_finds_stored_query Binary32.float32 Binary32.fvec_L2sqr
           Binary32.flt Binary32.feq Binary32.FLT_MAX Demo32.np_empty
           Binary32.key Binary32Facts.binary32_ordered
           (Demo32.index_of 2
              [Demo32.vec [5; 1]; Demo32.vec [2; 3]; Demo32.vec [2; 3]] [])
           (Demo32.vec [2; 3]) 2 2%nat);
    [reflexivity|reflexivity|reflexivity|reflexivity|reflexivity|].
  intros v [<-|[<-|[<-|[]]]]; reflexivity.
Defined.

(** An array of [2^63] slots is not granted: [search] raises the error
    of its creation. *)
Lemma search_needs_the_arrays :
  Demo32.search (Demo32.vec [0]) (2 ^ 63)
    (Demo32.index_of 1 [Demo32.vec [5]] [Py.lit "a"])
  = (Demo32.index_of 1 [Demo32.vec [5]] [Py.lit "a"], Raise ValueError).
Proof. reflexivity. Qed.

(** Rounding decides the order.  From the origin the vector
    [(4096, 32)] is nearer than [(4095, 96)], by [16778240] against
    [16778241]; binary32 rounds both distances to [16778240], so the
    vector stored first is returned. *)
Lemma search_ranks_rounded_distances :
  Demo32.search (Demo32.vec [0; 0]) 1
    (Demo32.index_of 2 [Demo32.vec [4095; 96]; Demo32.vec [4096; 32]] [])
  = (Demo32.index_of 2 [Demo32.vec [4095; 96]; Demo32.vec [4096; 32]] [],
     OK ([[Binary32.of_Z 16778240]], [[0]]))
  /\ Faiss.fvec_L2sqr [0; 0] [4095; 96] = 16778241
  /\ Faiss.fvec_L2sqr [0; 0] [4096; 32] = 16778240.
Proof. vm_compute. auto. Qed.

(** ** More on the orchestrator *)

Module UserFacts.
Import Py UserSpec WorldFacts.

(** [index_document] in closed form. *)
Lemma index_document_cases encode pages w :
  RAGModelM.index_document encode pages w =
  let cs := DocumentProcessor.process_pdf pages in
  match encode cs with
  | Arr1 _ => (w, Raise ValueError)
  | Arr2 xd rows =>
      if (xd =? Faiss.d (index (self_index w)))%nat
      then (indexed w rows cs, OK (length cs))
      else (w, Raise AssertionError)
  end.
Proof.
  unfold RAGModelM.index_document, RAGModelM.create_embeddings. simpl.
  destruct (encode (DocumentProcessor.process_pdf pages)) as [data|xd rows].
  - now rewrite (bind_raise _ _ _ _ _ (add_vectors_vector w data _)).
  - pose proof (add_vectors_matrix w xd rows
                  (DocumentProcessor.process_pdf pages)) as E.
    destruct (xd =? Faiss.d (index (self_index w)))%nat.
    + rewrite (bind_ok _ _ _ _ _ E). reflexivity.
    + now rewrite (bind_raise _ _ _ _ _ E).
Qed.

(** [init] in closed form. *)
Lemma init_cases disk :
  RAGModelM.init disk =
  match disk !! RAGModelM.index_file, disk !! RAGModelM.chunks_file with
  | Some _, Some _ =>
      FAISSIndexM.load RAGModelM.index_file RAGModelM.chunks_file
        {| self_index := FAISSIndexM.init RAGModelM.DEFAULT_DIMENSION;
           fs := disk |}
  | _, _ => ({| self_index := FAISSIndexM.init RAGModelM.DEFAULT_DIMENSION;
                fs := disk |}, OK tt)
  end.
Proof.
  unfold RAGModelM.init, RAGModelM.path_exists, bind, get, ret. simpl.
  destruct (disk !! RAGModelM.index_file), (disk !! RAGModelM.chunks_file);
    reflexivity.
Qed.

Lemma init_loaded disk ix cs :
  disk !! RAGModelM.index_file = Some (IndexFile ix) ->
  disk !! RAGModelM.chunks_file = Some (ChunksFile cs) ->
  RAGModelM.init disk
  = ({| self_index := {| dimension := RAGModelM.DEFAULT_DIMENSION;
                         index := ix; chunks := cs |};
        fs := disk |}, OK tt).
Proof.
  intros E1 E2. rewrite init_cases, E1, E2, load_cases. simpl.
  now rewrite E1, E2.
Qed.

Lemma init_fresh disk :
  disk !! RAGModelM.index_file = None \/ disk !! RAGModelM.chunks_file = None ->
  RAGModelM.init disk
  = ({| self_index := FAISSIndexM.init RAGModelM.DEFAULT_DIMENSION;
        fs := disk |}, OK tt).
Proof.
  intros H. rewrite init_cases.
  destruct (disk !! RAGModelM.index_file), (disk !! RAGModelM.chunks_file);
    try reflexivity. destruct H; discriminate.
Qed.

Lemma init_fs disk : fs (fst (RAGModelM.init disk)) = disk.
Proof.
  rewrite init_cases.
  destruct (disk !! RAGModelM.index_file) as [f1|] eqn:E1;
    destruct (disk !! RAGModelM.chunks_file) as [f2|] eqn:E2; try reflexivity.
  rewrite load_cases. simpl. rewrite E1, E2.
  destruct f1; [destruct f2|]; reflexivity.
Qed.





End UserFacts.

Section OrchestratorExtras.
Import Py UserSpec UserFacts WorldFacts WordSpec WordFacts.

Variable encode : list str -> ndarray.

Lemma index_document_ok pages w :
  encoder_ok encode ->
  Faiss.d (index (self_index w)) = RAGModelM.DEFAULT_DIMENSION ->
  DocumentProcessor.process_pdf pages <> [] ->
  exists rows,
    encode (DocumentProcessor.process_pdf pages)
    = Arr2 RAGModelM.DEFAULT_DIMENSION rows
    /\ length rows = length (DocumentProcessor.process_pdf pages)
    /\ RAGModelM.index_document encode pages w
       = (indexed w rows (DocumentProcessor.process_pdf pages),
          OK (length (DocumentProcessor.process_pdf pages))).
Proof.
  intros Henc Hd Hne. rewrite index_document_cases. cbv zeta.
  specialize (Henc (DocumentProcessor.process_pdf pages)).
  destruct (encode (DocumentProcessor.process_pdf pages)) as [data|xd rows];
    [contradiction|].
  destruct Henc as [-> Hlen]. exists rows. split; [reflexivity|].
  split; [exact Hlen|]. rewrite Hd. now rewrite Nat.eqb_refl.
Qed.


(** X9.  On an index whose dimension is not 384 (one loaded from a file
    written for another embedder) [index_document] of a document with
    at least one chunk raises the assertion of faiss; the index, the
    chunks and the disk stay as they were. *)
Theorem index_document_rejects_other_dimension (pages : list str) (w : world) :
  encoder_ok encode ->
  Faiss.d (index (self_index w)) <> RAGModelM.DEFAULT_DIMENSION ->
  DocumentProcessor.process_pdf pages <> [] ->
  RAGModelM.index_document encode pages w = (w, Raise AssertionError).
Proof.
  intros Henc Hd Hne. rewrite index_document_cases. cbv zeta.
  specialize (Henc (DocumentProcessor.process_pdf pages)).
  destruct (encode (DocumentProcessor.process_pdf pages)) as [data|xd rows];
    [contradiction|].
  destruct Henc as [-> _].
  destruct (Nat.eqb_spec RAGModelM.DEFAULT_DIMENSION
              (Faiss.d (index (self_index w)))); [congruence|reflexivity].
Qed.

(** X10.  A document whose pages hold white space only has no chunk to
    embed: when the embedder answers an empty batch with a
    one-dimensional array, [index_document] raises [ValueError] (faiss
    cannot unpack the shape) and changes nothing; when it answers with
    an empty matrix of width 384, the call returns 0 on an index of
    dimension 384 and stores no vector and no chunk. *)
Theorem index_document_blank (pages : list str) (w : world) :
  Forall all_space pages ->
  (forall data, encode [] = Arr1 data ->
     RAGModelM.index_document encode pages w = (w, Raise ValueError))
  /\ (encode [] = Arr2 RAGModelM.DEFAULT_DIMENSION [] ->
      Faiss.d (index (self_index w)) = RAGModelM.DEFAULT_DIMENSION ->
      snd (RAGModelM.index_document encode pages w) = OK 0%nat
      /\ index (self_index (fst (RAGModelM.index_document encode pages w)))
         = index (self_index w)
      /\ chunks (self_index (fst (RAGModelM.index_document encode pages w)))
         = chunks (self_index w)).
Proof.
  intros Hblank. rewrite index_document_cases. cbv zeta.
  rewrite (process_pdf_blank pages Hblank). split.
  - intros data ->. reflexivity.
  - intros -> ->. rewrite Nat.eqb_refl. unfold indexed.
    cbn [fst snd self_index index chunks]. rewrite !app_nil_r.
    split; [reflexivity|]. split; [now destruct (index (self_index w))|reflexivity].
Qed.


Variable generate : str -> outcome str.

Lemma user_op_alignment o w :
  encoder_ok encode ->
  Faiss.ntotal (index (self_index w)) = length (chunks (self_index w)) ->
  Faiss.ntotal (index (self_index (run_user_op encode generate o w)))
  = length (chunks (self_index (run_user_op encode generate o w))).
Proof.
  intros Henc Hal. destruct o as [pages|question top_k|]; unfold run_user_op.
  - rewrite index_document_cases. cbv zeta.
    specialize (Henc (DocumentProcessor.process_pdf pages)).
    destruct (encode _) as [data|xd rows]; [exact Hal|].
    destruct (xd =? _)%nat; [|exact Hal]. destruct Henc as [_ Hlen].
    unfold indexed, Faiss.ntotal in *. cbn [fst self_index index chunks Faiss.xb].
    rewrite !length_app. lia.
  - now rewrite readonly_query.
  - now rewrite clear_index_eq.
Qed.

(** X12.  With an embedder that returns one row per text, every
    session of [index_document], [query] and [clear_index] calls,
    whatever their outcomes, keeps as many vectors as chunks. *)
Theorem session_keeps_alignment (ops : list user_op) (w : world) :
  encoder_ok encode ->
  Faiss.ntotal (index (self_index w)) = length (chunks (self_index w)) ->
  Faiss.ntotal (index (self_index (run_user_ops encode generate ops w)))
  = length (chunks (self_index (run_user_ops encode generate ops w))).
Proof.
  intros Henc. revert w. induction ops as [|o r IH]; intros w Hal; [exact Hal|].
  apply IH. now apply user_op_alignment.
Qed.


End OrchestratorExtras.

Section PersistenceExtras.
Import Py UserSpec UserFacts WorldFacts.

(** X14.  Construction of a [RAGModel].  It raises when the set-up
    before the files are looked for raises.  Otherwise, when both
    files are there (an index file and a chunks file) their contents
    become the index and the chunks, whatever was stored for how many
    of each; when one of them is missing the model starts with an
    empty index of dimension 384 without error, and a file that is
    there alone is neither read nor removed.  No file is created,
    changed or removed. *)
Theorem init_outcomes (setup : outcome unit) (disk : gmap string file) :
  (forall e, setup = Raise e ->
             snd (RAGModelM.init_with setup disk) = Raise e)
  /\ (setup = OK tt ->
      (forall ix cs,
         disk !! RAGModelM.index_file = Some (IndexFile ix) ->
         disk !! RAGModelM.chunks_file = Some (ChunksFile cs) ->
         RAGModelM.init_with setup disk
         = ({| self_index := {| dimension := RAGModelM.DEFAULT_DIMENSION;
                                index := ix; chunks := cs |};
               fs := disk |}, OK tt))
      /\ (disk !! RAGModelM.index_file = None
          \/ disk !! RAGModelM.chunks_file = None ->
          RAGModelM.init_with setup disk
          = ({| self_index := FAISSIndexM.init RAGModelM.DEFAULT_DIMENSION;
                fs := disk |}, OK tt)))
  /\ fs (fst (RAGModelM.init_with setup disk)) = disk.
Proof.
  split; [|split].
  - intros e ->. reflexivity.
  - intros ->. split.
    + intros ix cs. apply init_loaded.
    + apply init_fresh.
  - destruct setup; [apply init_fs|reflexivity].
Qed.


(** X15.  A [load] that fails on the chunks file has already replaced
    the vectors: when the index file is readable and the chunks file
    is missing (or is not a chunks file), [load] raises and leaves the
    vectors of the file together with the chunks that were in memory
    before. *)
Theorem load_failure_replaces_vectors (w : world)
    (index_file chunks_file : string) (ix : Faiss.IndexFlat) :
  fs w !! index_file = Some (IndexFile ix) ->
  (forall cs, fs w !! chunks_file <> Some (ChunksFile cs)) ->
  exists e,
    snd (FAISSIndexM.load index_file chunks_file w) = Raise e
    /\ index (self_index (fst (FAISSIndexM.load index_file chunks_file w))) = ix
    /\ chunks (self_index (fst (FAISSIndexM.load index_file chunks_file w)))
       = chunks (self_index w)
    /\ fs (fst (FAISSIndexM.load index_file chunks_file w)) = fs w.
Proof.
  intros E1 Hno. rewrite load_cases, E1.
  destruct (fs w !! chunks_file) as [[ix'|cs]|] eqn:E2.
  - exists ValueError. repeat split.
  - now contradiction (Hno cs).
  - exists FileNotFoundError. repeat split.
Qed.

(** X16.  Loading two distinct files and saving to the same two
    locations writes back what was read: the disk is as before. *)
Theorem load_then_save_keeps_disk (w w' : world)
    (index_file chunks_file : string) :
  index_file <> chunks_file ->
  FAISSIndexM.load index_file chunks_file w = (w', OK tt) ->
  FAISSIndexM.save index_file chunks_file w' = (w', OK tt).
Proof.
  intros Hne. rewrite load_cases.
  destruct (fs w !! index_file) as [[ix|cs0]|] eqn:E1; try discriminate.
  destruct (fs w !! chunks_file) as [[ix'|cs]|] eqn:E2; try discriminate.
  intros [= <-]. rewrite save_eq. cbn [self_index index chunks fs].
  rewrite (insert_id (fs w) index_file _ E1).
  now rewrite (insert_id (fs w) chunks_file _ E2).
Qed.

End PersistenceExtras.

(** ** More on [query] *)

Module QueryFacts.
Import Py Faiss FaissSpec FaissFacts RankSpec RankFacts WorldFacts.

Lemma for_each_getitem (w : world) (ls : list Z) (ctx : list str) :
  Forall2 (fun l c => getitem (chunks (self_index w)) l = OK c) ls ctx ->
  RAGModelM.for_each
    (fun idx => do w <- get; lift (getitem (chunks (self_index w)) idx)) ls w
  = (w, OK ctx).
Proof.
  induction 1 as [|l c ls ctx Hl _ IH]; [reflexivity|].
  cbn [RAGModelM.for_each].
  rewrite (bind_ok _ _ w w c) by (unfold bind, get, lift; now rewrite Hl).
  now rewrite (bind_ok _ _ w w ctx IH).
Qed.

(** [query] once the labels have been resolved to chunks. *)
Lemma query_runs encode generate question top_k w qe ds ls ctx :
  ndarray_first (encode [question]) = OK qe ->
  FAISSIndexM.search qe top_k w = (w, OK ([ds], [ls])) ->
  Forall2 (fun l c => getitem (chunks (self_index w)) l = OK c) ls ctx ->
  RAGModelM.query encode generate question top_k w
  = (w, match generate (RAGModelM.prompt_of ctx question) with
        | OK text => OK {| answer := strip text;
                           contexts := ctx;
                           distances := ds |}
        | Raise e => Raise e
        end).
Proof.
  intros Eq Es Hctx. unfold RAGModelM.query. rewrite Eq.
  rewrite (bind_ok _ _ w w qe eq_refl), (bind_ok _ _ _ _ _ Es).
  cbn [fst snd]. rewrite (bind_ok _ _ w w ls eq_refl).
  rewrite (bind_ok _ _ _ _ _ (for_each_getitem w ls ctx Hctx)).
  destruct (generate (RAGModelM.prompt_of ctx question)) as [text|e].
  - rewrite (bind_ok _ _ w w text eq_refl).
    now rewrite (bind_ok _ _ w w ds eq_refl).
  - now apply bind_raise.
Qed.

Lemma getitem_last {A} (l : list A) (dflt : A) :
  l <> [] -> getitem l (-1) = OK (List.last l dflt).
Proof.
  intros Hne. pose proof (app_removelast_last dflt Hne) as E.
  assert (Hlen : length l = S (length (removelast l))).
  { rewrite E at 1. rewrite length_app. simpl. lia. }
  unfold getitem. change (-1 <? 0) with true. cbv iota.
  destruct (Z.leb_spec 0 (-1 + Z.of_nat (length l))) as [_|?]; [|lia].
  destruct (Z.ltb_spec (-1 + Z.of_nat (length l)) (Z.of_nat (length l)))
    as [_|?]; [|lia].
  cbn [andb].
  replace (Z.to_nat (-1 + Z.of_nat (length l))) with (length (removelast l))
    by lia.
  rewrite E at 1. rewrite nth_error_app2 by lia.
  now rewrite Nat.sub_diag.
Qed.

(** The chunks that the labels of stored entries select. *)
Lemma stored_contexts (w : world) q (r : list entry) :
  ntotal (index (self_index w)) = length (chunks (self_index w)) ->
  Forall (stored q (index (self_index w))) r ->
  exists ctx,
    Forall2 (fun l c => getitem (chunks (self_index w)) l = OK c)
            (List.map snd r) ctx
    /\ Forall2 (fun c dist =>
                  exists i v,
                    nth_error (xb (index (self_index w))) i = Some v
                    /\ nth_error (chunks (self_index w)) i = Some c
                    /\ dist = fvec_L2sqr q v)
               ctx (List.map fst r).
Proof.
  intros Hal. induction 1 as [|e r He _ IH].
  - exists []. split; constructor.
  - destruct IH as (ctx & H1 & H2). destruct He as (i & v & Hv & ->).
    assert (Hi : (i < length (chunks (self_index w)))%nat).
    { rewrite <- Hal. unfold ntotal. apply nth_error_Some. congruence. }
    destruct (nth_error (chunks (self_index w)) i) as [c|] eqn:Ec;
      [|apply nth_error_None in Ec; lia].
    exists (c :: ctx). split; constructor; try assumption.
    + now apply getitem_position.
    + now exists i, v.
Qed.

Lemma length_ranked_all q vs :
  Forall (fun v => fvec_L2sqr q v < FLT_MAX) vs ->
  length (ranked q vs) = length vs.
Proof.
  intros Hall. unfold ranked.
  rewrite (Permutation_length (isort_perm _)).
  now rewrite (eligible_all q vs Hall), length_labelled.
Qed.

Lemma ranked_stored q ix : Forall (stored q ix) (ranked q (xb ix)).
Proof.
  apply List.Forall_forall. intros e He. now apply ranked_In in He.
Qed.

Lemma Forall_firstn {A} (P : A -> Prop) n l : Forall P l -> Forall P (firstn n l).
Proof.
  intros H. apply List.Forall_forall. intros x Hx.
  rewrite List.Forall_forall in H. apply H.
  rewrite <- (firstn_skipn n l). apply in_or_app. now left.
Qed.

End QueryFacts.

Section QueryExtras.
Import Py Faiss FaissSpec FaissFacts RankSpec RankFacts QueryFacts.

Variable encode : list str -> ndarray.
Variable generate : str -> outcome str.

(** What [query] hands to [query_runs] when [top_k] does not exceed the
    number of stored vectors. *)
Lemma query_within_size question top_k w qe :
  ndarray_first (encode [question]) = OK qe ->
  length qe = d (index (self_index w)) -> 0 < top_k ->
  (Z.to_nat top_k <= ntotal (index (self_index w)))%nat ->
  ntotal (index (self_index w)) = length (chunks (self_index w)) ->
  Forall (fun v => fvec_L2sqr qe v < FLT_MAX) (xb (index (self_index w))) ->
  exists r ctx,
    length r = Z.to_nat top_k
    /\ StronglySorted le2 r
    /\ Forall2 (fun c dist =>
                  exists i v,
                    nth_error (xb (index (self_index w))) i = Some v
                    /\ nth_error (chunks (self_index w)) i = Some c
                    /\ dist = fvec_L2sqr qe v)
               ctx (List.map fst r)
    /\ RAGModelM.query encode generate question top_k w
       = (w, match generate (RAGModelM.prompt_of ctx question) with
             | OK text => OK {| answer := strip text;
                                contexts := ctx;
                                distances := List.map fst r |}
             | Raise e => Raise e
             end).
Proof.
  intros Eq Hq Hk Hkn Hal Hall.
  set (ix := index (self_index w)) in *.
  pose proof (search_ranked w qe top_k Hq Hk) as Es. fold ix in Es.
  pose proof (length_ranked_all qe (xb ix) Hall) as Hlen.
  unfold ntotal in Hkn.
  rewrite firstn_padded_long in Es by lia.
  set (r := firstn (Z.to_nat top_k) (ranked qe (xb ix))) in *.
  assert (Hst : Forall (stored qe ix) r)
    by (apply Forall_firstn, ranked_stored).
  destruct (stored_contexts w qe r Hal Hst) as (ctx & H1 & H2).
  exists r, ctx. split; [unfold r; rewrite length_firstn; lia|].
  split.
  { apply (sorted_app_l _ (skipn (Z.to_nat top_k) (ranked qe (xb ix)))).
    unfold r. rewrite firstn_skipn. apply isort_sorted. }
  split; [exact H2|].
  now apply (query_runs encode generate question top_k w qe _ _ ctx Eq Es).
Qed.


(** X18.  The exception of the generator is the exception of [query]:
    under the same conditions, when the generator raises, [query]
    raises the same exception and the state is as before. *)
Theorem query_propagates_generator_error (question : str) (top_k : Z)
    (w : world) (qe : list Z) (e : exn) :
  ndarray_first (encode [question]) = OK qe ->
  length qe = d (index (self_index w)) -> 0 < top_k ->
  (Z.to_nat top_k <= ntotal (index (self_index w)))%nat ->
  ntotal (index (self_index w)) = length (chunks (self_index w)) ->
  Forall (fun v => fvec_L2sqr qe v < FLT_MAX) (xb (index (self_index w))) ->
  (forall prompt, generate prompt = Raise e) ->
  RAGModelM.query encode generate question top_k w = (w, Raise e).
Proof.
  intros Eq Hq Hk Hkn Hal Hall Hgen.
  destruct (query_within_size question top_k w qe Eq Hq Hk Hkn Hal Hall)
    as (r & ctx & _ & _ & _ & E).
  now rewrite Hgen in E.
Qed.


End QueryExtras.

(** ** [query] over float32 values *)

Section FlatQuery.
Import Py FlatL2 FlatSpec FlatFacts.

Variable F : Type.
Variable fvec_L2sqr : list F -> list F -> F.
Variables flt feq : F -> F -> bool.
Variable FLT_MAX : F.
Variable np_empty : Z -> outcome unit.
Variable encode_first : str -> outcome (list F).
Variable generate : str -> outcome str.
Variable key : F -> option Z.
Hypothesis order : ordered_by flt feq FLT_MAX key.

Local Abbreviation fsearch :=
  (FAISSIndex_search fvec_L2sqr flt feq FLT_MAX np_empty).
Local Abbreviation fquery :=
  (RAGModel32.query fvec_L2sqr flt feq FLT_MAX np_empty encode_first generate).
Local Abbreviation fle2 := (le2 flt feq).
Local Abbreviation franked := (ranked fvec_L2sqr flt feq FLT_MAX).
Local Abbreviation fstored := (stored fvec_L2sqr).
Local Abbreviation freach := (within_reach fvec_L2sqr flt FLT_MAX).

(** The vector and the chunk at the position that an entry names. *)
Local Abbreviation selects q self :=
  (fun (e : entry F) (c : str) =>
     exists v,
       nth_error (xb (index self)) (Z.to_nat (snd e)) = Some v
       /\ nth_error (chunks self) (Z.to_nat (snd e)) = Some c
       /\ fst e = fvec_L2sqr q v).

Lemma flat_for_each_getitem (self : FAISSIndex F) (ls : list Z)
    (ctx : list str) :
  Forall2 (fun l c => getitem (chunks self) l = OK c) ls ctx ->
  RAGModelM.for_each
    (fun idx => do self <- get; lift (getitem (chunks self) idx)) ls self
  = (self, OK ctx).
Proof.
  induction 1 as [|l c ls ctx Hl _ IH]; [reflexivity|].
  cbn [RAGModelM.for_each].
  rewrite (WorldFacts.bind_ok _ _ self self c)
    by (unfold bind, get, lift; now rewrite Hl).
  now rewrite (WorldFacts.bind_ok _ _ self self ctx IH).
Qed.

(** [query] once the labels have been resolved to chunks. *)
Lemma flat_query_runs question top_k (self : FAISSIndex F) qe ds ls ctx :
  encode_first question = OK qe ->
  fsearch qe top_k self = (self, OK ([ds], [ls])) ->
  Forall2 (fun l c => getitem (chunks self) l = OK c) ls ctx ->
  fquery question top_k self
  = (self, match generate (RAGModelM.prompt_of ctx question) with
           | OK text => OK {| RAGModel32.answer := strip text;
                              RAGModel32.contexts := ctx;
                              RAGModel32.distances := ds |}
           | Raise e => Raise e
           end).
Proof.
  intros Eq Es Hctx. unfold RAGModel32.query. rewrite Eq.
  rewrite (WorldFacts.bind_ok _ _ self self qe eq_refl),
    (WorldFacts.bind_ok _ _ _ _ _ Es).
  cbn [fst snd]. rewrite (WorldFacts.bind_ok _ _ self self ls eq_refl).
  rewrite (WorldFacts.bind_ok _ _ _ _ _ (flat_for_each_getitem self ls ctx Hctx)).
  destruct (generate (RAGModelM.prompt_of ctx question)) as [text|e].
  - rewrite (WorldFacts.bind_ok _ _ self self text eq_refl).
    now rewrite (WorldFacts.bind_ok _ _ self self ds eq_refl).
  - now apply WorldFacts.bind_raise.
Qed.

(** The chunks that the labels of stored entries select. *)
Lemma labels_select (self : FAISSIndex F) q (r : list (entry F)) :
  ntotal (index self) = length (chunks self) ->
  Forall (fstored q (index self)) r ->
  exists ctx,
    Forall2 (fun l c => getitem (chunks self) l = OK c) (List.map snd r) ctx
    /\ Forall2 (selects q self) r ctx.
Proof.
  intros Hal. induction 1 as [|e r He _ IH].
  - exists []. split; constructor.
  - destruct IH as (ctx & H1 & H2). destruct He as (i & v & Hv & ->).
    assert (Hi : (i < length (chunks self))%nat).
    { rewrite <- Hal. unfold ntotal. apply nth_error_Some. congruence. }
    destruct (nth_error (chunks self) i) as [c|] eqn:Ec;
      [|apply nth_error_None in Ec; lia].
    exists (c :: ctx). split; constructor; try assumption.
    + now apply getitem_position.
    + exists v. cbn [fst snd]. rewrite Nat2Z.id. now split; [|split].
Qed.

Lemma Forall2_repeat {A B} (R : A -> B -> Prop) x y n :
  R x y -> Forall2 R (repeat x n) (repeat y n).
Proof. intros H. induction n; simpl; constructor; assumption. Qed.

Lemma ranked_all_stored (self : FAISSIndex F) q :
  Forall (fstored q (index self)) (franked q (xb (index self))).
Proof.
  apply List.Forall_forall. intros e He. now apply flat_ranked_In in He.
Qed.

(** X17.  On an index with as many chunks as vectors, for a question
    whose embedding has the dimension of the index, a [top_k] from 1 to
    the number of stored vectors at a distance below [FLT_MAX] for
    which the result arrays can be created, and a generator that
    answers, [query] succeeds and leaves the index as it was.  Its
    contexts are the chunks at the positions of the [top_k] first
    stored vectors in the order of [search] (by computed distance, then
    by position), its distances are the distances computed for these
    vectors, in the same order, and its answer is the text of the
    generator for the prompt built from these contexts, trimmed. *)
Theorem query_returns_nearest_chunks (question : str) (top_k : Z)
    (self : FAISSIndex F) (qe : list F) :
  encode_first question = OK qe ->
  length qe = d (index self) -> 0 < top_k -> np_empty top_k = OK tt ->
  (Z.to_nat top_k <= freach qe (index self))%nat ->
  ntotal (index self) = length (chunks self) ->
  (forall prompt, exists text, generate prompt = OK text) ->
  let r := firstn (Z.to_nat top_k) (franked qe (xb (index self))) in
  exists ctx text,
    fquery question top_k self
    = (self, OK {| RAGModel32.answer := strip text;
                   RAGModel32.contexts := ctx;
                   RAGModel32.distances := List.map fst r |})
    /\ generate (RAGModelM.prompt_of ctx question) = OK text
    /\ length ctx = Z.to_nat top_k
    /\ Forall2 (selects qe self) r ctx
    /\ StronglySorted fle2 r.
Proof.
  intros Eq Hq Hk Ha Hkn Hal Hgen r.
  pose proof (flat_search_split F fvec_L2sqr flt feq FLT_MAX np_empty key
                order self qe top_k Hq Hk Ha) as Es.
  cbn zeta in Es. fold r in Es.
  replace (Z.to_nat top_k - freach qe (index self))%nat with 0%nat in Es
    by lia.
  cbn [repeat] in Es. rewrite !app_nil_r in Es.
  assert (Hst : Forall (fstored qe (index self)) r).
  { apply List.Forall_forall. intros e He. apply In_firstn_all in He.
    now apply flat_ranked_In in He. }
  destruct (labels_select self qe r Hal Hst) as (ctx & H1 & H2).
  destruct (Hgen (RAGModelM.prompt_of ctx question)) as [text Ht].
  exists ctx, text.
  pose proof (flat_query_runs question top_k self qe _ _ ctx Eq Es H1) as E.
  rewrite Ht in E. split; [exact E|]. split; [exact Ht|].
  split.
  { rewrite <- (List.Forall2_length H2). unfold r.
    rewrite length_firstn, length_ranked. lia. }
  split; [exact H2|].
  apply sorted_firstn.
  apply (ranked_sorted F fvec_L2sqr flt feq FLT_MAX key order).
Qed.

(** X19.  Asking for more contexts than there are vectors within
    reach repeats the last chunk: on an index with as many chunks as
    vectors, at least one, when [top_k] exceeds the number [c] of
    stored vectors at a distance below [FLT_MAX] (and the result
    arrays can be created, and the generator answers), [query]
    succeeds and returns the chunks of these [c] vectors in the order
    of [search], followed by [top_k - c] copies of the chunk stored
    last, which is what the label [-1] of an unfilled slot selects;
    the distances are those of the [c] vectors followed by [FLT_MAX]
    for each copy. *)
Theorem query_pads_with_last_chunk (question : str) (top_k : Z)
    (self : FAISSIndex F) (qe : list F) :
  encode_first question = OK qe ->
  length qe = d (index self) -> np_empty top_k = OK tt ->
  ntotal (index self) = length (chunks self) ->
  chunks self <> [] ->
  (freach qe (index self) < Z.to_nat top_k)%nat ->
  (forall prompt, exists text, generate prompt = OK text) ->
  let R := franked qe (xb (index self)) in
  let pad := (Z.to_nat top_k - freach qe (index self))%nat in
  exists real text,
    fquery question top_k self
    = (self, OK {| RAGModel32.answer := strip text;
                   RAGModel32.contexts :=
                     real ++ repeat (List.last (chunks self) []) pad;
                   RAGModel32.distances :=
                     List.map fst R ++ repeat FLT_MAX pad |})
    /\ generate (RAGModelM.prompt_of
                   (real ++ repeat (List.last (chunks self) []) pad) question)
       = OK text
    /\ length real = freach qe (index self)
    /\ Forall2 (selects qe self) R real
    /\ StronglySorted fle2 R.
Proof.
  intros Eq Hq Ha Hal Hne Hc Hgen R pad.
  assert (Hk : 0 < top_k) by lia.
  pose proof (flat_search_split F fvec_L2sqr flt feq FLT_MAX np_empty key
                order self qe top_k Hq Hk Ha) as Es.
  cbn zeta in Es. fold R in Es. fold pad in Es.
  assert (HlenR : length R = freach qe (index self))
    by apply length_ranked.
  rewrite firstn_all2 in Es by lia.
  destruct (labels_select self qe R Hal (ranked_all_stored self qe))
    as (real & H1 & H2).
  assert (Hctx : Forall2 (fun l c => getitem (chunks self) l = OK c)
                   (List.map snd R ++ repeat (-1) pad)
                   (real ++ repeat (List.last (chunks self) []) pad)).
  { apply List.Forall2_app; [exact H1|].
    apply Forall2_repeat. now apply QueryFacts.getitem_last. }
  destruct (Hgen (RAGModelM.prompt_of
                    (real ++ repeat (List.last (chunks self) []) pad)
                    question)) as [text Ht].
  exists real, text.
  pose proof (flat_query_runs question top_k self qe _ _ _ Eq Es Hctx) as E.
  rewrite Ht in E. split; [exact E|]. split; [exact Ht|].
  split; [rewrite <- (List.Forall2_length H2); exact HlenR|].
  split; [exact H2|].
  apply (ranked_sorted F fvec_L2sqr flt feq FLT_MAX key order).
Qed.

End FlatQuery.

Lemma query_returns_nearest_chunks_witness :
  exists ctx text,
    RAGModel32.query Binary32.fvec_L2sqr Binary32.flt Binary32.feq
      Binary32.FLT_MAX Demo32.np_empty (fun _ => OK (Demo32.vec [0]))
      Demo.generate (Py.lit "q") 2
      (Demo32.index_of 1 [Demo32.vec [5]; Demo32.vec [1]; Demo32.vec [-2]]
         [Py.lit "a"; Py.lit "b"; Py.lit "c"])
    = (Demo32.index_of 1 [Demo32.vec [5]; Demo32.vec [1]; Demo32.vec [-2]]
         [Py.lit "a"; Py.lit "b"; Py.lit "c"],
       OK {| RAGModel32.answer := Py.strip text;
             RAGModel32.contexts := ctx;
             RAGModel32.distances := Demo32.vec [1; 4] |})
    /\ length ctx = 2%nat.
Proof.
  destruct (query_returns_nearest_chunks Binary32.float32 Binary32.fvec_L2sqr
              Binary32.flt Binary32.feq Binary32.FLT_MAX Demo32.np_empty
              (fun _ => OK (Demo32.vec [0])) Demo.generate
              Binary32.key Binary32Facts.binary32_ordered
              (Py.lit "q") 2
              (Demo32.index_of 1
                 [Demo32.vec [5]; Demo32.vec [1]; Demo32.vec [-2]]
                 [Py.lit "a"; Py.lit "b"; Py.lit "c"])
              (Demo32.vec [0]) eq_refl eq_refl eq_refl eq_refl)
    as (ctx & text & E & _ & Hl & _).
  - vm_compute. lia.
  - reflexivity.
  - intros prompt. exists prompt. reflexivity.
  - exists ctx, text. split; [exact E|exact Hl].
Defined.

Lemma query_pads_with_last_chunk_witness :
  exists real text,
    RAGModel32.query Binary32.fvec_L2sqr Binary32.flt Binary32.feq
      Binary32.FLT_MAX Demo32.np_empty (fun _ => OK (Demo32.vec [0]))
      Demo.generate (Py.lit "q") 3
      (Demo32.index_of 1 [Demo32.vec [5]; Demo32.vec [1]]
         [Py.lit "a"; Py.lit "b"])
    = (Demo32.index_of 1 [Demo32.vec [5]; Demo32.vec [1]]
         [Py.lit "a"; Py.lit "b"],
       OK {| RAGModel32.answer := Py.strip text;
             RAGModel32.contexts := real ++ [Py.lit "b"];
             RAGModel32.distances :=
               Demo32.vec [1; 25] ++ [Binary32.FLT_MAX] |})
    /\ length real = 2%nat.
Proof.
  destruct (query_pads_with_last_chunk Binary32.float32 Binary32.fvec_L2sqr
              Binary32.flt Binary32.feq Binary32.FLT_MAX Demo32.np_empty
              (fun _ => OK (Demo32.vec [0])) Demo.generate
              Binary32.key Binary32Facts.binary32_ordered
              (Py.lit "q") 3
              (Demo32.index_of 1 [Demo32.vec [5]; Demo32.vec [1]]
                 [Py.lit "a"; Py.lit "b"])
              (Demo32.vec [0]) eq_refl eq_refl eq_refl eq_refl)
    as (real & text & E & _ & Hl & _).
  - discriminate.
  - vm_compute. lia.
  - intros prompt. exists prompt. reflexivity.
  - exists real, text. split; [exact E|exact Hl].
Defined.

(** ** The front end *)

Module AppFacts.
Import Py App AppSpec WorldFacts.

Section Collaborators.

Variable encode : list str -> ndarray.
Variable generate : str -> outcome str.

(** The body of [main] never raises: it is the three blocks one after
    the other. *)
Lemma main_body_eq inp s :
  main_body encode generate inp s
  = (after_question encode generate inp (after_upload encode inp (after_clear inp s)), OK tt).
Proof.
  unfold main_body.
  assert (E1 : (if clear_clicked inp
                then do_ on_world RAGModelM.clear_index;
                     do_ set_processed false; emit ClearedMsg
                else ret tt) s = (after_clear inp s, OK tt)).
  { unfold after_clear. destruct (clear_clicked inp); [|reflexivity].
    unfold bind, on_world, set_processed, emit, modify.
    now rewrite clear_index_eq. }
  rewrite (bind_ok _ _ _ _ _ E1). set (s1 := after_clear inp s).
  assert (E2 : match uploaded_file inp with
               | Some pages =>
                   try_except
                     (do num_chunks <- on_world
                                         (RAGModelM.index_document encode pages);
                      do_ set_processed true; emit (ProcessedMsg num_chunks))
                     (fun e => emit (ProcessingError e))
               | None => ret tt
               end s1 = (after_upload encode inp s1, OK tt)).
  { unfold after_upload. destruct (uploaded_file inp) as [pages|]; [|reflexivity].
    unfold try_except, bind, on_world, set_processed, emit, modify.
    destruct (RAGModelM.index_document encode pages (run_world s1))
      as [w [n|e]]; reflexivity. }
  rewrite (bind_ok _ _ _ _ _ E2). set (s2 := after_upload encode inp s1).
  unfold after_question. destruct (truthy (question inp)); [|reflexivity].
  unfold try_except, bind, on_world, emit, modify.
  destruct (RAGModelM.query encode generate (question inp) 3 (run_world s2))
    as [w [res|e]]; reflexivity.
Qed.

(** The question block changes neither the index nor the disk nor the
    processed flag; it only adds messages. *)
Lemma after_question_frame inp s :
  run_world (after_question encode generate inp s) = run_world s
  /\ run_processed (after_question encode generate inp s) = run_processed s
  /\ exists tail, run_events (after_question encode generate inp s) = run_events s ++ tail.
Proof.
  unfold after_question. destruct (truthy (question inp)).
  - pose proof (readonly_query encode generate (question inp) 3 (run_world s))
      as Hro.
    destruct (RAGModelM.query encode generate (question inp) 3 (run_world s))
      as [w [res|e]]; cbn [fst] in Hro; subst w; cbn [run_world run_processed run_events];
      (split; [reflexivity|]; split; [reflexivity|]; eexists; reflexivity).
  - split; [reflexivity|]. split; [reflexivity|]. exists []. now rewrite app_nil_r.
Qed.

(** [main] on an app whose model exists or can be constructed. *)
Lemma main_eq inp a w :
  match rag_model a with
  | Some ix => ({| self_index := ix; fs := disk a |}, OK tt)
  | None => RAGModelM.init (disk a)
  end = (w, OK tt) ->
  main encode generate inp a
  = (let s := after_question encode generate inp (after_upload encode inp (after_clear inp
                {| run_world := w;
                   run_processed := match document_processed a with
                                    | Some b => b
                                    | None => false
                                    end;
                   run_events := [] |})) in
     ({| rag_model := Some (self_index (run_world s));
         document_processed := Some (run_processed s);
         disk := fs (run_world s) |}, OK (run_events s))).
Proof.
  intros E. unfold main. rewrite E, main_body_eq. reflexivity.
Qed.

End Collaborators.

End AppFacts.

Module EmptyQueryFacts.
Import Py WorldFacts.

(** [query] on an index without vectors and chunks. *)
Lemma query_empty_index encode generate question top_k w :
  Faiss.xb (index (self_index w)) = [] ->
  chunks (self_index w) = [] ->
  (exists e, RAGModelM.query encode generate question top_k w = (w, Raise e))
  /\ (forall qe, ndarray_first (encode [question]) = OK qe ->
        length qe = Faiss.d (index (self_index w)) -> 0 < top_k ->
        RAGModelM.query encode generate question top_k w
        = (w, Raise IndexError)).
Proof.
  intros Hxb Hcs.
  assert (Hgood : forall qe, ndarray_first (encode [question]) = OK qe ->
            length qe = Faiss.d (index (self_index w)) -> 0 < top_k ->
            RAGModelM.query encode generate question top_k w
            = (w, Raise IndexError)).
  { intros qe Eq Hq Hk. unfold RAGModelM.query. rewrite Eq.
    rewrite (bind_ok _ _ w w qe eq_refl).
    rewrite (bind_ok _ _ _ _ _ (search_empty_store w qe top_k Hxb Hq Hk)).
    cbn [fst snd].
    rewrite (bind_ok _ _ w w (repeat (-1) (Z.to_nat top_k)) eq_refl).
    destruct (Z.to_nat top_k) as [|n] eqn:En; [lia|]. cbn [repeat].
    apply bind_raise. cbn [RAGModelM.for_each].
    apply bind_raise. unfold bind, get, lift. now rewrite Hcs. }
  split; [|exact Hgood].
  unfold RAGModelM.query.
  destruct (ndarray_first (encode [question])) as [qe|e] eqn:Eq;
    [|exists e; now apply bind_raise].
  rewrite (bind_ok _ _ w w qe eq_refl).
  destruct (Nat.eq_dec (length qe) (Faiss.d (index (self_index w)))) as [Hq|Hq];
    [destruct (Z_lt_le_dec 0 top_k) as [Hk|Hk]|].
  - exists IndexError. specialize (Hgood qe eq_refl Hq Hk).
    unfold RAGModelM.query in Hgood. rewrite Eq in Hgood.
    now rewrite (bind_ok _ _ w w qe eq_refl) in Hgood.
  - exists AssertionError. apply bind_raise.
    unfold FAISSIndexM.search, Faiss.search, bind, get, lift.
    apply Nat.eqb_eq in Hq. rewrite Hq. apply Z.ltb_ge in Hk. now rewrite Hk.
  - exists AssertionError. apply bind_raise.
    unfold FAISSIndexM.search, Faiss.search, bind, get, lift.
    apply Nat.eqb_neq in Hq. now rewrite Hq.
Qed.

End EmptyQueryFacts.

Section AppExtras.
Import Py App AppSpec AppFacts UserSpec UserFacts WorldFacts EmptyQueryFacts.

Variable encode : list str -> ndarray.
Variable generate : str -> outcome str.



(** A run with a document in the uploader and no click on the clear
    button. *)
Lemma main_upload_run (inp : widgets) (a : app_state) (ix : FAISSIndex)
    (pages : list str) :
  encoder_ok encode ->
  rag_model a = Some ix ->
  Faiss.d (index ix) = RAGModelM.DEFAULT_DIMENSION ->
  clear_clicked inp = false ->
  uploaded_file inp = Some pages ->
  DocumentProcessor.process_pdf pages <> [] ->
  exists a' ix' evs rows,
    main encode generate inp a = (a', OK evs)
    /\ rag_model a' = Some ix'
    /\ chunks ix' = chunks ix ++ DocumentProcessor.process_pdf pages
    /\ Faiss.xb (index ix') = Faiss.xb (index ix) ++ rows
    /\ length rows = length (DocumentProcessor.process_pdf pages)
    /\ Faiss.d (index ix') = RAGModelM.DEFAULT_DIMENSION
    /\ document_processed a' = Some true.
Proof.
  intros Henc Em Hd Hc Hu Hne.
  rewrite (main_eq encode generate inp a {| self_index := ix; fs := disk a |})
    by now rewrite Em.
  cbv zeta.
  set (s0 := {| run_world := {| self_index := ix; fs := disk a |};
                run_processed := _; run_events := [] |}).
  set (s2 := after_upload encode inp (after_clear inp s0)).
  destruct (index_document_ok encode pages (run_world s0) Henc Hd Hne)
    as (rows & _ & Hlen & E).
  assert (E2 : s2 = {| run_world :=
                         indexed (run_world s0) rows
                           (DocumentProcessor.process_pdf pages);
                       run_processed := true;
                       run_events :=
                         [ProcessedMsg
                            (length (DocumentProcessor.process_pdf pages))] |}).
  { unfold s2, after_upload, after_clear. rewrite Hc, Hu. now rewrite E. }
  destruct (after_question_frame encode generate inp s2)
    as (Hw & Hp & tail & Hev).
  eexists _, _, _, rows. split; [reflexivity|].
  cbn [rag_model document_processed disk]. rewrite Hw, Hp, E2.
  cbn [run_world run_processed]. unfold indexed.
  cbn [self_index index chunks Faiss.xb Faiss.d].
  repeat (split; [reflexivity|]). split; [exact Hlen|]. split; [exact Hd|reflexivity].
Qed.

(** X22.  A document that stays in the uploader is indexed again at
    every run: after two runs with the same document (and no click on
    the clear button) its chunks are stored twice, after what was
    there, with twice as many more vectors. *)
Theorem main_rerun_indexes_again (inp1 inp2 : widgets) (a : app_state)
    (ix : FAISSIndex) (pages : list str) :
  encoder_ok encode ->
  rag_model a = Some ix ->
  Faiss.d (index ix) = RAGModelM.DEFAULT_DIMENSION ->
  clear_clicked inp1 = false -> clear_clicked inp2 = false ->
  uploaded_file inp1 = Some pages -> uploaded_file inp2 = Some pages ->
  DocumentProcessor.process_pdf pages <> [] ->
  exists ix2,
    rag_model (fst (main encode generate inp2
                      (fst (main encode generate inp1 a)))) = Some ix2
    /\ chunks ix2
       = chunks ix ++ DocumentProcessor.process_pdf pages
                   ++ DocumentProcessor.process_pdf pages
    /\ Faiss.ntotal (index ix2)
       = (Faiss.ntotal (index ix)
          + 2 * length (DocumentProcessor.process_pdf pages))%nat.
Proof.
  intros Henc Em Hd Hc1 Hc2 Hu1 Hu2 Hne.
  destruct (main_upload_run inp1 a ix pages Henc Em Hd Hc1 Hu1 Hne)
    as (a1 & ix1 & evs1 & rows1 & E1 & Em1 & Hcs1 & Hxb1 & Hl1 & Hd1 & _).
  rewrite E1. cbn [fst].
  destruct (main_upload_run inp2 a1 ix1 pages Henc Em1 Hd1 Hc2 Hu2 Hne)
    as (a2 & ix2 & evs2 & rows2 & E2 & Em2 & Hcs2 & Hxb2 & Hl2 & _ & _).
  rewrite E2. cbn [fst]. exists ix2. split; [exact Em2|].
  split; [rewrite Hcs2, Hcs1; now rewrite <- app_assoc|].
  unfold Faiss.ntotal. rewrite Hxb2, Hxb1, !length_app. lia.
Qed.


(** X23.  A question on a new app with no stored index and no document
    is answered by an error message: when the constructor can be set
    up, the first run constructs an empty model, [query] raises and the
    run shows exactly one message, the error, and leaves the empty
    model and every file as it was.  With an embedding of width 384
    the error is the [IndexError] of [chunks[-1]].  When the set-up
    raises, the run raises and nothing is kept. *)
Theorem main_question_before_any_document (setup : outcome unit)
    (inp : widgets) (d : gmap string file) :
  d !! RAGModelM.index_file = None \/ d !! RAGModelM.chunks_file = None ->
  clear_clicked inp = false ->
  uploaded_file inp = None ->
  question inp <> [] ->
  (setup = OK tt ->
   exists e,
     main_with encode generate setup inp (fresh d)
     = ({| rag_model := Some (FAISSIndexM.init RAGModelM.DEFAULT_DIMENSION);
           document_processed := Some false;
           disk := d |}, OK [AnswerError e])
     /\ (forall qe, ndarray_first (encode [question inp]) = OK qe ->
           length qe = RAGModelM.DEFAULT_DIMENSION -> e = IndexError))
  /\ (forall e, setup = Raise e ->
                main_with encode generate setup inp (fresh d)
                = (fresh d, Raise e)).
Proof.
  intros Hd Hc Hu Hq. split; [|intros e ->; reflexivity].
  intros ->. unfold main_with. cbn [rag_model fresh].
  rewrite (main_eq encode generate inp (fresh d)
             {| self_index := FAISSIndexM.init RAGModelM.DEFAULT_DIMENSION;
                fs := d |}) by (cbn [rag_model fresh disk]; now apply init_fresh).
  cbv zeta. unfold after_clear, after_upload. rewrite Hc, Hu.
  unfold after_question. cbn [run_world run_processed run_events].
  assert (Ht : truthy (question inp) = true)
    by (destruct (question inp); [now contradiction Hq|reflexivity]).
  rewrite Ht.
  destruct (query_empty_index encode generate (question inp) 3
              {| self_index := FAISSIndexM.init RAGModelM.DEFAULT_DIMENSION;
                 fs := d |} eq_refl eq_refl) as [[e Ee] Hgood].
  exists e. rewrite Ee. cbn [run_world run_processed run_events
    self_index fs fresh document_processed Datatypes.app].
  split; [reflexivity|]. intros qe Eq Hlen.
  specialize (Hgood qe Eq Hlen ltac:(lia)). rewrite Ee in Hgood.
  now injection Hgood.
Qed.

End AppExtras.

(** ** Evaluations of the additional theorems *)


Lemma index_document_rejects_other_dimension_witness :
  RAGModelM.index_document Demo.encode [Py.lit "old text"] (Demo.world1 [] [])
  = (Demo.world1 [] [], Raise AssertionError).
Proof.
  apply (index_document_rejects_other_dimension Demo.encode [Py.lit "old text"]
           (Demo.world1 [] []) demo_encoder_ok).
  - vm_compute. discriminate.
  - vm_compute. discriminate.
Defined.

Lemma index_document_blank_witness :
  RAGModelM.index_document Demo.encode [repeat Py.NL 3; Py.lit "  "]
    Demo.empty_world
  = (Demo.empty_world, Raise ValueError).
Proof.
  destruct (index_document_blank Demo.encode [repeat Py.NL 3; Py.lit "  "]
              Demo.empty_world) as [H _].
  - repeat constructor.
  - apply (H []). reflexivity.
Defined.



Lemma session_keeps_alignment_witness :
  Faiss.ntotal (index (self_index
     (UserSpec.run_user_ops Demo.encode Demo.generate demo_session
        Demo.empty_world)))
  = length (chunks (self_index
     (UserSpec.run_user_ops Demo.encode Demo.generate demo_session
        Demo.empty_world))).
Proof.
  apply (session_keeps_alignment Demo.encode Demo.generate demo_session
           Demo.empty_world demo_encoder_ok).
  reflexivity.
Defined.



Lemma init_outcomes_witness :
  RAGModelM.init_with (OK tt) ∅ = (Demo.empty_world, OK tt).
Proof.
  destruct (init_outcomes (OK tt) ∅) as (_ & H & _).
  destruct (H eq_refl) as [_ H']. apply H'. left. reflexivity.
Defined.

Lemma load_failure_replaces_vectors_witness :
  exists e,
    snd (FAISSIndexM.load "i" "missing"
           {| self_index := FAISSIndexM.init 1; fs := Demo.mismatched_disk |})
    = Raise e
    /\ index (self_index
                (fst (FAISSIndexM.load "i" "missing"
                        {| self_index := FAISSIndexM.init 1;
                           fs := Demo.mismatched_disk |})))
       = {| Faiss.d := 1; Faiss.xb := [[7]] |}
    /\ chunks (self_index
                 (fst (FAISSIndexM.load "i" "missing"
                         {| self_index := FAISSIndexM.init 1;
                            fs := Demo.mismatched_disk |})))
       = []
    /\ fs (fst (FAISSIndexM.load "i" "missing"
                  {| self_index := FAISSIndexM.init 1;
                     fs := Demo.mismatched_disk |}))
       = Demo.mismatched_disk.
Proof.
  apply (load_failure_replaces_vectors
           {| self_index := FAISSIndexM.init 1; fs := Demo.mismatched_disk |}
           "i" "missing" {| Faiss.d := 1; Faiss.xb := [[7]] |}).
  - reflexivity.
  - intros cs. vm_compute. discriminate.
Defined.

Lemma load_then_save_keeps_disk_witness :
  FAISSIndexM.save "i" "c"
    {| self_index := {| dimension := 1;
                        index := {| Faiss.d := 1; Faiss.xb := [[7]] |};
                        chunks := [] |};
       fs := Demo.mismatched_disk |}
  = ({| self_index := {| dimension := 1;
                         index := {| Faiss.d := 1; Faiss.xb := [[7]] |};
                         chunks := [] |};
        fs := Demo.mismatched_disk |}, OK tt).
Proof.
  apply (load_then_save_keeps_disk
           {| self_index := FAISSIndexM.init 1; fs := Demo.mismatched_disk |}).
  - discriminate.
  - reflexivity.
Defined.


Lemma query_propagates_generator_error_witness :
  RAGModelM.query Demo1.encode Demo1.failing (Py.lit "q") 2 Demo1.two_chunks
  = (Demo1.two_chunks, Raise ApiError).
Proof.
  apply (query_propagates_generator_error Demo1.encode Demo1.failing
           (Py.lit "q") 2 Demo1.two_chunks [0]).
  - reflexivity.
  - reflexivity.
  - reflexivity.
  - vm_compute. lia.
  - reflexivity.
  - repeat constructor.
  - intros prompt. reflexivity.
Defined.



Lemma main_rerun_indexes_again_witness :
  exists ix2,
    App.rag_model
      (fst (App.main Demo.encode Demo.generate
              (Demo1.upload false [Py.lit "a b"] (Py.lit "q"))
              (fst (App.main Demo.encode Demo.generate
                      (Demo1.upload false [Py.lit "a b"] [])
                      Demo1.running)))) = Some ix2
    /\ chunks ix2
       = chunks (self_index Demo.after_old_document)
         ++ DocumentProcessor.process_pdf [Py.lit "a b"]
         ++ DocumentProcessor.process_pdf [Py.lit "a b"]
    /\ Faiss.ntotal (index ix2)
       = (Faiss.ntotal (index (self_index Demo.after_old_document))
          + 2 * length (DocumentProcessor.process_pdf [Py.lit "a b"]))%nat.
Proof.
  apply (main_rerun_indexes_again Demo.encode Demo.generate
           (Demo1.upload false [Py.lit "a b"] [])
           (Demo1.upload false [Py.lit "a b"] (Py.lit "q"))
           Demo1.running (self_index Demo.after_old_document)
           [Py.lit "a b"] demo_encoder_ok);
    try reflexivity.
  vm_compute. discriminate.
Defined.

Lemma main_question_before_any_document_witness :
  exists e,
    App.main_with Demo.encode Demo.generate (OK tt)
      {| App.clear_clicked := false;
         App.uploaded_file := None;
         App.question := Py.lit "What is Paris known for?" |}
      (App.fresh ∅)
    = ({| App.rag_model := Some (FAISSIndexM.init RAGModelM.DEFAULT_DIMENSION);
          App.document_processed := Some false;
          App.disk := ∅ |}, OK [App.AnswerError e])
    /\ (forall qe,
          ndarray_first (Demo.encode [Py.lit "What is Paris known for?"]) = OK qe ->
          length qe = RAGModelM.DEFAULT_DIMENSION -> e = IndexError).
Proof.
  destruct (main_question_before_any_document Demo.encode Demo.generate (OK tt)
              {| App.clear_clicked := false;
                 App.uploaded_file := None;
                 App.question := Py.lit "What is Paris known for?" |} ∅)
    as [H _].
  - left. reflexivity.
  - reflexivity.
  - reflexivity.
  - discriminate.
  - apply H. reflexivity.
Defined.
